(** * Rectif: perspective rectification pipeline

    A shallow embedding of [rectify_gui/utils_geom.py] and
    [rectify_gui/image_ops.py], of the metadata handling of
    [rectify_gui/io_meta.py] and [rectify_gui/models.py], and of the zoom and
    the queue of [rectify_gui/ui_main.py].

    Numbers are modelled the way the Python code holds them:
    - [np.float32] array entries and scalars are IEEE-754 binary32 values,
      written with the Standard Library's [spec_float] at precision 24 and
      maximal exponent 128, rounding to nearest even (arithmetic between a
      float32 scalar and a Python number stays in float32, as in NumPy 2);
      the power [x ** 2] is the C library's [powf], of which only
      faithful rounding is assumed;
    - Python [float] is binary64 (precision 53, maximal exponent 1024);
    - Python [int] is [Z].
    Exceptions are an explicit [Raise] result. *)

From Stdlib Require Import ZArith NArith List Bool Lia Permutation SpecFloat.
From Stdlib Require Import Sorting.Sorted.
From Stdlib Require Strings.Byte Strings.Ascii Strings.String.
Import ListNotations.
Local Open Scope Z_scope.

(** ** Exceptions *)

Inductive exn : Type :=
| ValueError
| OverflowError
| ZeroDivisionError
| IndexError
| CvError.

Inductive result (A : Type) : Type :=
| Ok (a : A)
| Raise (e : exn).
Arguments Ok {A} a.
Arguments Raise {A} e.

Definition bind {A B : Type} (r : result A) (k : A -> result B) : result B :=
  match r with
  | Ok a => k a
  | Raise e => Raise e
  end.

Notation "x <- r ;; k" := (bind r (fun x => k))
  (at level 61, r at next level, right associativity).

Definition raises {A : Type} (r : result A) : Prop :=
  exists e, r = Raise e.

(** ** IEEE-754 values *)

Definition float : Type := spec_float.

Definition is_nan (x : float) : bool :=
  match x with S754_nan => true | _ => false end.

Definition is_finite (x : float) : bool :=
  match x with S754_zero _ | S754_finite _ _ _ => true | _ => false end.

(** Python's [int(x)] on a float: truncation towards zero; [int(nan)] raises
    [ValueError] and [int(inf)] raises [OverflowError]. *)
Definition trunc (x : float) : result Z :=
  match x with
  | S754_zero _ => Ok 0
  | S754_finite s m e =>
      Ok (cond_Zopp s (match e with
                       | Z0 => Zpos m
                       | Zpos p => Zpos m * 2 ^ Zpos p
                       | Zneg p => Zpos m / 2 ^ Zpos p
                       end))
  | S754_infinity _ => Raise OverflowError
  | S754_nan => Raise ValueError
  end.

Module F32.
Definition prec : Z := 24.
Definition emax : Z := 128.
Definition add := SFadd prec emax.
Definition sub := SFsub prec emax.
Definition mul := SFmul prec emax.
Definition div := SFdiv prec emax.
Definition sqrt := SFsqrt prec emax.
(** An integer stored into a float32 array. *)
Definition of_Z (n : Z) : float := binary_normalize prec emax n 0 false.
(** The binary32 value nearest to [m * 2^e]. *)
Definition make (m e : Z) : float := binary_normalize prec emax m e false.
(** Conversion of a wider float to binary32 ([astype(np.float32)]). *)
Definition of_float (x : float) : float :=
  match x with
  | S754_finite s m e => binary_round prec emax s m e
  | _ => x
  end.
End F32.

Module F64.
Definition prec : Z := 53.
Definition emax : Z := 1024.
Definition add := SFadd prec emax.
Definition sub := SFsub prec emax.
Definition mul := SFmul prec emax.
Definition div := SFdiv prec emax.
Definition of_Z (n : Z) : float := binary_normalize prec emax n 0 false.
Definition make (m e : Z) : float := binary_normalize prec emax m e false.
End F64.

(** ** numpy reductions used by the code *)

(** [np.argmin] on a one-dimensional float array: index of the first
    minimum; a NaN is "minimal" and the first NaN wins; an empty array
    raises [ValueError].  The loop is numpy's: the candidate is replaced
    when [not (x >= candidate)]. *)
Fixpoint argmin_loop (mp : float) (best i : nat) (l : list float) : nat :=
  match l with
  | [] => best
  | x :: l' =>
      if negb (SFleb mp x)
      then if is_nan x then i else argmin_loop x i (S i) l'
      else argmin_loop mp best (S i) l'
  end.

Definition argmin (l : list float) : result nat :=
  match l with
  | [] => Raise ValueError
  | x :: l' => if is_nan x then Ok 0%nat else Ok (argmin_loop x 0 1 l')
  end.

(** [np.argmax]: the candidate is replaced when [not (x <= candidate)]. *)
Fixpoint argmax_loop (mp : float) (best i : nat) (l : list float) : nat :=
  match l with
  | [] => best
  | x :: l' =>
      if negb (SFleb x mp)
      then if is_nan x then i else argmax_loop x i (S i) l'
      else argmax_loop mp best (S i) l'
  end.

Definition argmax (l : list float) : result nat :=
  match l with
  | [] => Raise ValueError
  | x :: l' => if is_nan x then Ok 0%nat else Ok (argmax_loop x 0 1 l')
  end.

(** ** utils_geom.py *)

(** A row of an [(n, 2)] float32 array. *)
Definition point : Type := (float * float)%type.

Definition px (p : point) : float := fst p.
Definition py (p : point) : float := snd p.

(** The [(4, 2)] array [rect]: rows 0..3 are top-left, top-right,
    bottom-right, bottom-left. *)
Record rect : Type := mkRect { tl : point; tr : point; br : point; bl : point }.

Definition rect_rows (r : rect) : list point := [tl r; tr r; br r; bl r].

(** [pts.sum(axis=1)]: one float32 addition per row. *)
Definition row_sum (p : point) : float := F32.add (px p) (py p).

(** [np.diff(pts, axis=1)]: second column minus first column. *)
Definition row_diff (p : point) : float := F32.sub (py p) (px p).

(** [pts[i]] *)
Definition getitem (pts : list point) (i : nat) : result point :=
  match nth_error pts i with
  | Some p => Ok p
  | None => Raise IndexError
  end.

Definition order_points (pts : list point) : result rect :=
  let s := map row_sum pts in
  i0 <- argmin s ;;
  r0 <- getitem pts i0 ;;
  i2 <- argmax s ;;
  r2 <- getitem pts i2 ;;
  let diff := map row_diff pts in
  i1 <- argmin diff ;;
  r1 <- getitem pts i1 ;;
  i3 <- argmax diff ;;
  r3 <- getitem pts i3 ;;
  Ok (mkRect r0 r1 r2 r3).

(** The C library behind numpy's scalar arithmetic.  [x ** y] on a
    float32 scalar is a call to [powf]; it is not code of this repository
    and it need not return the correctly rounded power. *)
Class Libm : Type := {
  powf : float -> float -> float
}.

(** Rounding toward zero ([up = false]) or away from zero ([up = true]),
    written the way [binary_round_aux] rounds to nearest: the mantissa is
    cut to the precision, moved by the rounding, and renormalised; what
    exceeds the largest exponent is an infinity. *)
Definition round_dir (up : bool) (mx : Z) (lx : location) : Z :=
  match lx with
  | loc_Exact => mx
  | loc_Inexact _ => if up then mx + 1 else mx
  end.

Definition binary_round_dir (up : bool) (prec emax : Z) (sx : bool)
    (mx ex : Z) (lx : location) : float :=
  let '(mrs', e') := shr_fexp prec emax mx ex lx in
  let '(mrs'', e'') :=
    shr_fexp prec emax (round_dir up (shr_m mrs') (loc_of_shr_record mrs'))
      e' loc_Exact in
  match shr_m mrs'' with
  | Z0 => S754_zero sx
  | Zpos m =>
      if e'' <=? emax - prec then S754_finite sx m e'' else S754_infinity sx
  | _ => S754_nan
  end.

(** The float32 values next to the exact square of [x]: the square
    rounded down and rounded up (one value when the square is a float32).
    The square of a zero is +0, of an infinity +infinity, of NaN NaN, as
    the C standard has it for [pow(x, 2)]. *)
Definition square_candidates (x : float) : list float :=
  match x with
  | S754_nan => [S754_nan]
  | S754_infinity _ => [S754_infinity false]
  | S754_zero _ => [S754_zero false]
  | S754_finite _ m e =>
      [binary_round_dir false F32.prec F32.emax false (Zpos (m * m)) (e + e)
         loc_Exact;
       binary_round_dir true F32.prec F32.emax false (Zpos (m * m)) (e + e)
         loc_Exact]
  end.

(** [x ** 2] on a float32 scalar: the Python int exponent enters the
    float32 arithmetic as 2.0. *)
Definition sq `{lm : Libm} (x : float) : float := powf x (F32.of_Z 2).

(** [np.sqrt(((p[0] - q[0]) ** 2) + ((p[1] - q[1]) ** 2))] *)
Definition edge_len `{lm : Libm} (p q : point) : float :=
  F32.sqrt (F32.add (sq (F32.sub (px p) (px q))) (sq (F32.sub (py p) (py q)))).

(** The array [dst] built from the two integer sizes, stored as float32. *)
Definition dst_rect (max_width max_height : Z) : rect :=
  mkRect (F32.of_Z 0, F32.of_Z 0)
         (F32.of_Z (max_width - 1), F32.of_Z 0)
         (F32.of_Z (max_width - 1), F32.of_Z (max_height - 1))
         (F32.of_Z 0, F32.of_Z (max_height - 1)).

(** The [image] argument is not read by the function. *)
Definition four_point_transform `{lm : Libm} (pts : list point)
  : result (rect * rect) :=
  r <- order_points pts ;;
  let width_a := edge_len (br r) (bl r) in
  let width_b := edge_len (tr r) (tl r) in
  wa <- trunc width_a ;;
  wb <- trunc width_b ;;
  let max_width := Z.max wa wb in
  let height_a := edge_len (tr r) (br r) in
  let height_b := edge_len (tl r) (bl r) in
  ha <- trunc height_a ;;
  hb <- trunc height_b ;;
  let max_height := Z.max ha hb in
  Ok (dst_rect max_width max_height, r).

(** ** Images and the OpenCV interface *)

(** A [uint8] array of shape [(rows, cols, channels)], row-major. *)
Record Image : Type := mkImage {
  rows : Z;
  cols : Z;
  chans : Z;
  data : list Byte.byte
}.

Inductive interp : Type := INTER_LINEAR | INTER_AREA | INTER_CUBIC.
Inductive color_code : Type := COLOR_BGR2GRAY | COLOR_BGR2LAB | COLOR_LAB2BGR.
Inductive retr_mode : Type := RETR_EXTERNAL.
Inductive chain_mode : Type := CHAIN_APPROX_SIMPLE.

(** A contour: integer pixel positions. *)
Definition Contour : Type := list (Z * Z).

(** How a float32 kernel evaluates [x * alpha + y * beta]: with both
    products rounded before the addition, or with one of them fused into
    the addition and rounded only with the sum (a vector kernel built on
    fused multiply-add, or a scalar loop in which the compiler contracts
    one product). *)
Inductive fusion : Type := Unfused | FusedFirst | FusedSecond.

(** The OpenCV entry points the module calls.  They are not code of this
    repository: the pipeline is stated over any implementation of them. *)
Class OpenCV : Type := {
  Mat3 : Type;
  cv_resize : Image -> Z * Z -> interp -> result Image;
  cv_resize_scale : Image -> float -> float -> result Image;
  cv_cvtColor : Image -> color_code -> result Image;
  cv_GaussianBlur : Image -> Z * Z -> float -> result Image;
  cv_Canny : Image -> Z -> Z -> result Image;
  cv_dilate : Image -> Z -> result Image;
  cv_findContours : Image -> retr_mode -> chain_mode -> result (list Contour);
  cv_contourArea : Contour -> float;
  cv_arcLength : Contour -> bool -> float;
  cv_approxPolyDP : Contour -> float -> bool -> list (Z * Z);
  cv_getPerspectiveTransform : rect -> rect -> result Mat3;
  cv_warpPerspective : Image -> Mat3 -> Z * Z -> result Image;
  cv_fastNlMeansDenoisingColored :
    Image -> float -> float -> Z -> Z -> result Image;
  cv_split : Image -> result (Image * Image * Image);
  cv_merge : Image -> Image -> Image -> result Image;
  cv_clahe_apply : float -> Z * Z -> Image -> result Image;
  (** the kernel that computes the byte at a given index of the output of
      [cv2.addWeighted] *)
  cv_fusion_at : nat -> fusion
}.

(** ** Python arithmetic *)

Definition f64_zero : float := S754_zero false.
Definition f64_one : float := F64.of_Z 1.

(** [a / b] on two ints: the quotient as a binary64 value (both ints are
    far below 2^53 here, so they convert exactly); a zero divisor raises. *)
Definition py_truediv (a b : Z) : result float :=
  if b =? 0 then Raise ZeroDivisionError
  else Ok (F64.div (F64.of_Z a) (F64.of_Z b)).

(** [min(a, b)] on floats: [b] when [b < a], else [a]. *)
Definition py_min (a b : float) : float := if SFltb b a then b else a.

(** [int * float] and [float * int] *)
Definition mul_int_float (n : Z) (x : float) : float := F64.mul (F64.of_Z n) x.
Definition mul_float_int (x : float) (n : Z) : float := F64.mul x (F64.of_Z n).

(** [sorted(l, key=key, reverse=True)]: stable, descending. *)
Fixpoint insert_desc {A : Type} (key : A -> float) (x : A) (l : list A) : list A :=
  match l with
  | [] => [x]
  | y :: l' =>
      if SFltb (key x) (key y) then y :: insert_desc key x l' else x :: l
  end.

Definition sorted_desc {A : Type} (key : A -> float) (l : list A) : list A :=
  fold_right (insert_desc key) [] l.

(** ** image_ops.py *)

Definition default_min_area_ratio : float := F64.div (F64.of_Z 1) (F64.of_Z 10).
Definition default_downscale : Z := 800.
Definition default_max_scale_factor : float := F64.make 5 (-2).
Definition default_min_scale_factor : float := F64.make 3 (-2).

(** The literal [0.02]. *)
Definition approx_eps : float := F64.div (F64.of_Z 2) (F64.of_Z 100).

(** [approx.reshape(4, 2).astype(np.float32)] and, when [scale < 1.0],
    [pts /= scale]. *)
Definition approx_points (scale : float) (approx : list (Z * Z)) : list point :=
  map (fun q : Z * Z =>
         let x := F32.of_Z (fst q) in
         let y := F32.of_Z (snd q) in
         if SFltb scale f64_one
         then (F32.div x (F32.of_float scale), F32.div y (F32.of_float scale))
         else (x, y)) approx.

(** The sentinel returned when the loop falls through. *)
Definition full_frame (h w : Z) : rect :=
  mkRect (F32.of_Z 0, F32.of_Z 0)
         (F32.of_Z (w - 1), F32.of_Z 0)
         (F32.of_Z (w - 1), F32.of_Z (h - 1))
         (F32.of_Z 0, F32.of_Z (h - 1)).

(** The test that lets a contour through both filters of the loop. *)
Definition qualifies `{cv : OpenCV} (min_area_ratio : float) (small : Image)
    (cnt : Contour) : bool :=
  let area := cv_contourArea cnt in
  if SFltb area (mul_float_int (mul_float_int min_area_ratio (rows small))
                               (cols small))
  then false
  else
    let peri := cv_arcLength cnt true in
    let approx := cv_approxPolyDP cnt (F64.mul approx_eps peri) true in
    (length approx =? 4)%nat.

(** The [for cnt in contours] loop followed by the fallback. *)
Fixpoint scan_contours `{cv : OpenCV} (min_area_ratio : float) (small : Image)
    (scale : float) (h w : Z) (contours : list Contour) : result (rect * bool) :=
  match contours with
  | [] => Ok (full_frame h w, false)
  | cnt :: rest =>
      let area := cv_contourArea cnt in
      if SFltb area (mul_float_int (mul_float_int min_area_ratio (rows small))
                                   (cols small))
      then scan_contours min_area_ratio small scale h w rest
      else
        let peri := cv_arcLength cnt true in
        let approx := cv_approxPolyDP cnt (F64.mul approx_eps peri) true in
        if (length approx =? 4)%nat
        then pts <- order_points (approx_points scale approx) ;; Ok (pts, true)
        else scan_contours min_area_ratio small scale h w rest
  end.

(** Everything up to and including the sort: the working image, the scale
    and the candidate contours by decreasing area. *)
Definition detect_candidates `{cv : OpenCV} (img : Image) (downscale : Z)
  : result (Image * float * list Contour) :=
  let h := rows img in
  let w := cols img in
  q <- py_truediv downscale (Z.max h w) ;;
  let scale := py_min q f64_one in
  small <- (if SFltb scale f64_one then cv_resize_scale img scale scale
            else Ok img) ;;
  gray <- cv_cvtColor small COLOR_BGR2GRAY ;;
  blurred <- cv_GaussianBlur gray (5, 5) f64_zero ;;
  edged <- cv_Canny blurred 75 200 ;;
  edged <- cv_dilate edged 2 ;;
  contours <- cv_findContours edged RETR_EXTERNAL CHAIN_APPROX_SIMPLE ;;
  Ok (small, scale, sorted_desc cv_contourArea contours).

Definition auto_detect_corners `{cv : OpenCV} (img : Image) (min_area_ratio : float)
    (downscale : Z) : result (rect * bool) :=
  c <- detect_candidates img downscale ;;
  let '(small, scale, contours) := c in
  scan_contours min_area_ratio small scale (rows img) (cols img) contours.

(** Everything [warp_perspective] computes itself: the destination corners,
    the ordered corners and the output size [(w, h)]. *)
Definition warp_geometry `{lm : Libm} (pts : list point)
  : result (rect * rect * (Z * Z)) :=
  t <- four_point_transform pts ;;
  let '(dst, ordered) := t in
  w0 <- trunc (px (br dst)) ;;
  h0 <- trunc (py (br dst)) ;;
  Ok (dst, ordered, (w0 + 1, h0 + 1)).

Definition warp_perspective `{cv : OpenCV} `{lm : Libm} (img : Image)
    (pts : list point) : result Image :=
  g <- warp_geometry pts ;;
  let '(dst, ordered, size) := g in
  M <- cv_getPerspectiveTransform ordered dst ;;
  cv_warpPerspective img M size.

Definition apply_denoise `{cv : OpenCV} (img : Image) (strength : float)
  : result Image :=
  t <- trunc strength ;;
  let template := Z.max 3 (Z.min 7 t) in
  let search := template * 2 + 1 in
  cv_fastNlMeansDenoisingColored img strength strength template search.

Definition apply_clahe `{cv : OpenCV} (img : Image) (clip_limit : float)
  : result Image :=
  lab <- cv_cvtColor img COLOR_BGR2LAB ;;
  p <- cv_split lab ;;
  let '(l, a, b) := p in
  l <- cv_clahe_apply clip_limit (8, 8) l ;;
  lab <- cv_merge l a b ;;
  cv_cvtColor lab COLOR_LAB2BGR.

(** *** Sharpening *)

Definition byte_to_Z (b : Byte.byte) : Z := Z.of_N (Byte.to_N b).

Definition byte_of_Z (n : Z) : Byte.byte :=
  match Byte.of_N (Z.to_N n) with
  | Some b => b
  | None => Byte.x00
  end.

(** [cvRound]: to the nearest integer, halves to the even one; what does
    not fit a C [int] becomes [INT_MIN]. *)
Definition cv_round (x : float) : Z :=
  match x with
  | S754_zero _ => 0
  | S754_finite s m e =>
      let n :=
        cond_Zopp s
          (match e with
           | Z0 => Zpos m
           | Zpos p => Zpos m * 2 ^ Zpos p
           | Zneg p =>
               let q := Zpos m / 2 ^ Zpos p in
               let r := Zpos m mod 2 ^ Zpos p in
               match 2 * r ?= 2 ^ Zpos p with
               | Lt => q
               | Gt => q + 1
               | Eq => if Z.even q then q else q + 1
               end
           end) in
      if (- 2 ^ 31 <=? n) && (n <? 2 ^ 31) then n else - 2 ^ 31
  | _ => - 2 ^ 31
  end.

(** [saturate_cast<uchar>] *)
Definition saturate_u8 (n : Z) : Byte.byte := byte_of_Z (Z.max 0 (Z.min 255 n)).

(** [fmaf(x, y, z)]: [x * y + z] with a single rounding. *)
Definition fma32 (x y z : float) : float :=
  match x, y with
  | S754_finite sx mx ex, S754_finite sy my ey =>
      match z with
      | S754_finite _ _ _ =>
          F32.add (S754_finite (xorb sx sy) (mx * my) (ex + ey)) z
      | S754_zero _ => F32.mul x y
      | _ => z
      end
  | _, _ => F32.add (F32.mul x y) z
  end.

(** One channel value of [cv2.addWeighted] on [uint8] data: the weights
    are converted to float32 and [saturate(a * alpha + b * beta + gamma)]
    is evaluated in float32. *)
Definition add_weighted_px (k : fusion) (alpha beta gamma : float)
    (a b : Byte.byte) : Byte.byte :=
  let x := F32.of_Z (byte_to_Z a) in
  let y := F32.of_Z (byte_to_Z b) in
  let al := F32.of_float alpha in
  let be := F32.of_float beta in
  let s :=
    match k with
    | Unfused => F32.add (F32.mul x al) (F32.mul y be)
    | FusedFirst => fma32 x al (F32.mul y be)
    | FusedSecond => fma32 y be (F32.mul x al)
    end in
  saturate_u8 (cv_round (F32.add s (F32.of_float gamma))).

(** The bytes of the weighted sum, the byte at index [i] by the kernel
    [kernel_at i]. *)
Fixpoint add_weighted_data (kernel_at : nat -> fusion) (i : nat)
    (alpha beta gamma : float) (d1 d2 : list Byte.byte) : list Byte.byte :=
  match d1, d2 with
  | a :: d1', b :: d2' =>
      add_weighted_px (kernel_at i) alpha beta gamma a b
      :: add_weighted_data kernel_at (S i) alpha beta gamma d1' d2'
  | _, _ => []
  end.

Definition same_shape (a b : Image) : bool :=
  (rows a =? rows b) && (cols a =? cols b) && (chans a =? chans b)
  && (length (data a) =? length (data b))%nat.

(** [cv2.addWeighted] on two [uint8] images; operands of different sizes are
    rejected by the library.  The program always passes [gamma = 0], for
    which adding [gamma] last or with the second product is the same. *)
Definition cv_addWeighted `{cv : OpenCV} (src1 : Image) (alpha : float)
    (src2 : Image) (beta gamma : float) : result Image :=
  if same_shape src1 src2
  then Ok (mkImage (rows src1) (cols src1) (chans src1)
             (add_weighted_data cv_fusion_at 0 alpha beta gamma
                (data src1) (data src2)))
  else Raise CvError.

(** [np.clip(img, 0, 255).astype(np.uint8)] *)
Definition np_clip_u8 (img : Image) : Image :=
  mkImage (rows img) (cols img) (chans img)
    (map (fun v => byte_of_Z (Z.min 255 (Z.max 0 (byte_to_Z v)) mod 256))
         (data img)).

Definition apply_sharpen `{cv : OpenCV} (img : Image) (amount sigma : float)
  : result Image :=
  blurred <- cv_GaussianBlur img (0, 0) sigma ;;
  sharpened <- cv_addWeighted img amount blurred
                 (F64.sub (F64.of_Z 1) amount) f64_zero ;;
  Ok (np_clip_u8 sharpened).

(** *** Size clamp *)

Definition clamp_size `{cv : OpenCV} (img : Image) (ref_max_dim : Z)
    (max_scale_factor min_scale_factor : float) : result Image :=
  let h := rows img in
  let w := cols img in
  let current_max := Z.max h w in
  max_allowed <- trunc (mul_int_float ref_max_dim max_scale_factor) ;;
  min_allowed <- trunc (mul_int_float ref_max_dim min_scale_factor) ;;
  if max_allowed <? current_max then
    scale <- py_truediv max_allowed current_max ;;
    new_w <- trunc (mul_int_float w scale) ;;
    new_h <- trunc (mul_int_float h scale) ;;
    cv_resize img (new_w, new_h) INTER_AREA
  else if current_max <? min_allowed then
    scale <- py_truediv min_allowed current_max ;;
    new_w <- trunc (mul_int_float w scale) ;;
    new_h <- trunc (mul_int_float h scale) ;;
    cv_resize img (new_w, new_h) INTER_CUBIC
  else Ok img.

(** *** The pipeline *)

(** [ref_max_dim or max(img.shape[:2])] *)
Definition ref_or_default (ref_max_dim : option Z) (img : Image) : Z :=
  match ref_max_dim with
  | Some r => if r =? 0 then Z.max (rows img) (cols img) else r
  | None => Z.max (rows img) (cols img)
  end.

Definition full_pipeline `{cv : OpenCV} `{lm : Libm} (img : Image)
    (pts : list point)
    (denoise : bool) (denoise_strength : float)
    (clahe : bool) (clahe_clip : float)
    (sharpen : bool) (sharpen_amount : float)
    (clamp_enabled : bool) (ref_max_dim : option Z)
    (max_scale_factor min_scale_factor : float) : result Image :=
  result0 <- warp_perspective img pts ;;
  let ref := ref_or_default ref_max_dim img in
  result1 <- (if denoise then apply_denoise result0 denoise_strength
              else Ok result0) ;;
  result2 <- (if clahe then apply_clahe result1 clahe_clip else Ok result1) ;;
  result3 <- (if sharpen
              then apply_sharpen result2 sharpen_amount (F64.of_Z 5)
              else Ok result2) ;;
  if clamp_enabled
  then clamp_size result3 ref max_scale_factor min_scale_factor
  else Ok result3.

Definition get_display_image `{cv : OpenCV} (img : Image) (max_dim : Z)
  : result Image :=
  let h := rows img in
  let w := cols img in
  if Z.max h w <=? max_dim then Ok img
  else
    scale <- py_truediv max_dim (Z.max h w) ;;
    new_w <- trunc (mul_int_float w scale) ;;
    new_h <- trunc (mul_int_float h scale) ;;
    cv_resize img (new_w, new_h) INTER_AREA.

(** ** Concrete inputs used below *)

(** A point with integer pixel coordinates. *)
Definition ipt (x y : Z) : point := (F32.of_Z x, F32.of_Z y).

(** A stand-in library: resampling returns a black image of the requested
    size (for the warp, of the size of the source when the requested size
    is empty), every filter is the identity, and the only contour found is
    a triangle of area zero. *)
Definition blank (h w : Z) : Image :=
  mkImage h w 3 (repeat Byte.x00 (Z.to_nat (h * w * 3))).

#[local] Instance toy_cv : OpenCV := {|
  Mat3 := unit;
  cv_resize := fun _ '(w, h) _ =>
    if (0 <? w) && (0 <? h) then Ok (blank h w) else Raise CvError;
  cv_resize_scale := fun img _ _ => Ok img;
  cv_cvtColor := fun img _ => Ok img;
  cv_GaussianBlur := fun img _ _ => Ok img;
  cv_Canny := fun img _ _ => Ok img;
  cv_dilate := fun img _ => Ok img;
  cv_findContours := fun _ _ _ => Ok [[(0, 0); (1, 0); (0, 1)]];
  cv_contourArea := fun _ => f64_zero;
  cv_arcLength := fun _ _ => f64_zero;
  cv_approxPolyDP := fun c _ _ => c;
  cv_getPerspectiveTransform := fun _ _ => Ok tt;
  cv_warpPerspective := fun img _ '(w, h) =>
    if (0 <? w) && (0 <? h) then Ok (blank h w)
    else Ok (blank (rows img) (cols img));
  cv_fastNlMeansDenoisingColored := fun img _ _ _ _ => Ok img;
  cv_split := fun img => Ok (img, img, img);
  cv_merge := fun l _ _ => Ok l;
  cv_clahe_apply := fun _ _ img => Ok img;
  cv_fusion_at := fun _ => Unfused
|}.

(** Two stand-ins for the C library: a [powf] that returns the correctly
    rounded square, and one that returns the square rounded up.  Neither
    is read with another exponent than 2. *)
Definition rn_libm : Libm := {| powf := fun x _ => F32.mul x x |}.

(** The axis-aligned square with corners (0,0), (10,0), (10,10), (0,10). *)
Definition square10 : list point := [ipt 0 0; ipt 10 0; ipt 10 10; ipt 0 10].

(** Three and five points: arrays of shape (3, 2) and (5, 2). *)
Definition three_points : list point := [ipt 0 0; ipt 10 0; ipt 10 10].
Definition five_points : list point :=
  [ipt 0 0; ipt 10 0; ipt 10 10; ipt 0 10; ipt 5 5].

(** The quadrilateral of the end-to-end scenario. *)
Definition skewed_quad : list point :=
  [ipt 100 80; ipt 1900 120; ipt 1850 1400; ipt 150 1380].

(** A convex quadrilateral with one edge at 45 degrees: (3,1) and (2,2)
    have the same coordinate sum.  Listed once with (2,2) before (3,1) and
    once in canonical order. *)
Definition kite : list point := [ipt 0 0; ipt 2 2; ipt 3 1; ipt 0 3].
Definition kite_ordered : rect :=
  mkRect (ipt 0 0) (ipt 3 1) (ipt 2 2) (ipt 0 3).

(** Strict convexity of the quadrilateral a, b, c, d walked in this order:
    the four turns have the same strict orientation. *)
Definition cross (o a b : Z * Z) : Z :=
  (fst a - fst o) * (snd b - snd a) - (snd a - snd o) * (fst b - fst a).

Definition convex_quad (a b c d : Z * Z) : bool :=
  ((0 <? cross a b c) && (0 <? cross b c d)
   && (0 <? cross c d a) && (0 <? cross d a b))
  || ((cross a b c <? 0) && (cross b c d <? 0)
      && (cross c d a <? 0) && (cross d a b <? 0)).

(** Four distinct points of which (0,0) has both the smallest sum and the
    smallest difference. *)
Definition leaning_quad : list point := [ipt 0 0; ipt 1 5; ipt 5 6; ipt 0 7].





(** ** Vocabulary of the statements *)

(** The order of two finite values as [SFcompare] reads it: sign first,
    then exponent, then mantissa. *)
Definition lex_lt (s1 : bool) (m1 : positive) (e1 : Z)
    (s2 : bool) (m2 : positive) (e2 : Z) : Prop :=
  match s1, s2 with
  | true, false => True
  | false, true => False
  | false, false => e1 < e2 \/ (e1 = e2 /\ (m1 < m2)%positive)
  | true, true => e2 < e1 \/ (e1 = e2 /\ (m2 < m1)%positive)
  end.

(** [v] is at most [mp]: whatever is not below [mp] is not below [v]. *)
Definition below (v mp : float) : Prop :=
  forall w, SFltb w mp = false -> SFltb w v = false.

(** [v] is at least [mp]. *)
Definition above (v mp : float) : Prop :=
  forall w, SFltb mp w = false -> SFltb v w = false.

(** [p] is a row of [pts] and no row has a smaller key. *)
Definition min_of (key : point -> float) (pts : list point) (p : point) : Prop :=
  In p pts /\ forall q, In q pts -> SFltb (key q) (key p) = false.

(** [p] is a row of [pts] and no row has a larger key. *)
Definition max_of (key : point -> float) (pts : list point) (p : point) : Prop :=
  In p pts /\ forall q, In q pts -> SFltb (key p) (key q) = false.

(** The four extremes [order_points] looks for. *)
Inductive extreme : Type := MinSum | MinDiff | MaxSum | MaxDiff.

(** [p] is an input row that reaches the extreme [e]. *)
Definition attains (e : extreme) (pts : list point) (p : point) : Prop :=
  match e with
  | MinSum => min_of row_sum pts p
  | MinDiff => min_of row_diff pts p
  | MaxSum => max_of row_sum pts p
  | MaxDiff => max_of row_diff pts p
  end.

(** The output row that [order_points] fills from the extreme [e]. *)
Definition slot (e : extreme) (r : rect) : point :=
  match e with
  | MinSum => tl r
  | MinDiff => tr r
  | MaxSum => br r
  | MaxDiff => bl r
  end.

(** [p] reaches the extreme [e] and no other point does. *)
Definition only_attains (e : extreme) (pts : list point) (p : point) : Prop :=
  attains e pts p /\ forall q, attains e pts q -> q = p.

(** Two points tie for the smallest sum; the second one also has the
    smallest difference. *)
Definition tied_quad : list point := [ipt 0 1; ipt 1 0; ipt 5 5; ipt 0 6].

(** The first corner is given twice. *)
Definition doubled_quad : list point := [ipt 0 0; ipt 0 0; ipt 5 6; ipt 0 7].

(** The difference in the other direction, first column minus second. *)
Definition x_minus_y (p : point) : float := F32.sub (px p) (py p).

Definition float_eqb (x y : float) : bool :=
  match x, y with
  | S754_zero s, S754_zero s' => Bool.eqb s s'
  | S754_infinity s, S754_infinity s' => Bool.eqb s s'
  | S754_nan, S754_nan => true
  | S754_finite s m e, S754_finite s' m' e' =>
      Bool.eqb s s' && Pos.eqb m m' && Z.eqb e e'
  | _, _ => false
  end.

Definition point_eqb (p q : point) : bool :=
  float_eqb (px p) (px q) && float_eqb (py p) (py q).

(** [a] has a minimal, respectively maximal, key among the rows. *)
Definition is_min_b (key : point -> float) (pts : list point) (a : point) : bool :=
  forallb (fun c => negb (SFltb (key c) (key a))) pts.

Definition is_max_b (key : point -> float) (pts : list point) (a : point) : bool :=
  forallb (fun c => negb (SFltb (key a) (key c))) pts.

(** No key is NaN, a single point has the minimal key and a single point
    has the maximal key. *)
Definition unique_extremes (key : point -> float) (pts : list point) : bool :=
  forallb (fun a =>
     negb (is_nan (key a))
     && forallb (fun b =>
          implb (is_min_b key pts a && is_min_b key pts b) (point_eqb a b)
          && implb (is_max_b key pts a && is_max_b key pts b) (point_eqb a b))
        pts)
    pts.

(** The inputs on which the four extremes are determined by the set of
    points alone: the smallest and the largest sum, and the smallest and
    the largest difference, are each reached by one point only. *)
Definition unambiguous (pts : list point) : bool :=
  unique_extremes row_sum pts && unique_extremes row_diff pts.

(** The four row indices [order_points] reads, in the order of the output
    rows. *)
Definition extreme_indices (pts : list point) : result (nat * nat * nat * nat) :=
  i0 <- argmin (map row_sum pts) ;;
  i2 <- argmax (map row_sum pts) ;;
  i1 <- argmin (map row_diff pts) ;;
  i3 <- argmax (map row_diff pts) ;;
  Ok (i0, i1, i2, i3).

(** What the pipeline expects of the resampler: an output buffer of the
    requested size, when that size is at least 1 x 1. *)
Definition honours_size (cv : OpenCV) : Prop :=
  forall img M w h out, 0 < w -> 0 < h ->
    cv_warpPerspective img M (w, h) = Ok out -> cols out = w /\ rows out = h.

(** What the size computation expects of [powf]: an error below one
    unit in the last place, so that the square returned is the exact
    square rounded down or rounded up. *)
Definition faithful_square (lm : Libm) : Prop :=
  forall x, In (powf x (F32.of_Z 2)) (square_candidates x).






(** What [clamp_size] expects of [cv2.resize]: an output of the requested
    size. *)
Definition resize_honours_size (cv : OpenCV) : Prop :=
  forall img w h i out,
    cv_resize img (w, h) i = Ok out -> cols out = w /\ rows out = h.

(** What [apply_sharpen] expects of [cv2.GaussianBlur]: an output of the
    shape of its input. *)
Definition blur_keeps_shape (cv : OpenCV) : Prop :=
  forall img ksize sigma out,
    cv_GaussianBlur img ksize sigma = Ok out -> same_shape img out = true.

(** A 1 x 2 colour image. *)
Definition two_pixels : Image :=
  mkImage 1 2 3 [Byte.x10; Byte.x20; Byte.x30; Byte.xff; Byte.x00; Byte.x7f].


(** The other side of an image whose larger side [side] is scaled to
    [bound]: [int(o * (bound / side))], checked to lie in [0, bound]. *)
Definition scaled_side_ok (bound side o : Z) : bool :=
  match py_truediv bound side with
  | Ok scale =>
      match trunc (mul_int_float o scale) with
      | Ok n => (0 <=? n) && (n <=? bound)
      | Raise _ => false
      end
  | Raise _ => false
  end.

(** ** The rest of utils_geom.py *)

(** [pts_to_screen]: on a copy, column 0 becomes [x * scale + offset_x] and
    column 1 becomes [y * scale + offset_y].  The array is float32 and the
    three Python floats enter the float32 arithmetic as float32 values. *)
Definition pts_to_screen (pts : list point) (scale offset_x offset_y : float)
  : list point :=
  map (fun p =>
         (F32.add (F32.mul (px p) (F32.of_float scale)) (F32.of_float offset_x),
          F32.add (F32.mul (py p) (F32.of_float scale)) (F32.of_float offset_y)))
      pts.

(** [screen_to_pts]: column 0 becomes [(x - offset_x) / scale] and column 1
    becomes [(y - offset_y) / scale]; numpy divides by zero without
    raising. *)
Definition screen_to_pts (screen_pts : list point)
    (scale offset_x offset_y : float) : list point :=
  map (fun p =>
         (F32.div (F32.sub (px p) (F32.of_float offset_x)) (F32.of_float scale),
          F32.div (F32.sub (py p) (F32.of_float offset_y)) (F32.of_float scale)))
      screen_pts.

(** ** Vocabulary for the rest of image_ops.py *)

(** The polygon [cv2.approxPolyDP(cnt, 0.02 * peri, True)] of a contour. *)
Definition contour_approx `{cv : OpenCV} (cnt : Contour) : list (Z * Z) :=
  cv_approxPolyDP cnt (F64.mul approx_eps (cv_arcLength cnt true)) true.

(** A second stand-in library, in which the contour search finds a small
    triangle and a large quadrilateral. *)
Definition quad_contour : Contour := [(10, 10); (90, 12); (88, 80); (12, 78)].
Definition small_contour : Contour := [(0, 0); (1, 0); (0, 1)].

Definition quad_cv : OpenCV := {|
  Mat3 := unit;
  cv_resize := fun _ '(w, h) _ =>
    if (0 <? w) && (0 <? h) then Ok (blank h w) else Raise CvError;
  cv_resize_scale := fun img _ _ => Ok img;
  cv_cvtColor := fun img _ => Ok img;
  cv_GaussianBlur := fun img _ _ => Ok img;
  cv_Canny := fun img _ _ => Ok img;
  cv_dilate := fun img _ => Ok img;
  cv_findContours := fun _ _ _ => Ok [small_contour; quad_contour];
  cv_contourArea := fun c =>
    if (length c =? 4)%nat then F64.of_Z 5000 else F64.of_Z 1;
  cv_arcLength := fun _ _ => F64.of_Z 300;
  cv_approxPolyDP := fun c _ _ => c;
  cv_getPerspectiveTransform := fun _ _ => Ok tt;
  cv_warpPerspective := fun img _ '(w, h) =>
    if (0 <? w) && (0 <? h) then Ok (blank h w)
    else Ok (blank (rows img) (cols img));
  cv_fastNlMeansDenoisingColored := fun img _ _ _ _ => Ok img;
  cv_split := fun img => Ok (img, img, img);
  cv_merge := fun l _ _ => Ok l;
  cv_clahe_apply := fun _ _ img => Ok img;
  cv_fusion_at := fun _ => Unfused
|}.

(** The slider value [v] read as [v / 10.0]. *)
Definition tenths (v : Z) : float := F64.div (F64.of_Z v) (F64.of_Z 10).

(** [a] does not come before [b] in decreasing order of the key. *)
Definition ge_key {A : Type} (key : A -> float) (a b : A) : Prop :=
  SFltb (key a) (key b) = false.

(** An image of 100 x 100 pixels whose bytes are left out. *)
Definition frame100 : Image := mkImage 100 100 3 [].

(** [int(float(v))] gives back the slider value [v]. *)
Definition slider_float_ok (v : Z) : bool :=
  match trunc (F64.of_Z v) with
  | Ok n => n =? v
  | Raise _ => false
  end.

(** [f] holds on the [n] integers from [lo] on. *)
Fixpoint all_from (f : Z -> bool) (lo : Z) (n : nat) : bool :=
  match n with
  | O => true
  | S k => f lo && all_from f (lo + 1) k
  end.

(** For the slider value [v], [apply_sharpen] gives back every channel
    value [a] on which the original and the blurred copy agree. *)
Definition sharpen_flat_ok (v : Z) : bool :=
  let alpha := tenths v in
  let beta := F64.sub (F64.of_Z 1) alpha in
  forallb
    (fun k =>
       all_from
         (fun n =>
            match Byte.of_N (Z.to_N n) with
            | Some a => Byte.eqb (add_weighted_px k alpha beta f64_zero a a) a
            | None => true
            end)
         0 256)
    [Unfused; FusedFirst; FusedSecond].

(** The larger side that [get_display_image] asks for when the larger side
    of the image is [side]: it is [bound] or one less. *)
Definition display_side_ok (bound side : Z) : bool :=
  match py_truediv bound side with
  | Ok scale =>
      match trunc (mul_int_float side scale) with
      | Ok n => (n =? bound) || (n =? bound - 1)
      | Raise _ => false
      end
  | Raise _ => false
  end.

(** The preview bound of the viewer, [DISPLAY_MAX_DIM]. *)
Definition DISPLAY_MAX_DIM : Z := 1200.

(** An empty image. *)
Definition empty_image : Image := mkImage 0 0 3 [].

(** ** The viewer's zoom (ui_main.py, [ImageViewerWidget]) *)

(** The part of the widget state that zooming reads and writes. *)
Record View : Type := mkView {
  v_scale : float;
  v_offset_x : float;
  v_offset_y : float
}.

(** [max(a, b)] on floats: [b] when [b > a], else [a]. *)
Definition py_max (a b : float) : float := if SFltb a b then b else a.

(** [a / b] on two floats: a zero divisor raises. *)
Definition py_fdiv (a b : float) : result float :=
  match b with
  | S754_zero _ => Raise ZeroDivisionError
  | _ => Ok (F64.div a b)
  end.

(** The literals [0.2], [5.0] and [0.01]. *)
Definition zoom_min : float := F64.div (F64.of_Z 2) (F64.of_Z 10).
Definition zoom_max : float := F64.of_Z 5.
Definition zoom_step_min : float := F64.div (F64.of_Z 1) (F64.of_Z 100).

(** [_apply_zoom]; the repaint request at the end is left out. *)
Definition apply_zoom (v : View) (factor anchor_x anchor_y : float)
  : result View :=
  let old_scale := v_scale v in
  let new_scale :=
    py_max zoom_min (py_min zoom_max (F64.mul old_scale factor)) in
  if SFltb (SFabs (F64.sub new_scale old_scale)) zoom_step_min then Ok v
  else
    rx <- py_fdiv new_scale old_scale ;;
    let offset_x :=
      F64.sub anchor_x (F64.mul (F64.sub anchor_x (v_offset_x v)) rx) in
    ry <- py_fdiv new_scale old_scale ;;
    let offset_y :=
      F64.sub anchor_y (F64.mul (F64.sub anchor_y (v_offset_y v)) ry) in
    Ok (mkView new_scale offset_x offset_y).

(** A view at scale 1 with no offset, and the factor 1.25 of [zoom_in]. *)
Definition view_one : View := mkView f64_one f64_zero f64_zero.
Definition zoom_in_factor : float := F64.make 5 (-2).

(** ** File names (pathlib) and io_meta.py *)

Section FileNames.
Import Ascii String.
Local Open Scope string_scope.

(** [s.rfind('.')], with [None] for -1. *)
Fixpoint rfind_dot (s : string) : option nat :=
  match s with
  | EmptyString => None
  | String c s' =>
      match rfind_dot s' with
      | Some i => Some (S i)
      | None => if Ascii.eqb c "." then Some 0%nat else None
      end
  end.

(** The slices [s[:n]] and [s[n:]]. *)
Fixpoint str_take (n : nat) (s : string) : string :=
  match n, s with
  | S n', String c s' => String c (str_take n' s')
  | _, _ => EmptyString
  end.

Fixpoint str_drop (n : nat) (s : string) : string :=
  match n, s with
  | S n', String _ s' => str_drop n' s'
  | _, _ => s
  end.

(** [PurePath.suffix] and [PurePath.stem] on the final component [name],
    as pathlib computes them up to Python 3.13: with
    [i = name.rfind('.')], the suffix is [name[i:]] and the stem [name[:i]]
    when [0 < i < len(name) - 1]; otherwise the suffix is empty and the stem
    is the whole name. *)
Definition has_suffix (name : string) (i : nat) : bool :=
  (0 <? i)%nat && (i <? String.length name - 1)%nat.

Definition path_suffix (name : string) : string :=
  match rfind_dot name with
  | Some i => if has_suffix name i then str_drop i name else ""
  | None => ""
  end.

Definition path_stem (name : string) : string :=
  match rfind_dot name with
  | Some i => if has_suffix name i then str_take i name else name
  | None => name
  end.

(** [s.split('/')] *)
Fixpoint split_slash (s : string) : list string :=
  match s with
  | EmptyString => [""]
  | String c s' =>
      if Ascii.eqb c "/" then "" :: split_slash s'
      else
        match split_slash s' with
        | h :: t => String c h :: t
        | [] => [String c ""]
        end
  end.

(** The components pathlib keeps of a path string: neither empty nor
    [.]. *)
Definition keep_part (x : string) : bool :=
  negb (String.eqb x "") && negb (String.eqb x ".").

Definition parse_rel (s : string) : list string :=
  filter keep_part (split_slash s).

Definition starts_with_slash (s : string) : bool :=
  match s with
  | String c _ => Ascii.eqb c "/"
  | EmptyString => false
  end.

(** The root of a POSIX path string: [//] for exactly two leading
    slashes, [/] for one or for three and more. *)
Definition root_of (s : string) : string :=
  if starts_with_slash s then
    if starts_with_slash (str_drop 1 s)
       && negb (starts_with_slash (str_drop 2 s))
    then "//" else "/"
  else "".

(** A [PurePosixPath]: its root and its components. *)
Record PurePath : Type := mkPath {
  p_root : string;
  p_parts : list string
}.

(** [PurePosixPath(s)] *)
Definition parse_path (s : string) : PurePath :=
  mkPath (root_of s) (parse_rel s).

(** [d / s]: an absolute [s] replaces [d]; otherwise the components of
    [s] follow those of [d]. *)
Definition joinpath (d : PurePath) (s : string) : PurePath :=
  if starts_with_slash s then parse_path s
  else mkPath (p_root d) (p_parts d ++ parse_rel s).

(** [PurePath.name]: the last component, empty when there is none. *)
Definition path_name (p : PurePath) : string := last (p_parts p) "".

(** [build_output_path] on POSIX paths: [output_dir] joined by [/] with
    the f-string [{input_path.stem}{suffix}{input_path.suffix}], the stem
    and the suffix being those of [input_path.name]. *)
Definition build_output_path (input_path output_dir : PurePath)
    (suffix : string) : PurePath :=
  let name := path_name input_path in
  joinpath output_dir (path_stem name ++ suffix ++ path_suffix name).

(** No [/] in the string: what holds of every component of a path. *)
Fixpoint no_slash (s : string) : bool :=
  match s with
  | EmptyString => true
  | String c s' => negb (Ascii.eqb c "/") && no_slash s'
  end.

(** [s.endswith('/')] *)
Fixpoint ends_with_slash (s : string) : bool :=
  match s with
  | EmptyString => false
  | String c EmptyString => Ascii.eqb c "/"
  | String _ s' => ends_with_slash s'
  end.

(** An extension: a dot in front, and nowhere else, of at least one more
    character. *)
Definition is_extension (e : string) : Prop :=
  rfind_dot e = Some 0%nat /\ (2 <= String.length e)%nat.

(** An output directory. *)
Definition out_dir : PurePath := mkPath "" ["out"].

(** [str.lower] on strings of code points 0 to 255: the letters A to Z
    and the capital letters from 192 to 222, the sign 215 apart, move up
    by 32. *)
Definition lower_char (c : ascii) : ascii :=
  let n := nat_of_ascii c in
  if ((65 <=? n) && (n <=? 90)
      || (192 <=? n) && (n <=? 222) && negb (n =? 215))%nat
  then ascii_of_nat (n + 32)
  else c.

Fixpoint lower (s : string) : string :=
  match s with
  | EmptyString => EmptyString
  | String c s' => String (lower_char c) (lower s')
  end.

(** [x in (a, b, ...)] on strings. *)
Definition str_in (x : string) (l : list string) : bool :=
  existsb (String.eqb x) l.

(** [SUPPORTED_EXTENSIONS] of image_ops.py. *)
Definition SUPPORTED_EXTENSIONS : list string :=
  [".jpg"; ".jpeg"; ".png"; ".tiff"; ".tif"].

(** [QueueItem.extension] of models.py. *)
Definition extension (name : string) : string := lower (path_suffix name).

Record ImageMeta : Type := mkImageMeta {
  exif_bytes : option (list Byte.byte);
  icc_profile : option (list Byte.byte);
  orientation : Z
}.

(** Truth value of an [Optional[bytes]]: neither [None] nor empty. *)
Definition truthy (b : option (list Byte.byte)) : bool :=
  match b with
  | Some (_ :: _) => true
  | _ => false
  end.

(** The piexif import: whether it succeeded, and the body of the [try]
    block of [save_image_with_meta] (load, set the orientation tags to 1,
    dump), which may raise. *)
Record PiExif : Type := mkPiExif {
  HAS_PIEXIF : bool;
  exif_orientation_one : list Byte.byte -> result (list Byte.byte)
}.

(** The keyword arguments handed to [pil.save]; an absent key is [None]. *)
Record SaveKwargs : Type := mkSaveKwargs {
  kw_quality : option Z;
  kw_subsampling : option Z;
  kw_icc_profile : option (list Byte.byte);
  kw_exif : option (list Byte.byte);
  kw_compression : option string
}.

Definition no_kwargs : SaveKwargs := mkSaveKwargs None None None None None.

(** [save_image_with_meta], the dictionary [save_kwargs] it builds for a
    path whose final component is [name]. *)
Definition save_kwargs (piexif : PiExif) (name : string) (meta : ImageMeta)
    (quality : Z) : SaveKwargs :=
  let ext := lower (path_suffix name) in
  if str_in ext [".jpg"; ".jpeg"] then
    mkSaveKwargs
      (Some quality) (Some 0)
      (if truthy (icc_profile meta) then icc_profile meta else None)
      (if HAS_PIEXIF piexif && truthy (exif_bytes meta) then
         match exif_bytes meta with
         | Some e =>
             match exif_orientation_one piexif e with
             | Ok b => Some b
             | Raise _ => None
             end
         | None => None
         end
       else None)
      None
  else if str_in ext [".png"; ".tiff"; ".tif"] then
    mkSaveKwargs
      None None
      (if truthy (icc_profile meta) then icc_profile meta else None)
      None
      (if str_in ext [".tiff"; ".tif"] then Some "tiff_lzw" else None)
  else no_kwargs.

(** A piexif stand-in that hands the EXIF block back unchanged, and
    metadata with an EXIF block and a profile of one byte each. *)
Definition plain_piexif : PiExif := mkPiExif true (fun e => Ok e).
Definition some_meta : ImageMeta :=
  mkImageMeta (Some [Byte.x01]) (Some [Byte.x02]) 6.

End FileNames.

(** ** EXIF orientation (io_meta.py) *)

(** A Pillow image as its size and its pixel at column [x], row [y]. *)
Record PilImage (A : Type) : Type := mkPilImage {
  im_width : Z;
  im_height : Z;
  im_pixel : Z -> Z -> A
}.
Arguments mkPilImage {A}.
Arguments im_width {A}.
Arguments im_height {A}.
Arguments im_pixel {A}.

Inductive Transpose : Type :=
| FLIP_LEFT_RIGHT | FLIP_TOP_BOTTOM | ROTATE_90 | ROTATE_180 | ROTATE_270.

(** [Image.transpose]: the flips mirror the columns or the rows;
    [ROTATE_90] turns the image a quarter turn counter-clockwise and
    [ROTATE_270] a quarter turn clockwise, both swapping the sides. *)
Definition pil_transpose {A : Type} (im : PilImage A) (method : Transpose)
  : PilImage A :=
  let w := im_width im in
  let h := im_height im in
  match method with
  | FLIP_LEFT_RIGHT =>
      mkPilImage w h (fun x y => im_pixel im (w - 1 - x) y)
  | FLIP_TOP_BOTTOM =>
      mkPilImage w h (fun x y => im_pixel im x (h - 1 - y))
  | ROTATE_180 =>
      mkPilImage w h (fun x y => im_pixel im (w - 1 - x) (h - 1 - y))
  | ROTATE_90 =>
      mkPilImage h w (fun x y => im_pixel im (w - 1 - y) x)
  | ROTATE_270 =>
      mkPilImage h w (fun x y => im_pixel im y (h - 1 - x))
  end.

Definition apply_orientation {A : Type} (pil : PilImage A) (orientation : Z)
  : PilImage A :=
  if orientation =? 1 then pil
  else if orientation =? 2 then pil_transpose pil FLIP_LEFT_RIGHT
  else if orientation =? 3 then pil_transpose pil ROTATE_180
  else if orientation =? 4 then pil_transpose pil FLIP_TOP_BOTTOM
  else if orientation =? 5 then
    pil_transpose (pil_transpose pil FLIP_LEFT_RIGHT) ROTATE_270
  else if orientation =? 6 then pil_transpose pil ROTATE_270
  else if orientation =? 7 then
    pil_transpose (pil_transpose pil FLIP_LEFT_RIGHT) ROTATE_90
  else if orientation =? 8 then pil_transpose pil ROTATE_90
  else pil.

(** The orientation that [apply_orientation] undoes with. *)
Definition opposite_orientation (orientation : Z) : Z :=
  if orientation =? 6 then 8 else if orientation =? 8 then 6 else orientation.

(** ** The queue (ui_main.py, [MainWindow]) *)

Inductive QueueStatus : Type := PENDING | DONE | ERROR.

Record QueueItem (Path : Type) : Type := mkQueueItem {
  path : Path;
  status : QueueStatus;
  error_message : option String.string
}.
Arguments mkQueueItem {Path}.
Arguments path {Path}.
Arguments status {Path}.
Arguments error_message {Path}.

(** The loop of [_add_paths_to_queue]: the queue and the count [added]
    after going through [paths]; [path_eq] is [==] on paths. *)
Definition add_paths_to_queue {Path : Type} (path_eq : Path -> Path -> bool)
    (queue : list (QueueItem Path)) (paths : list Path)
  : list (QueueItem Path) * Z :=
  fold_left
    (fun '(queue, added) p =>
       if negb (existsb (fun q => path_eq (path q) p) queue)
       then (queue ++ [mkQueueItem p PENDING None], added + 1)
       else (queue, added))
    paths (queue, 0).

(** No item of the queue has the path of an earlier item. *)
Definition distinct_paths {Path : Type} (path_eq : Path -> Path -> bool)
    (queue : list (QueueItem Path)) : Prop :=
  ForallOrdPairs (fun a b => path_eq (path a) (path b) = false) queue.

(** [l] is made of elements of [l'], taken in the order of [l']. *)
Inductive subseq {A : Type} : list A -> list A -> Prop :=
| subseq_nil : subseq [] []
| subseq_skip (x : A) (l l' : list A) : subseq l l' -> subseq l (x :: l')
| subseq_take (x : A) (l l' : list A) : subseq l l' -> subseq (x :: l) (x :: l').

(** ** Vocabulary for integer coordinates *)

(** The 24-bit mantissa of a positive integer below 2^24. *)
Definition mant24 (p : positive) : positive :=
  Z.to_pos (Zpos p * 2 ^ (24 - Zpos (digits2_pos p))).

(** The float32 value of a non-zero integer below 2^24 in magnitude. *)
Definition norm24 (s : bool) (p : positive) : float :=
  S754_finite s (mant24 p) (Zpos (digits2_pos p) - 24).

(** The length of an edge along an axis, as [four_point_transform]
    computes and truncates it, is the difference [n] of the coordinates,
    whichever of the two squares next to [n * n] the library returns. *)
Definition axis_len_ok (n : Z) : bool :=
  forallb
    (fun c =>
       match trunc (F32.sqrt (F32.add c (S754_zero false))) with
       | Ok a => a =? n
       | Raise _ => false
       end)
    (square_candidates (F32.of_Z n)).

(** The corners of the axis-aligned rectangle from (x0, y0) to (x1, y1),
    clockwise from the top-left one. *)
Definition axis_rect (x0 y0 x1 y1 : Z) : rect :=
  mkRect (ipt x0 y0) (ipt x1 y0) (ipt x1 y1) (ipt x0 y1).

(** The largest side, minus one, for which the edge lengths are checked. *)
Definition MAX_SIDE : Z := 16384.

(** Positive infinity or NaN: the values a squared non-finite number and a
    sum of squares with one can take. *)
Definition inf_or_nan (x : float) : bool :=
  match x with
  | S754_infinity false | S754_nan => true
  | _ => false
  end.

(** Anything but negative infinity. *)
Definition not_neg_inf (x : float) : bool :=
  match x with
  | S754_infinity true => false
  | _ => true
  end.

(** Four corners, the third with a NaN abscissa. *)
Definition nan_corner : list point :=
  [ipt 0 0; ipt 10 0; (S754_nan, F32.of_Z 10); ipt 0 10].

(** For an image whose larger side is [side], the scale
    [min(downscale / side, 1.0)] of [auto_detect_corners] is not below 1. *)
Definition no_downscale_ok (side : Z) : bool :=
  match py_truediv default_downscale side with
  | Ok q => negb (SFltb (py_min q f64_one) f64_one)
  | Raise _ => false
  end.

(** ** The corners kept by the viewer (ui_main.py, [ImageViewerWidget]) *)

(** [scale_display]: the larger side of the display image over the larger
    side of the image. *)
Definition display_scale `{cv : OpenCV} (img : Image) : result float :=
  display <- get_display_image img DISPLAY_MAX_DIM ;;
  py_truediv (Z.max (rows display) (cols display))
             (Z.max (rows img) (cols img)).

(** [set_image] with corners to show: the value it stores in
    [self._corners], [corners * scale_display]. *)
Definition set_image_corners `{cv : OpenCV} (img : Image)
    (corners : list point) : result (list point) :=
  scale_display <- display_scale img ;;
  Ok (map (fun p => (F32.mul (px p) (F32.of_float scale_display),
                     F32.mul (py p) (F32.of_float scale_display)))
          corners).

(** [get_corners_in_original_scale] for an image and stored corners:
    [self._corners / scale_display]. *)
Definition get_corners_in_original_scale `{cv : OpenCV} (img : Image)
    (corners : list point) : result (list point) :=
  scale_display <- display_scale img ;;
  Ok (map (fun p => (F32.div (px p) (F32.of_float scale_display),
                     F32.div (py p) (F32.of_float scale_display)))
          corners).

(** The larger side of an image within the display bound, over itself, is
    1.0. *)
Definition unit_scale_ok (side : Z) : bool :=
  match py_truediv side side with
  | Ok q => float_eqb q f64_one
  | Raise _ => false
  end.

(** 1.0 as a float32. *)
Definition f32_one : float := S754_finite false 8388608 (-23).

(** Points with integer coordinates below 2^24 in magnitude. *)
Definition integer_point (p : point) : Prop :=
  exists x y, p = ipt x y /\ Z.abs x < 2 ^ 24 /\ Z.abs y < 2 ^ 24.

(** * Properties *)

(** ** The float order *)

Lemma SFltb_finite s1 m1 e1 s2 m2 e2 :
  SFltb (S754_finite s1 m1 e1) (S754_finite s2 m2 e2) = true <->
  lex_lt s1 m1 e1 s2 m2 e2.
Proof.
  unfold SFltb, SFcompare, lex_lt.
  change (Pos.compare_cont Eq m1 m2) with (Pos.compare m1 m2).
  destruct s1, s2; try (split; [easy|easy]);
    destruct (Z.compare_spec e1 e2); destruct (Pos.compare_spec m1 m2);
    simpl; split; intros; try discriminate; try reflexivity; try lia.
Qed.

Lemma SFleb_finite s1 m1 e1 s2 m2 e2 :
  SFleb (S754_finite s1 m1 e1) (S754_finite s2 m2 e2) = true <->
  ~ lex_lt s2 m2 e2 s1 m1 e1.
Proof.
  unfold SFleb, SFcompare, lex_lt.
  change (Pos.compare_cont Eq m1 m2) with (Pos.compare m1 m2).
  destruct s1, s2; try (split; [easy|easy]);
    destruct (Z.compare_spec e1 e2); destruct (Pos.compare_spec m1 m2);
    simpl; split; intros; try discriminate; try reflexivity; try lia.
Qed.

Lemma SFeqb_finite s1 m1 e1 s2 m2 e2 :
  SFeqb (S754_finite s1 m1 e1) (S754_finite s2 m2 e2) = true <->
  ~ lex_lt s1 m1 e1 s2 m2 e2 /\ ~ lex_lt s2 m2 e2 s1 m1 e1.
Proof.
  unfold SFeqb, SFcompare, lex_lt.
  change (Pos.compare_cont Eq m1 m2) with (Pos.compare m1 m2).
  destruct s1, s2; try (split; [easy|tauto]);
    destruct (Z.compare_spec e1 e2); destruct (Pos.compare_spec m1 m2);
    simpl; split; intros; try discriminate; try reflexivity; try lia.
Qed.

Lemma is_nan_true (x : float) : is_nan x = true -> x = S754_nan.
Proof. destruct x; try discriminate; reflexivity. Qed.

Lemma SFltb_nan_r (w : float) : SFltb w S754_nan = false.
Proof. destruct w; reflexivity. Qed.

Lemma SFltb_irrefl (x : float) : SFltb x x = false.
Proof.
  destruct x as [s|s| |s m e]; try (destruct s; reflexivity); try reflexivity.
  destruct (SFltb (S754_finite s m e) (S754_finite s m e)) eqn:E; [|reflexivity].
  apply SFltb_finite in E. unfold lex_lt in E. destruct s; lia.
Qed.

Lemma SFltb_trans (a b c : float) :
  SFltb a b = true -> SFltb b c = true -> SFltb a c = true.
Proof.
  destruct a as [sa|sa| |sa ma ea], b as [sb|sb| |sb mb eb],
           c as [sc|sc| |sc mc ec];
    try discriminate;
    try (destruct sa; try discriminate; destruct sb; try discriminate;
         destruct sc; try discriminate; reflexivity);
    try (destruct sa; destruct sb; try discriminate;
         destruct sc; try discriminate; reflexivity).
  rewrite !SFltb_finite. unfold lex_lt. destruct sa, sb, sc; lia.
Qed.

Lemma SFleb_negb_ltb (a b : float) :
  is_nan a = false -> is_nan b = false -> SFleb a b = negb (SFltb b a).
Proof.
  destruct a as [sa|sa| |sa ma ea], b as [sb|sb| |sb mb eb]; intros Ha Hb;
    try discriminate;
    try (destruct sa; reflexivity); try (destruct sb; reflexivity);
    try (destruct sa, sb; reflexivity).
  destruct (SFltb (S754_finite sb mb eb) (S754_finite sa ma ea)) eqn:E; simpl.
  - apply SFltb_finite in E.
    destruct (SFleb (S754_finite sa ma ea) (S754_finite sb mb eb)) eqn:E';
      [|reflexivity].
    apply SFleb_finite in E'. contradiction.
  - apply SFleb_finite. intro H. apply SFltb_finite in H. congruence.
Qed.

Lemma SFeqb_of_not_ltb (a b : float) :
  is_nan a = false -> is_nan b = false ->
  SFltb a b = false -> SFltb b a = false -> SFeqb a b = true.
Proof.
  destruct a as [sa|sa| |sa ma ea], b as [sb|sb| |sb mb eb]; intros Ha Hb;
    try discriminate;
    try (destruct sa; try discriminate; reflexivity);
    try (destruct sb; try discriminate; reflexivity);
    try (destruct sa, sb; try discriminate; reflexivity).
  intros H1 H2. apply SFeqb_finite.
  split; intro H; apply SFltb_finite in H; congruence.
Qed.

Lemma below_lt (x mp : float) :
  is_nan mp = false -> is_nan x = false -> SFleb mp x = false -> below x mp.
Proof.
  intros Hm Hx H w Hw.
  rewrite SFleb_negb_ltb in H by assumption.
  apply negb_false_iff in H.
  destruct (SFltb w x) eqn:E; [|reflexivity].
  rewrite (SFltb_trans _ _ _ E H) in Hw. discriminate.
Qed.

Lemma above_gt (x mp : float) :
  is_nan mp = false -> is_nan x = false -> SFleb x mp = false -> above x mp.
Proof.
  intros Hm Hx H w Hw.
  rewrite SFleb_negb_ltb in H by assumption.
  apply negb_false_iff in H.
  destruct (SFltb x w) eqn:E; [|reflexivity].
  rewrite (SFltb_trans _ _ _ H E) in Hw. discriminate.
Qed.

(** ** argmin and argmax return an extreme entry *)

Lemma argmin_loop_min (l : list float) :
  forall mp best i, is_nan mp = false ->
  exists v,
    ((argmin_loop mp best i l = best /\ v = mp) \/
     ((i <= argmin_loop mp best i l)%nat /\
      nth_error l (argmin_loop mp best i l - i) = Some v)) /\
    below v mp /\
    (forall w, In w l -> SFltb w v = false).
Proof.
  induction l as [|x l IH]; intros mp best i Hmp; simpl.
  - exists mp. split; [left; auto|]. split; [intros w Hw; exact Hw | intros w []].
  - destruct (SFleb mp x) eqn:Hle; simpl.
    + destruct (IH mp best (S i) Hmp) as (v & Hidx & Hb & Hall).
      exists v. split; [|split; [exact Hb|]].
      * destruct Hidx as [[-> ->]|[Hi Hn]]; [left; auto|right].
        split; [lia|].
        replace (argmin_loop mp best (S i) l - i)%nat
          with (S (argmin_loop mp best (S i) l - S i)) by lia.
        exact Hn.
      * intros w [<-|Hw]; [|auto].
        apply Hb.
        destruct (is_nan x) eqn:Hx.
        { apply is_nan_true in Hx. subst x. reflexivity. }
        rewrite SFleb_negb_ltb in Hle by assumption.
        now apply negb_true_iff in Hle.
    + destruct (is_nan x) eqn:Hx.
      * exists x. split; [right; split; [lia|]|].
        { now rewrite Nat.sub_diag. }
        apply is_nan_true in Hx. subst x.
        split; intros w _; apply SFltb_nan_r.
      * destruct (IH x i (S i) Hx) as (v & Hidx & Hb & Hall).
        pose proof (below_lt x mp Hmp Hx Hle) as Hxm.
        exists v. split; [|split].
        -- right. destruct Hidx as [[-> ->]|[Hi Hn]].
           ++ split; [lia|]. now rewrite Nat.sub_diag.
           ++ split; [lia|].
              replace (argmin_loop x i (S i) l - i)%nat
                with (S (argmin_loop x i (S i) l - S i)) by lia.
              exact Hn.
        -- intros w Hw. apply Hb, Hxm, Hw.
        -- intros w [<-|Hw]; [|auto]. apply Hb, SFltb_irrefl.
Qed.

Lemma argmax_loop_max (l : list float) :
  forall mp best i, is_nan mp = false ->
  exists v,
    ((argmax_loop mp best i l = best /\ v = mp) \/
     ((i <= argmax_loop mp best i l)%nat /\
      nth_error l (argmax_loop mp best i l - i) = Some v)) /\
    above v mp /\
    (forall w, In w l -> SFltb v w = false).
Proof.
  induction l as [|x l IH]; intros mp best i Hmp; simpl.
  - exists mp. split; [left; auto|]. split; [intros w Hw; exact Hw | intros w []].
  - destruct (SFleb x mp) eqn:Hle; simpl.
    + destruct (IH mp best (S i) Hmp) as (v & Hidx & Hb & Hall).
      exists v. split; [|split; [exact Hb|]].
      * destruct Hidx as [[-> ->]|[Hi Hn]]; [left; auto|right].
        split; [lia|].
        replace (argmax_loop mp best (S i) l - i)%nat
          with (S (argmax_loop mp best (S i) l - S i)) by lia.
        exact Hn.
      * intros w [<-|Hw]; [|auto].
        apply Hb.
        destruct (is_nan x) eqn:Hx.
        { apply is_nan_true in Hx. subst x. apply SFltb_nan_r. }
        rewrite SFleb_negb_ltb in Hle by assumption.
        now apply negb_true_iff in Hle.
    + destruct (is_nan x) eqn:Hx.
      * exists x. split; [right; split; [lia|]|].
        { now rewrite Nat.sub_diag. }
        apply is_nan_true in Hx. subst x.
        split; intros w _; reflexivity.
      * destruct (IH x i (S i) Hx) as (v & Hidx & Hb & Hall).
        pose proof (above_gt x mp Hmp Hx Hle) as Hxm.
        exists v. split; [|split].
        -- right. destruct Hidx as [[-> ->]|[Hi Hn]].
           ++ split; [lia|]. now rewrite Nat.sub_diag.
           ++ split; [lia|].
              replace (argmax_loop x i (S i) l - i)%nat
                with (S (argmax_loop x i (S i) l - S i)) by lia.
              exact Hn.
        -- intros w Hw. apply Hb, Hxm, Hw.
        -- intros w [<-|Hw]; [|auto]. apply Hb, SFltb_irrefl.
Qed.

Lemma argmin_min (l : list float) (k : nat) :
  argmin l = Ok k ->
  exists v, nth_error l k = Some v /\ forall w, In w l -> SFltb w v = false.
Proof.
  destruct l as [|x l]; [discriminate|]. simpl.
  destruct (is_nan x) eqn:Hx; intros [= <-].
  - exists x. split; [reflexivity|]. apply is_nan_true in Hx. subst.
    intros; apply SFltb_nan_r.
  - destruct (argmin_loop_min l x 0%nat 1%nat Hx) as (v & Hidx & Hb & Hall).
    exists v. split.
    + destruct Hidx as [[-> ->]|[Hi Hn]]; [reflexivity|].
      replace (argmin_loop x 0 1 l) with (S (argmin_loop x 0 1 l - 1)) by lia.
      exact Hn.
    + intros w [<-|Hw]; [|auto]. apply Hb, SFltb_irrefl.
Qed.

Lemma argmax_max (l : list float) (k : nat) :
  argmax l = Ok k ->
  exists v, nth_error l k = Some v /\ forall w, In w l -> SFltb v w = false.
Proof.
  destruct l as [|x l]; [discriminate|]. simpl.
  destruct (is_nan x) eqn:Hx; intros [= <-].
  - exists x. split; [reflexivity|]. apply is_nan_true in Hx. subst.
    intros; reflexivity.
  - destruct (argmax_loop_max l x 0%nat 1%nat Hx) as (v & Hidx & Hb & Hall).
    exists v. split.
    + destruct Hidx as [[-> ->]|[Hi Hn]]; [reflexivity|].
      replace (argmax_loop x 0 1 l) with (S (argmax_loop x 0 1 l - 1)) by lia.
      exact Hn.
    + intros w [<-|Hw]; [|auto]. apply Hb, SFltb_irrefl.
Qed.

Lemma argmin_nonempty (x : float) (l : list float) :
  exists k, argmin (x :: l) = Ok k.
Proof. simpl. destruct (is_nan x); eauto. Qed.

Lemma argmax_nonempty (x : float) (l : list float) :
  exists k, argmax (x :: l) = Ok k.
Proof. simpl. destruct (is_nan x); eauto. Qed.

(** ** order_points *)

Lemma argmin_row (key : point -> float) (pts : list point) (i : nat) :
  argmin (map key pts) = Ok i ->
  exists p, getitem pts i = Ok p /\ min_of key pts p.
Proof.
  intros H. destruct (argmin_min _ _ H) as (v & Hn & Hall).
  rewrite nth_error_map in Hn. unfold getitem.
  destruct (nth_error pts i) as [p|] eqn:Hp; [|discriminate].
  injection Hn as <-. exists p. split; [reflexivity|]. split.
  - eapply nth_error_In; eauto.
  - intros q Hq. apply Hall, in_map, Hq.
Qed.

Lemma argmax_row (key : point -> float) (pts : list point) (i : nat) :
  argmax (map key pts) = Ok i ->
  exists p, getitem pts i = Ok p /\ max_of key pts p.
Proof.
  intros H. destruct (argmax_max _ _ H) as (v & Hn & Hall).
  rewrite nth_error_map in Hn. unfold getitem.
  destruct (nth_error pts i) as [p|] eqn:Hp; [|discriminate].
  injection Hn as <-. exists p. split; [reflexivity|]. split.
  - eapply nth_error_In; eauto.
  - intros q Hq. apply Hall, in_map, Hq.
Qed.

(** On a non-empty array the function returns, and each output row is an
    extreme row of the input. *)
Lemma order_points_nonempty (p : point) (pts : list point) :
  exists r, order_points (p :: pts) = Ok r /\
    min_of row_sum (p :: pts) (tl r) /\ min_of row_diff (p :: pts) (tr r) /\
    max_of row_sum (p :: pts) (br r) /\ max_of row_diff (p :: pts) (bl r).
Proof.
  unfold order_points.
  destruct (argmin_nonempty (row_sum p) (map row_sum pts)) as [i0 H0].
  destruct (argmax_nonempty (row_sum p) (map row_sum pts)) as [i2 H2].
  destruct (argmin_nonempty (row_diff p) (map row_diff pts)) as [i1 H1].
  destruct (argmax_nonempty (row_diff p) (map row_diff pts)) as [i3 H3].
  change (row_sum p :: map row_sum pts) with (map row_sum (p :: pts)) in *.
  change (row_diff p :: map row_diff pts) with (map row_diff (p :: pts)) in *.
  destruct (argmin_row _ _ _ H0) as (r0 & G0 & M0).
  destruct (argmax_row _ _ _ H2) as (r2 & G2 & M2).
  destruct (argmin_row _ _ _ H1) as (r1 & G1 & M1).
  destruct (argmax_row _ _ _ H3) as (r3 & G3 & M3).
  exists (mkRect r0 r1 r2 r3).
  rewrite H0, H1, H2, H3. cbn [bind]. rewrite G0, G1, G2, G3. cbn [bind].
  simpl. auto.
Qed.

Lemma order_points_extreme_rows (pts : list point) (r : rect) :
  order_points pts = Ok r ->
  min_of row_sum pts (tl r) /\ min_of row_diff pts (tr r) /\
  max_of row_sum pts (br r) /\ max_of row_diff pts (bl r).
Proof.
  destruct pts as [|p pts]; [discriminate|].
  destruct (order_points_nonempty p pts) as (r' & E & H).
  rewrite E. intros [= <-]. exact H.
Qed.

Lemma order_points_empty : order_points [] = Raise ValueError.
Proof. reflexivity. Qed.

(** C1, as amended.  For every array of four points [order_points] returns,
    and with [sum = x + y] and [diff = y - x] (what [np.diff] computes along
    a row), both in float32: the top-left row is an input row of minimum
    sum, the bottom-right row one of maximum sum, the top-right row one of
    minimum [diff] and the bottom-left row one of maximum [diff]. *)
Theorem order_points_extremes (p0 p1 p2 p3 : point) :
  exists r, order_points [p0; p1; p2; p3] = Ok r /\
    min_of row_sum [p0; p1; p2; p3] (tl r) /\
    max_of row_sum [p0; p1; p2; p3] (br r) /\
    min_of row_diff [p0; p1; p2; p3] (tr r) /\
    max_of row_diff [p0; p1; p2; p3] (bl r).
Proof.
  destruct (order_points_nonempty p0 [p1; p2; p3]) as (r & E & A & B & C & D).
  exists r. auto.
Qed.

(** C1, as stated, fails on the square (0,0), (10,0), (10,10), (0,10): with
    [diff = x - y] the returned top-right corner (10,0) has the largest
    difference, not the smallest, and the returned bottom-left corner
    (0,10) the smallest, not the largest. *)
Lemma order_points_x_minus_y_counterexample :
  exists r, order_points square10 = Ok r /\
    tr r = ipt 10 0 /\ bl r = ipt 0 10 /\
    ~ min_of x_minus_y square10 (tr r) /\
    ~ max_of x_minus_y square10 (bl r).
Proof.
  eexists. split; [vm_compute; reflexivity|]. cbn [tr bl].
  split; [reflexivity|]. split; [reflexivity|]. split.
  - intros [_ H]. specialize (H (ipt 0 10)).
    assert (In (ipt 0 10) square10) as Hin by (unfold square10; simpl; auto).
    specialize (H Hin). vm_compute in H. discriminate.
  - intros [_ H]. specialize (H (ipt 10 0)).
    assert (In (ipt 10 0) square10) as Hin by (unfold square10; simpl; auto).
    specialize (H Hin). vm_compute in H. discriminate.
Qed.

(** C6, as amended.  [order_points] raises on the empty array only (numpy's
    [ValueError] from [argmin]); on every non-empty array of points,
    whatever their number and whatever their coordinates (NaN and
    infinities included), it returns four rows. *)
Theorem order_points_raises_only_on_empty (pts : list point) :
  match pts with
  | [] => order_points pts = Raise ValueError
  | _ :: _ => exists r, order_points pts = Ok r
  end.
Proof.
  destruct pts as [|p pts]; [reflexivity|].
  destruct (order_points_nonempty p pts) as (r & E & _). eauto.
Qed.

(** C6, as stated, fails: three points and five points are both accepted
    and ordered without any error. *)
Lemma order_points_wrong_count_counterexample :
  length three_points <> 4%nat /\ length five_points <> 4%nat /\
  ~ raises (order_points three_points) /\
  ~ raises (order_points five_points) /\
  order_points five_points
  = Ok (mkRect (ipt 0 0) (ipt 10 0) (ipt 10 10) (ipt 0 10)).
Proof.
  split; [discriminate|]. split; [discriminate|].
  split; [|split]; try (intros [e H]; vm_compute in H; discriminate).
  vm_compute. reflexivity.
Qed.

(** ** Inputs with unique extremes *)

Lemma float_eqb_eq (x y : float) : float_eqb x y = true -> x = y.
Proof.
  destruct x as [s|s| |s m e], y as [s'|s'| |s' m' e']; simpl;
    try discriminate; try reflexivity.
  - intros H. apply Bool.eqb_prop in H. now subst.
  - intros H. apply Bool.eqb_prop in H. now subst.
  - intros H. apply andb_true_iff in H as [H He].
    apply andb_true_iff in H as [Hs Hm].
    apply Bool.eqb_prop in Hs. apply Pos.eqb_eq in Hm. apply Z.eqb_eq in He.
    now subst.
Qed.

Lemma point_eqb_eq (p q : point) : point_eqb p q = true -> p = q.
Proof.
  destruct p as [x y], q as [x' y']. unfold point_eqb, px, py. simpl.
  intros H. apply andb_true_iff in H as [Hx Hy].
  apply float_eqb_eq in Hx, Hy. now subst.
Qed.

Lemma SFltb_leb_trans (a b c : float) :
  SFltb a b = true -> SFleb b c = true -> SFltb a c = true.
Proof.
  destruct a as [sa|sa| |sa ma ea], b as [sb|sb| |sb mb eb],
           c as [sc|sc| |sc mc ec];
    try discriminate;
    try (destruct sa; try discriminate; destruct sb; try discriminate;
         destruct sc; try discriminate; reflexivity);
    try (destruct sa; destruct sb; try discriminate;
         destruct sc; try discriminate; reflexivity).
  rewrite !SFltb_finite, SFleb_finite. unfold lex_lt. destruct sa, sb, sc; lia.
Qed.

Lemma SFleb_ltb_trans (a b c : float) :
  SFleb a b = true -> SFltb b c = true -> SFltb a c = true.
Proof.
  destruct a as [sa|sa| |sa ma ea], b as [sb|sb| |sb mb eb],
           c as [sc|sc| |sc mc ec];
    try discriminate;
    try (destruct sa; try discriminate; destruct sb; try discriminate;
         destruct sc; try discriminate; reflexivity);
    try (destruct sa; destruct sb; try discriminate;
         destruct sc; try discriminate; reflexivity).
  rewrite !SFltb_finite, SFleb_finite. unfold lex_lt. destruct sa, sb, sc; lia.
Qed.

Lemma is_min_b_of (key : point -> float) (pts : list point) (a : point) :
  min_of key pts a -> is_min_b key pts a = true.
Proof.
  intros [_ H]. apply forallb_forall. intros c Hc.
  now rewrite (H c Hc).
Qed.

Lemma is_max_b_of (key : point -> float) (pts : list point) (a : point) :
  max_of key pts a -> is_max_b key pts a = true.
Proof.
  intros [_ H]. apply forallb_forall. intros c Hc.
  now rewrite (H c Hc).
Qed.

Lemma unique_extremes_spec (key : point -> float) (pts : list point) :
  unique_extremes key pts = true ->
  (forall a, In a pts -> is_nan (key a) = false) /\
  (forall a b, min_of key pts a -> min_of key pts b -> a = b) /\
  (forall a b, max_of key pts a -> max_of key pts b -> a = b).
Proof.
  unfold unique_extremes. intros H. rewrite forallb_forall in H.
  split; [|split].
  - intros a Ha. specialize (H a Ha). apply andb_true_iff in H as [Hn _].
    now apply negb_true_iff in Hn.
  - intros a b Ha Hb. specialize (H a (proj1 Ha)).
    apply andb_true_iff in H as [_ H]. rewrite forallb_forall in H.
    specialize (H b (proj1 Hb)). apply andb_true_iff in H as [H _].
    rewrite (is_min_b_of _ _ _ Ha), (is_min_b_of _ _ _ Hb) in H.
    now apply point_eqb_eq.
  - intros a b Ha Hb. specialize (H a (proj1 Ha)).
    apply andb_true_iff in H as [_ H]. rewrite forallb_forall in H.
    specialize (H b (proj1 Hb)). apply andb_true_iff in H as [_ H].
    rewrite (is_max_b_of _ _ _ Ha), (is_max_b_of _ _ _ Hb) in H.
    now apply point_eqb_eq.
Qed.

(** A row that is minimal in a part of the array holding a minimal row of
    the whole array is minimal in the whole array. *)
Lemma min_of_part (key : point -> float) (pts l : list point) (m m' : point) :
  (forall a, In a pts -> is_nan (key a) = false) ->
  incl l pts -> min_of key pts m -> In m l -> min_of key l m' ->
  min_of key pts m'.
Proof.
  intros Hnan Hsub [Im Hm] Hml [Im' Hm']. split; [now apply Hsub|].
  intros c Hc. destruct (SFltb (key c) (key m')) eqn:E; [|reflexivity].
  assert (SFleb (key m') (key m) = true) as Hle.
  { rewrite SFleb_negb_ltb by (apply Hnan; auto). now rewrite (Hm' m Hml). }
  pose proof (Hm c Hc) as Hc'.
  rewrite (SFltb_leb_trans _ _ _ E Hle) in Hc'. discriminate.
Qed.

Lemma max_of_part (key : point -> float) (pts l : list point) (m m' : point) :
  (forall a, In a pts -> is_nan (key a) = false) ->
  incl l pts -> max_of key pts m -> In m l -> max_of key l m' ->
  max_of key pts m'.
Proof.
  intros Hnan Hsub [Im Hm] Hml [Im' Hm']. split; [now apply Hsub|].
  intros c Hc. destruct (SFltb (key m') (key c)) eqn:E; [|reflexivity].
  assert (SFleb (key m) (key m') = true) as Hle.
  { rewrite SFleb_negb_ltb by (apply Hnan; auto). now rewrite (Hm' m Hml). }
  pose proof (Hm c Hc) as Hc'.
  rewrite (SFleb_ltb_trans _ _ _ Hle E) in Hc'. discriminate.
Qed.

(** With unique extremes the output is fixed by the set of points: any
    non-empty array drawn from the input that still holds the four output
    rows is ordered to the same output. *)
Lemma order_points_determined (pts l : list point) (r : rect) :
  unambiguous pts = true -> order_points pts = Ok r ->
  l <> [] -> incl l pts -> incl (rect_rows r) l ->
  order_points l = Ok r.
Proof.
  intros U E Hl Hsub Hrows.
  apply andb_true_iff in U as [Us Ud].
  destruct (unique_extremes_spec _ _ Us) as (Ns & Smin & Smax).
  destruct (unique_extremes_spec _ _ Ud) as (Nd & Dmin & Dmax).
  destruct (order_points_extreme_rows pts r E) as (M0 & M1 & M2 & M3).
  destruct l as [|p l']; [contradiction|].
  destruct (order_points_nonempty p l') as (r' & E' & N0 & N1 & N2 & N3).
  rewrite E'. f_equal.
  assert (In (tl r) (p :: l')) as K0 by (apply Hrows; simpl; auto).
  assert (In (tr r) (p :: l')) as K1 by (apply Hrows; simpl; auto).
  assert (In (br r) (p :: l')) as K2 by (apply Hrows; simpl; auto).
  assert (In (bl r) (p :: l')) as K3 by (apply Hrows; simpl; auto).
  assert (tl r' = tl r) as T0
    by (apply Smin; [eapply min_of_part; eauto|exact M0]).
  assert (tr r' = tr r) as T1
    by (apply Dmin; [eapply min_of_part; eauto|exact M1]).
  assert (br r' = br r) as T2
    by (apply Smax; [eapply max_of_part; eauto|exact M2]).
  assert (bl r' = bl r) as T3
    by (apply Dmax; [eapply max_of_part; eauto|exact M3]).
  destruct r, r'; simpl in *; congruence.
Qed.

Lemma order_points_rows_incl (pts : list point) (r : rect) :
  order_points pts = Ok r -> incl (rect_rows r) pts.
Proof.
  intros E.
  destruct (order_points_extreme_rows pts r E)
    as ([I0 _] & [I1 _] & [I2 _] & [I3 _]).
  intros q [<-|[<-|[<-|[<-|[]]]]]; assumption.
Qed.

Lemma order_points_permutation (pts pts' : list point) (r : rect) :
  unambiguous pts = true -> order_points pts = Ok r ->
  Permutation pts pts' -> order_points pts' = Ok r.
Proof.
  intros U E P.
  apply (order_points_determined pts pts' r U E).
  - intros ->. apply Permutation_sym, Permutation_nil in P. subst. discriminate.
  - intros q Hq. eapply Permutation_in; [apply Permutation_sym; exact P|exact Hq].
  - intros q Hq. eapply Permutation_in; [exact P|].
    now apply (order_points_rows_incl pts r E).
Qed.

(** C8, as amended.  On an input whose extremes are unique (no float32 sum
    and no difference is NaN, and the smallest sum, the largest sum, the
    smallest difference and the largest difference are each reached by a
    single point), [order_points] is idempotent and every permutation of
    the input is ordered to the identical output. *)
Theorem order_points_idempotent_order_free (pts : list point) (r : rect) :
  unambiguous pts = true -> order_points pts = Ok r ->
  order_points (rect_rows r) = Ok r /\
  forall pts', Permutation pts pts' -> order_points pts' = Ok r.
Proof.
  intros U E. split.
  - apply (order_points_determined pts (rect_rows r) r U E).
    + discriminate.
    + now apply order_points_rows_incl.
    + apply incl_refl.
  - intros pts' P. now apply (order_points_permutation pts pts' r).
Qed.

Lemma order_points_idempotent_order_free_witness :
  unambiguous skewed_quad = true /\
  order_points skewed_quad
  = Ok (mkRect (ipt 100 80) (ipt 1900 120) (ipt 1850 1400) (ipt 150 1380)) /\
  (order_points
     (rect_rows (mkRect (ipt 100 80) (ipt 1900 120) (ipt 1850 1400)
                        (ipt 150 1380)))
   = Ok (mkRect (ipt 100 80) (ipt 1900 120) (ipt 1850 1400) (ipt 150 1380)) /\
   forall pts', Permutation skewed_quad pts' ->
     order_points pts'
     = Ok (mkRect (ipt 100 80) (ipt 1900 120) (ipt 1850 1400) (ipt 150 1380))).
Proof.
  split; [vm_compute; reflexivity|].
  split; [vm_compute; reflexivity|].
  apply (order_points_idempotent_order_free skewed_quad);
    vm_compute; reflexivity.
Defined.

(** C8, as stated, fails on a strictly convex quadrilateral with an edge at
    45 degrees, (0,0), (3,1), (2,2), (0,3): supplied as (0,0), (2,2), (3,1),
    (0,3) it is ordered to (0,0), (3,1), (2,2), (0,3); ordering that output
    again puts (3,1) in the bottom-right slot too, so the function is not
    idempotent there and two permutations of the same corners give
    different outputs. *)
Lemma order_points_idempotence_counterexample :
  convex_quad (0, 0) (3, 1) (2, 2) (0, 3) = true /\
  Permutation kite (rect_rows kite_ordered) /\
  order_points kite = Ok kite_ordered /\
  order_points (rect_rows kite_ordered)
  = Ok (mkRect (ipt 0 0) (ipt 3 1) (ipt 3 1) (ipt 0 3)) /\
  order_points (rect_rows kite_ordered) <> Ok kite_ordered.
Proof.
  split; [reflexivity|]. split.
  - unfold kite, kite_ordered, rect_rows. cbn [tl tr br bl].
    apply perm_skip, perm_swap.
  - split; [vm_compute; reflexivity|].
    split; [vm_compute; reflexivity|].
    vm_compute. discriminate.
Qed.

(** ** The output rows as a selection of input rows *)

Lemma point_eq_dec (p q : point) : {p = q} + {p <> q}.
Proof.
  decide equality; decide equality;
    (apply Z.eq_dec || apply Pos.eq_dec || apply Bool.bool_dec).
Defined.

Lemma getitem_nth_error (pts : list point) (i : nat) (p : point) :
  getitem pts i = Ok p -> nth_error pts i = Some p.
Proof.
  unfold getitem. destruct (nth_error pts i); [intros [= ->]|]; easy.
Qed.

(** The output rows are the input rows at the four selected indices. *)
Lemma order_points_at_indices (pts : list point) (i0 i1 i2 i3 : nat) :
  extreme_indices pts = Ok (i0, i1, i2, i3) ->
  exists r, order_points pts = Ok r /\
    nth_error pts i0 = Some (tl r) /\ nth_error pts i1 = Some (tr r) /\
    nth_error pts i2 = Some (br r) /\ nth_error pts i3 = Some (bl r).
Proof.
  unfold extreme_indices, order_points.
  destruct (argmin (map row_sum pts)) as [j0|] eqn:H0; [|discriminate].
  destruct (argmax (map row_sum pts)) as [j2|] eqn:H2; [|discriminate].
  destruct (argmin (map row_diff pts)) as [j1|] eqn:H1; [|discriminate].
  destruct (argmax (map row_diff pts)) as [j3|] eqn:H3; [|discriminate].
  cbn [bind]. intros [= -> -> -> ->].
  destruct (argmin_row _ _ _ H0) as (r0 & G0 & _).
  destruct (argmax_row _ _ _ H2) as (r2 & G2 & _).
  destruct (argmin_row _ _ _ H1) as (r1 & G1 & _).
  destruct (argmax_row _ _ _ H3) as (r3 & G3 & _).
  rewrite G0, G2, G1, G3. cbn [bind].
  exists (mkRect r0 r1 r2 r3). cbn [tl tr br bl].
  repeat split; now apply getitem_nth_error.
Qed.

Lemma order_points_slot (pts : list point) (r : rect) (e : extreme) :
  order_points pts = Ok r -> attains e pts (slot e r).
Proof.
  intros E. destruct (order_points_extreme_rows pts r E) as (M0 & M1 & M2 & M3).
  destruct e; assumption.
Qed.

Lemma shared_slot_repeats (r : rect) (e1 e2 : extreme) :
  e1 <> e2 -> slot e1 r = slot e2 r -> ~ NoDup (rect_rows r).
Proof.
  intros Hne Heq Hnd. unfold rect_rows in Hnd.
  inversion Hnd as [|a la Ha Hnd1]; subst.
  inversion Hnd1 as [|b lb Hb Hnd2]; subst.
  inversion Hnd2 as [|c lc Hc Hnd3]; subst.
  simpl in Ha, Hb, Hc.
  destruct e1, e2; cbn [slot] in Heq; try (now apply Hne);
    rewrite ?Heq in *; intuition auto.
Qed.

(** Four rows with a repetition, all taken from four distinct rows, miss
    one of them. *)
Lemma repeated_rows_miss (pts rows : list point) :
  length pts = length rows -> NoDup pts -> ~ NoDup rows ->
  exists q, In q pts /\ ~ In q rows.
Proof.
  intros Hlen Hnd Hrows.
  destruct (Forall_dec (fun q => In q rows)
              (fun q => in_dec point_eq_dec q rows) pts) as [Hall|Hnot].
  - exfalso. apply Hrows.
    apply NoDup_incl_NoDup with (l := pts); [exact Hnd|lia|].
    intros q Hq. rewrite Forall_forall in Hall. now apply Hall.
  - apply neg_Forall_Exists_neg in Hnot;
      [|intros q; apply in_dec, point_eq_dec].
    apply Exists_exists in Hnot. exact Hnot.
Qed.

(** C10, as amended.  For four input points [order_points] returns, every
    row it returns is an input row, and the row in each slot attains the
    extreme of the slot.  When one point [p] is the only one that attains
    the extreme [e1] and the only one that attains another extreme [e2],
    [p] fills the two output slots of [e1] and [e2], so the output repeats
    a row; if moreover the four input points are pairwise distinct, some
    input point other than [p] is absent from the output, which is then
    not a permutation of the input. *)
Theorem order_points_shared_extreme (pts : list point) :
  length pts = 4%nat ->
  exists r, order_points pts = Ok r /\
    incl (rect_rows r) pts /\
    (forall e, attains e pts (slot e r)) /\
    forall e1 e2 p,
      e1 <> e2 -> only_attains e1 pts p -> only_attains e2 pts p ->
      slot e1 r = p /\ slot e2 r = p /\
      ~ NoDup (rect_rows r) /\
      (NoDup pts ->
       (exists q, In q pts /\ q <> p /\ ~ In q (rect_rows r)) /\
       ~ Permutation pts (rect_rows r)).
Proof.
  intros Hlen.
  destruct pts as [|p0 pts0]; [discriminate|].
  destruct (order_points_nonempty p0 pts0) as (r & E & _).
  exists r. split; [exact E|].
  split; [now apply order_points_rows_incl|].
  split; [intros e; now apply order_points_slot|].
  intros e1 e2 p Hne [_ U1] [_ U2].
  pose proof (U1 _ (order_points_slot _ r e1 E)) as S1.
  pose proof (U2 _ (order_points_slot _ r e2 E)) as S2.
  split; [exact S1|]. split; [exact S2|].
  assert (~ NoDup (rect_rows r)) as Hrows
    by (apply (shared_slot_repeats r e1 e2 Hne); congruence).
  split; [exact Hrows|]. intros Hnd. split.
  - destruct (repeated_rows_miss (p0 :: pts0) (rect_rows r))
      as (q & Hq & Hout); [rewrite Hlen; reflexivity|exact Hnd|exact Hrows|].
    exists q. split; [exact Hq|]. split; [|exact Hout].
    intros ->. apply Hout. rewrite <- S1.
    unfold rect_rows. destruct e1; cbn [slot]; simpl; auto.
  - intros P. apply Hrows. eapply Permutation_NoDup; eauto.
Qed.

Lemma order_points_shared_extreme_witness :
  only_attains MinSum leaning_quad (ipt 0 0) /\
  only_attains MinDiff leaning_quad (ipt 0 0) /\
  NoDup leaning_quad /\
  exists r, order_points leaning_quad = Ok r /\
    incl (rect_rows r) leaning_quad /\
    slot MinSum r = ipt 0 0 /\ slot MinDiff r = ipt 0 0 /\
    ~ NoDup (rect_rows r) /\
    (exists q, In q leaning_quad /\ q <> ipt 0 0 /\ ~ In q (rect_rows r)) /\
    ~ Permutation leaning_quad (rect_rows r).
Proof.
  assert (forall e, e = MinSum \/ e = MinDiff ->
            only_attains e leaning_quad (ipt 0 0)) as H.
  { intros e He. split.
    - destruct He as [-> | ->]; (split; [left; reflexivity|]);
        intros q [<-|[<-|[<-|[<-|[]]]]]; vm_compute; reflexivity.
    - intros q Hq.
      assert (In q leaning_quad) as Hin
        by (destruct He as [-> | ->]; exact (proj1 Hq)).
      destruct Hin as [<-|[<-|[<-|[<-|[]]]]]; try reflexivity;
        destruct He as [-> | ->]; destruct Hq as [_ Hq];
        specialize (Hq (ipt 0 0) (or_introl eq_refl));
        vm_compute in Hq; discriminate. }
  assert (NoDup leaning_quad) as Hnd.
  { unfold leaning_quad.
    repeat constructor; simpl;
      intros K; repeat (destruct K as [K|K]; [vm_compute in K; discriminate|]);
      exact K. }
  split; [apply H; now left|]. split; [apply H; now right|].
  split; [exact Hnd|].
  destruct (order_points_shared_extreme leaning_quad eq_refl)
    as (r & E & Hincl & _ & Hshared).
  destruct (Hshared MinSum MinDiff (ipt 0 0)) as (S1 & S2 & Hrows & Hmiss);
    [discriminate|apply H; now left|apply H; now right|].
  destruct (Hmiss Hnd) as [Hq Hperm].
  exists r. repeat split; assumption.
Defined.

(** C10, as stated, fails: a point that attains two extremes need not fill
    two slots, and when it does no input point need be absent.  In
    (0,1), (1,0), (5,5), (0,6) the point (1,0) has the smallest sum and the
    smallest difference, but (0,1), which comes first, has the smallest sum
    too and is the one returned as top-left: the output is the input, each
    point once.  In (0,0), (0,0), (5,6), (0,7) the point (0,0) is the only
    one with the smallest sum and the only one with the smallest
    difference, and it fills two slots, and yet the output is again the
    input, with no point absent. *)
Lemma order_points_shared_extreme_counterexample :
  (attains MinSum tied_quad (ipt 1 0) /\
   attains MinDiff tied_quad (ipt 1 0) /\
   exists r, order_points tied_quad = Ok r /\
     rect_rows r = tied_quad /\ NoDup (rect_rows r) /\
     slot MinSum r <> ipt 1 0 /\
     forall q, In q tied_quad -> In q (rect_rows r)) /\
  (only_attains MinSum doubled_quad (ipt 0 0) /\
   only_attains MinDiff doubled_quad (ipt 0 0) /\
   exists r, order_points doubled_quad = Ok r /\
     slot MinSum r = ipt 0 0 /\ slot MinDiff r = ipt 0 0 /\
     rect_rows r = doubled_quad /\
     Permutation doubled_quad (rect_rows r) /\
     forall q, In q doubled_quad -> In q (rect_rows r)).
Proof.
  split.
  - split.
    { split; [right; left; reflexivity|].
      intros q [<-|[<-|[<-|[<-|[]]]]]; vm_compute; reflexivity. }
    split.
    { split; [right; left; reflexivity|].
      intros q [<-|[<-|[<-|[<-|[]]]]]; vm_compute; reflexivity. }
    exists (mkRect (ipt 0 1) (ipt 1 0) (ipt 5 5) (ipt 0 6)).
    split; [vm_compute; reflexivity|]. split; [reflexivity|].
    split.
    { unfold rect_rows. cbn [tl tr br bl].
      repeat constructor; simpl;
        intros K; repeat (destruct K as [K|K]; [vm_compute in K; discriminate|]);
        exact K. }
    split; [vm_compute; discriminate|].
    intros q Hq. exact Hq.
  - assert (forall e, e = MinSum \/ e = MinDiff ->
              only_attains e doubled_quad (ipt 0 0)) as H.
    { intros e He. split.
      - destruct He as [-> | ->]; (split; [left; reflexivity|]);
          intros q [<-|[<-|[<-|[<-|[]]]]]; vm_compute; reflexivity.
      - intros q Hq.
        assert (In q doubled_quad) as Hin
          by (destruct He as [-> | ->]; exact (proj1 Hq)).
        destruct Hin as [<-|[<-|[<-|[<-|[]]]]]; try reflexivity;
          destruct He as [-> | ->]; destruct Hq as [_ Hq];
          specialize (Hq (ipt 0 0) (or_introl eq_refl));
          vm_compute in Hq; discriminate. }
    split; [apply H; now left|]. split; [apply H; now right|].
    exists (mkRect (ipt 0 0) (ipt 0 0) (ipt 5 6) (ipt 0 7)).
    split; [vm_compute; reflexivity|].
    split; [reflexivity|]. split; [reflexivity|]. split; [reflexivity|].
    split; [apply Permutation_refl|]. intros q Hq. exact Hq.
Qed.

(** ** Integers stored as float32 and read back *)

Lemma digits2_pos_bound (p : positive) :
  forall n, 0 <= n -> Zpos p < 2 ^ n -> Zpos (digits2_pos p) <= n.
Proof.
  induction p as [p IH|p IH|]; intros n Hn H; simpl.
  - assert (n <> 0) by (intros ->; simpl in H; lia).
    replace n with (Z.succ (n - 1)) in H by lia.
    rewrite Z.pow_succ_r in H by lia.
    specialize (IH (n - 1)). lia.
  - assert (n <> 0) by (intros ->; simpl in H; lia).
    replace n with (Z.succ (n - 1)) in H by lia.
    rewrite Z.pow_succ_r in H by lia.
    specialize (IH (n - 1)). lia.
  - assert (n <> 0) by (intros ->; simpl in H; lia). lia.
Qed.

Lemma iter_xO_value (p k : positive) :
  Zpos (Pos.iter xO p k) = Zpos p * 2 ^ Zpos k.
Proof.
  revert p. induction k as [|k IH] using Pos.peano_ind; intros p.
  - simpl. lia.
  - rewrite Pos.iter_succ. rewrite Pos2Z.inj_succ, Z.pow_succ_r by lia.
    rewrite Pos2Z.inj_xO, IH. lia.
Qed.

Lemma iter_xO_digits (p k : positive) :
  Zpos (digits2_pos (Pos.iter xO p k)) = Zpos (digits2_pos p) + Zpos k.
Proof.
  induction k as [|k IH] using Pos.peano_ind.
  - simpl. lia.
  - rewrite Pos.iter_succ. simpl digits2_pos. rewrite Pos2Z.inj_succ, IH. lia.
Qed.

(** A 24-bit mantissa with an exponent in range is stored as it is. *)
Lemma binary_round_aux_exact32 (m : positive) (e : Z) :
  Zpos (digits2_pos m) = 24 -> -149 <= e <= 104 ->
  binary_round_aux 24 128 false (Zpos m) e loc_Exact = S754_finite false m e.
Proof.
  intros Hd He.
  unfold binary_round_aux, shr_fexp.
  cbn [Zdigits2 shr_record_of_loc]. rewrite Hd.
  assert (fexp 24 128 (24 + e) - e = 0) as ->
    by (unfold fexp, emin; lia).
  cbn [shr shr_m loc_of_shr_record round_nearest_even Zdigits2 shr_record_of_loc].
  rewrite Hd.
  assert (fexp 24 128 (24 + e) - e = 0) as ->
    by (unfold fexp, emin; lia).
  cbn [shr shr_m].
  assert ((e <=? 128 - 24) = true) as -> by (apply Z.leb_le; lia).
  reflexivity.
Qed.

(** Integers from -1 up to 2^24 - 1 survive the trip through a float32
    array entry. *)
Lemma of_Z_trunc (n : Z) :
  -1 <= n < 2 ^ 24 -> trunc (F32.of_Z n) = Ok n.
Proof.
  intros Hn. destruct n as [|p|p].
  - reflexivity.
  - unfold F32.of_Z, F32.prec, F32.emax, binary_normalize, binary_round.
    pose proof (digits2_pos_bound p 24 ltac:(lia) ltac:(lia)) as Hd.
    assert (fexp 24 128 (Zpos (digits2_pos p) + 0) = Zpos (digits2_pos p) - 24)
      as -> by (unfold fexp, emin; lia).
    unfold shl_align. rewrite Z.sub_0_r.
    destruct (Zpos (digits2_pos p) - 24) as [|k|k] eqn:Hk; [| lia |].
    + rewrite binary_round_aux_exact32 by lia. reflexivity.
    + rewrite binary_round_aux_exact32.
      * cbn [trunc cond_Zopp]. rewrite iter_xO_value.
        rewrite Z.div_mul by (apply Z.pow_nonzero; lia). reflexivity.
      * rewrite iter_xO_digits. lia.
      * lia.
  - assert (p = 1%positive) as -> by lia. vm_compute. reflexivity.
Qed.

(** ** Edge lengths are not negative *)

Lemma binary_round_aux_sign (prec emax : Z) (sx : bool) (mx ex : Z)
    (lx : location) :
  match binary_round_aux prec emax sx mx ex lx with
  | S754_zero s | S754_infinity s | S754_finite s _ _ => s = sx
  | S754_nan => True
  end.
Proof.
  unfold binary_round_aux.
  destruct (shr_fexp prec emax mx ex lx) as [mrs' e'].
  destruct (shr_fexp prec emax _ e' loc_Exact) as [mrs'' e''].
  destruct (shr_m mrs''); [reflexivity| |exact I].
  destruct (Z.leb e'' (emax - prec)); reflexivity.
Qed.

Lemma trunc_magnitude_nonneg (m : positive) (e : Z) :
  0 <= match e with
       | Z0 => Zpos m
       | Zpos p => Zpos m * 2 ^ Zpos p
       | Zneg p => Zpos m / 2 ^ Zpos p
       end.
Proof.
  destruct e as [|p|p].
  - lia.
  - apply Z.mul_nonneg_nonneg; [lia|]. apply Z.pow_nonneg. lia.
  - apply Z.div_pos; [lia|]. apply Z.pow_pos_nonneg; lia.
Qed.

Lemma trunc_positive_sign (m : positive) (e n : Z) :
  trunc (S754_finite false m e) = Ok n -> 0 <= n.
Proof.
  intros H. pose proof (trunc_magnitude_nonneg m e) as Hm.
  unfold trunc, cond_Zopp in H. congruence.
Qed.

Lemma trunc_sqrt_nonneg (x : float) (n : Z) :
  trunc (F32.sqrt x) = Ok n -> 0 <= n.
Proof.
  unfold F32.sqrt, SFsqrt.
  destruct x as [s|[|]| |[|] m e]; try discriminate.
  - cbn [trunc]. intros [= <-]. lia.
  - destruct (SFsqrt_core_binary F32.prec F32.emax (Zpos m) e) as [[mz ez] lz].
    pose proof (binary_round_aux_sign F32.prec F32.emax false mz ez lz) as Hs.
    destruct (binary_round_aux F32.prec F32.emax false mz ez lz)
      as [s|s| |s m' e']; try discriminate.
    + cbn [trunc]. intros [= <-]. lia.
    + subst s. apply trunc_positive_sign.
Qed.

Lemma edge_len_trunc_nonneg `{lm : Libm} (p q : point) (n : Z) :
  trunc (edge_len p q) = Ok n -> 0 <= n.
Proof. apply trunc_sqrt_nonneg. Qed.

(** ** The square that powf returns *)

Lemma binary_round_dir_sign (up : bool) (prec emax : Z) (sx : bool)
    (mx ex : Z) (lx : location) :
  match binary_round_dir up prec emax sx mx ex lx with
  | S754_zero s | S754_infinity s | S754_finite s _ _ => s = sx
  | S754_nan => True
  end.
Proof.
  unfold binary_round_dir.
  destruct (shr_fexp prec emax mx ex lx) as [mrs' e'].
  destruct (shr_fexp prec emax _ e' loc_Exact) as [mrs'' e''].
  destruct (shr_m mrs''); [reflexivity| |exact I].
  destruct (Z.leb e'' (emax - prec)); reflexivity.
Qed.

(** Rounding to nearest gives one of the two directed roundings. *)
Lemma binary_round_aux_dir (prec emax : Z) (sx : bool) (mx ex : Z)
    (lx : location) :
  binary_round_aux prec emax sx mx ex lx
  = binary_round_dir false prec emax sx mx ex lx \/
  binary_round_aux prec emax sx mx ex lx
  = binary_round_dir true prec emax sx mx ex lx.
Proof.
  unfold binary_round_aux, binary_round_dir.
  destruct (shr_fexp prec emax mx ex lx) as [mrs' e'].
  destruct (loc_of_shr_record mrs') as [|[| |]]; cbn [round_nearest_even round_dir];
    auto.
  destruct (Z.even (shr_m mrs')); auto.
Qed.

Lemma rn_libm_faithful : faithful_square rn_libm.
Proof.
  intros x. cbn [powf rn_libm].
  destruct x as [s|s| |s m e]; cbn [square_candidates].
  - left. destruct s; reflexivity.
  - left. destruct s; reflexivity.
  - left. reflexivity.
  - unfold F32.mul, SFmul.
    assert (xorb s s = false) as -> by (destruct s; reflexivity).
    destruct (binary_round_aux_dir F32.prec F32.emax false (Zpos (m * m))
                (e + e) loc_Exact) as [H|H]; rewrite H; cbn; auto.
Qed.


Lemma sq_candidate `{lm : Libm} (x : float) :
  faithful_square lm -> In (sq x) (square_candidates x).
Proof. intros H. apply H. Qed.

Lemma sq_zero `{lm : Libm} (s : bool) :
  faithful_square lm -> sq (S754_zero s) = S754_zero false.
Proof.
  intros H. destruct (sq_candidate (S754_zero s) H) as [E|[]]. now symmetry.
Qed.




(** ** warp_perspective: the output size *)

Lemma warp_perspective_of_geometry `{cv : OpenCV} `{lm : Libm} (img : Image)
    (pts : list point) (dst r : rect) (size : Z * Z) :
  warp_geometry pts = Ok (dst, r, size) ->
  warp_perspective img pts
  = (M <- cv_getPerspectiveTransform r dst ;; cv_warpPerspective img M size).
Proof. unfold warp_perspective. intros ->. reflexivity. Qed.

Lemma warp_perspective_raise `{cv : OpenCV} `{lm : Libm} (img : Image)
    (pts : list point) (e : exn) :
  warp_geometry pts = Raise e -> warp_perspective img pts = Raise e.
Proof. unfold warp_perspective. intros ->. reflexivity. Qed.

(** The size handed to the resampler is the pair of the larger truncated
    edge lengths, as long as both fit a float32 entry exactly. *)
Lemma warp_geometry_sizes `{lm : Libm} (pts : list point) (r : rect)
    (wa wb ha hb : Z) :
  order_points pts = Ok r ->
  trunc (edge_len (br r) (bl r)) = Ok wa ->
  trunc (edge_len (tr r) (tl r)) = Ok wb ->
  trunc (edge_len (tr r) (br r)) = Ok ha ->
  trunc (edge_len (tl r) (bl r)) = Ok hb ->
  Z.max wa wb <= 2 ^ 24 -> Z.max ha hb <= 2 ^ 24 ->
  warp_geometry pts
  = Ok (dst_rect (Z.max wa wb) (Z.max ha hb), r, (Z.max wa wb, Z.max ha hb)).
Proof.
  intros E Hwa Hwb Hha Hhb Bw Bh.
  pose proof (edge_len_trunc_nonneg _ _ _ Hwa).
  pose proof (edge_len_trunc_nonneg _ _ _ Hwb).
  pose proof (edge_len_trunc_nonneg _ _ _ Hha).
  pose proof (edge_len_trunc_nonneg _ _ _ Hhb).
  unfold warp_geometry, four_point_transform.
  rewrite E. cbn [bind]. rewrite Hwa, Hwb, Hha, Hhb. cbn [bind].
  unfold dst_rect at 1 2. cbn [br px py fst snd].
  rewrite !of_Z_trunc by lia. cbn [bind].
  do 3 f_equal; lia.
Qed.







Lemma toy_cv_honours_size : honours_size toy_cv.
Proof.
  intros img M w h out Hw Hh. cbn.
  apply Z.ltb_lt in Hw, Hh. rewrite Hw, Hh. cbn.
  intros [= <-]. split; reflexivity.
Qed.









(** ** auto_detect_corners: the fallback *)

Lemma scan_contours_qualifies `{cv : OpenCV} (min_area_ratio : float)
    (small : Image) (scale : float) (h w : Z) (cnt : Contour)
    (rest : list Contour) :
  qualifies min_area_ratio small cnt = false ->
  scan_contours min_area_ratio small scale h w (cnt :: rest)
  = scan_contours min_area_ratio small scale h w rest.
Proof.
  unfold qualifies. cbn [scan_contours].
  destruct (SFltb (cv_contourArea cnt) _); [reflexivity|].
  intros ->. reflexivity.
Qed.

Lemma scan_contours_none `{cv : OpenCV} (min_area_ratio : float)
    (small : Image) (scale : float) (h w : Z) (contours : list Contour) :
  (forall c, In c contours -> qualifies min_area_ratio small c = false) ->
  scan_contours min_area_ratio small scale h w contours
  = Ok (full_frame h w, false).
Proof.
  induction contours as [|cnt rest IH]; intros H; [reflexivity|].
  rewrite scan_contours_qualifies by (apply H; left; reflexivity).
  apply IH. intros c Hc. apply H. right. exact Hc.
Qed.

(** C5.  When the search ran (the OpenCV calls returned the candidate
    contours) and no candidate passes both the area filter and the
    four-vertex filter, [auto_detect_corners] returns, without raising, the
    float32 array of the corners (0,0), (w-1,0), (w-1,h-1), (0,h-1) together
    with [False]; for image sides up to 2^24 the entries are exactly those
    integers. *)
Theorem auto_detect_corners_fallback `{cv : OpenCV} (img small : Image)
    (min_area_ratio scale : float) (downscale : Z)
    (contours : list Contour) :
  detect_candidates img downscale = Ok (small, scale, contours) ->
  (forall c, In c contours -> qualifies min_area_ratio small c = false) ->
  auto_detect_corners img min_area_ratio downscale
  = Ok (full_frame (rows img) (cols img), false) /\
  full_frame (rows img) (cols img)
  = mkRect (F32.of_Z 0, F32.of_Z 0)
           (F32.of_Z (cols img - 1), F32.of_Z 0)
           (F32.of_Z (cols img - 1), F32.of_Z (rows img - 1))
           (F32.of_Z 0, F32.of_Z (rows img - 1)) /\
  (1 <= rows img <= 2 ^ 24 -> 1 <= cols img <= 2 ^ 24 ->
   trunc (F32.of_Z (cols img - 1)) = Ok (cols img - 1) /\
   trunc (F32.of_Z (rows img - 1)) = Ok (rows img - 1)).
Proof.
  intros Hc Hq. split; [|split].
  - unfold auto_detect_corners. rewrite Hc. cbn [bind].
    now apply scan_contours_none.
  - reflexivity.
  - intros Hh Hw. rewrite !of_Z_trunc by lia. split; reflexivity.
Qed.

Lemma auto_detect_corners_fallback_witness :
  auto_detect_corners (cv := toy_cv) (blank 4 6) default_min_area_ratio
    default_downscale
  = Ok (full_frame 4 6, false) /\
  full_frame 4 6
  = mkRect (F32.of_Z 0, F32.of_Z 0) (F32.of_Z (6 - 1), F32.of_Z 0)
           (F32.of_Z (6 - 1), F32.of_Z (4 - 1)) (F32.of_Z 0, F32.of_Z (4 - 1)) /\
  (1 <= 4 <= 2 ^ 24 -> 1 <= 6 <= 2 ^ 24 ->
   trunc (F32.of_Z (6 - 1)) = Ok (6 - 1) /\
   trunc (F32.of_Z (4 - 1)) = Ok (4 - 1)).
Proof.
  apply (auto_detect_corners_fallback (cv := toy_cv) (blank 4 6) (blank 4 6)
           default_min_area_ratio f64_one default_downscale
           [[(0, 0); (1, 0); (0, 1)]]).
  - vm_compute. reflexivity.
  - intros c [<-|[]]. vm_compute. reflexivity.
Defined.

(** ** full_pipeline with every option off *)

(** C7.  With denoise, local contrast, sharpen and size clamp all disabled,
    [full_pipeline] returns what [warp_perspective] returns, byte for byte
    (and raises what it raises), whatever the other parameters.  A
    disabled stage is skipped outright: the value of its parameters has no
    effect on the result, whatever the other switches. *)
Theorem full_pipeline_all_disabled `{cv : OpenCV} `{lm : Libm} (img : Image)
    (pts : list point) (denoise_strength clahe_clip sharpen_amount : float)
    (ref_max_dim : option Z) (max_scale_factor min_scale_factor : float) :
  full_pipeline img pts false denoise_strength false clahe_clip
    false sharpen_amount false ref_max_dim max_scale_factor min_scale_factor
  = warp_perspective img pts /\
  (forall clahe sharpen clamp_enabled strength',
     full_pipeline img pts false denoise_strength clahe clahe_clip
       sharpen sharpen_amount clamp_enabled ref_max_dim
       max_scale_factor min_scale_factor
     = full_pipeline img pts false strength' clahe clahe_clip
         sharpen sharpen_amount clamp_enabled ref_max_dim
         max_scale_factor min_scale_factor) /\
  (forall denoise sharpen clamp_enabled clip',
     full_pipeline img pts denoise denoise_strength false clahe_clip
       sharpen sharpen_amount clamp_enabled ref_max_dim
       max_scale_factor min_scale_factor
     = full_pipeline img pts denoise denoise_strength false clip'
         sharpen sharpen_amount clamp_enabled ref_max_dim
         max_scale_factor min_scale_factor) /\
  (forall denoise clahe clamp_enabled amount',
     full_pipeline img pts denoise denoise_strength clahe clahe_clip
       false sharpen_amount clamp_enabled ref_max_dim
       max_scale_factor min_scale_factor
     = full_pipeline img pts denoise denoise_strength clahe clahe_clip
         false amount' clamp_enabled ref_max_dim
         max_scale_factor min_scale_factor) /\
  (forall denoise clahe sharpen ref' max' min',
     full_pipeline img pts denoise denoise_strength clahe clahe_clip
       sharpen sharpen_amount false ref_max_dim
       max_scale_factor min_scale_factor
     = full_pipeline img pts denoise denoise_strength clahe clahe_clip
         sharpen sharpen_amount false ref' max' min').
Proof.
  split.
  - unfold full_pipeline.
    destruct (warp_perspective img pts) as [out|e]; reflexivity.
  - repeat split; intros; reflexivity.
Qed.

(** ** apply_sharpen with amount 1 *)

Lemma fma32_zero_weight (y z : float) (s : bool) :
  fma32 y (S754_zero s) z = F32.add (F32.mul y (S754_zero s)) z.
Proof. destruct y; reflexivity. Qed.

Lemma mul_zero_px (b : Byte.byte) :
  F32.mul (F32.of_Z (byte_to_Z b)) (F32.of_float f64_zero) = S754_zero false.
Proof. destruct b; vm_compute; reflexivity. Qed.

Lemma of_float_zero : F32.of_float f64_zero = S754_zero false.
Proof. reflexivity. Qed.

Lemma keep_px (k : fusion) (a : Byte.byte) :
  saturate_u8
    (cv_round
       (F32.add
          match k with
          | Unfused =>
              F32.add (F32.mul (F32.of_Z (byte_to_Z a)) (F32.of_float f64_one))
                (S754_zero false)
          | FusedFirst =>
              fma32 (F32.of_Z (byte_to_Z a)) (F32.of_float f64_one)
                (S754_zero false)
          | FusedSecond =>
              F32.add (S754_zero false)
                (F32.mul (F32.of_Z (byte_to_Z a)) (F32.of_float f64_one))
          end
          (S754_zero false)))
  = a.
Proof. destruct k; destruct a; vm_compute; reflexivity. Qed.

(** One channel value: weight 1 on the original and 0 on the blurred copy
    gives back the original value, exactly, whatever the kernel. *)
Lemma add_weighted_px_one (k : fusion) (a b : Byte.byte) :
  add_weighted_px k f64_one f64_zero f64_zero a b = a.
Proof.
  unfold add_weighted_px. cbv zeta. rewrite of_float_zero.
  rewrite fma32_zero_weight.
  change (S754_zero false) with (F32.of_float f64_zero) at 1 2 3.
  rewrite !mul_zero_px. apply keep_px.
Qed.

Lemma add_weighted_data_length (f : nat -> fusion) (alpha beta gamma : float)
    (d1 d2 : list Byte.byte) :
  length d1 = length d2 ->
  forall i, length (add_weighted_data f i alpha beta gamma d1 d2) = length d1.
Proof.
  revert d2. induction d1 as [|a d1 IH]; intros [|b d2] Hlen i;
    try discriminate; [reflexivity|].
  cbn [add_weighted_data length]. f_equal. apply IH. simpl in Hlen. congruence.
Qed.

Lemma add_weighted_data_nth (f : nat -> fusion) (alpha beta gamma : float)
    (d1 d2 : list Byte.byte) (j : nat) (a b : Byte.byte) :
  nth_error d1 j = Some a -> nth_error d2 j = Some b ->
  forall i,
    nth_error (add_weighted_data f i alpha beta gamma d1 d2) j
    = Some (add_weighted_px (f (i + j)%nat) alpha beta gamma a b).
Proof.
  revert d2 j. induction d1 as [|x d1 IH]; intros [|y d2] [|j];
    cbn [nth_error]; try discriminate.
  - intros [= ->] [= ->] i. cbn. now rewrite Nat.add_0_r.
  - intros Ha Hb i. cbn [add_weighted_data nth_error].
    rewrite (IH d2 j Ha Hb (S i)). do 3 f_equal. lia.
Qed.

Lemma add_weighted_data_first (f : nat -> fusion) (alpha beta gamma : float) :
  (forall k a b, add_weighted_px k alpha beta gamma a b = a) ->
  forall d1 d2 i, length d1 = length d2 ->
    add_weighted_data f i alpha beta gamma d1 d2 = d1.
Proof.
  intros Hf. induction d1 as [|a d1 IH]; intros [|b d2] i Hlen;
    try discriminate; [reflexivity|].
  cbn [add_weighted_data]. rewrite Hf, IH; [reflexivity|].
  simpl in Hlen. congruence.
Qed.

Lemma clip_px (v : Byte.byte) :
  byte_of_Z (Z.min 255 (Z.max 0 (byte_to_Z v)) mod 256) = v.
Proof. destruct v; vm_compute; reflexivity. Qed.

Lemma np_clip_u8_id (img : Image) : np_clip_u8 img = img.
Proof.
  destruct img as [h w c d]. unfold np_clip_u8. cbn [rows cols chans data].
  f_equal. rewrite <- (map_id d) at 2. apply map_ext. exact clip_px.
Qed.

Lemma cv_addWeighted_one `{cv : OpenCV} (img blurred : Image) :
  same_shape img blurred = true ->
  cv_addWeighted img f64_one blurred f64_zero f64_zero = Ok img.
Proof.
  intros Hs. unfold cv_addWeighted. rewrite Hs.
  unfold same_shape in Hs. apply andb_true_iff in Hs as [_ Hlen].
  apply Nat.eqb_eq in Hlen.
  rewrite add_weighted_data_first;
    [destruct img; reflexivity|exact add_weighted_px_one|exact Hlen].
Qed.

(** C9.  With [amount = 1.0] the weights are 1 on the original and
    [1 - 1.0 = 0.0] on the blurred copy, and [apply_sharpen] returns its
    input unchanged, byte for byte, whenever the blur returns an image of
    the shape of its input, whatever float32 kernel computes the weighted
    sum. *)
Theorem apply_sharpen_amount_one `{cv : OpenCV} (img : Image) (sigma : float) :
  blur_keeps_shape cv ->
  (exists blurred, cv_GaussianBlur img (0, 0) sigma = Ok blurred) ->
  F64.sub (F64.of_Z 1) f64_one = f64_zero /\
  (forall k a b, add_weighted_px k f64_one f64_zero f64_zero a b = a) /\
  apply_sharpen img f64_one sigma = Ok img.
Proof.
  intros Hcv [blurred Hb]. split; [vm_compute; reflexivity|].
  split; [exact add_weighted_px_one|].
  unfold apply_sharpen. rewrite Hb. cbn [bind].
  assert (F64.sub (F64.of_Z 1) f64_one = f64_zero) as ->
    by (vm_compute; reflexivity).
  rewrite cv_addWeighted_one by (eapply Hcv; exact Hb).
  cbn [bind]. now rewrite np_clip_u8_id.
Qed.

Lemma toy_cv_blur_keeps_shape : blur_keeps_shape toy_cv.
Proof.
  intros img ksize sigma out. cbn. intros [= <-].
  unfold same_shape. now rewrite !Z.eqb_refl, Nat.eqb_refl.
Qed.

Lemma apply_sharpen_amount_one_witness :
  F64.sub (F64.of_Z 1) f64_one = f64_zero /\
  (forall k a b, add_weighted_px k f64_one f64_zero f64_zero a b = a) /\
  apply_sharpen (cv := toy_cv) two_pixels f64_one (F64.of_Z 5) = Ok two_pixels.
Proof.
  apply (apply_sharpen_amount_one (cv := toy_cv) two_pixels (F64.of_Z 5)).
  - exact toy_cv_blur_keeps_shape.
  - eexists. reflexivity.
Defined.

(** ** clamp_size *)

(** Inside the two bounds the image is returned as it is. *)
Lemma clamp_size_unchanged `{cv : OpenCV} (img : Image) (ref_max_dim : Z)
    (max_scale_factor min_scale_factor : float) (max_allowed min_allowed : Z) :
  trunc (mul_int_float ref_max_dim max_scale_factor) = Ok max_allowed ->
  trunc (mul_int_float ref_max_dim min_scale_factor) = Ok min_allowed ->
  min_allowed <= Z.max (rows img) (cols img) <= max_allowed ->
  clamp_size img ref_max_dim max_scale_factor min_scale_factor = Ok img.
Proof.
  intros Hmax Hmin Hin. unfold clamp_size. rewrite Hmax, Hmin. cbn [bind].
  assert ((max_allowed <? Z.max (rows img) (cols img)) = false) as ->
    by (apply Z.ltb_ge; lia).
  assert ((Z.max (rows img) (cols img) <? min_allowed) = false) as ->
    by (apply Z.ltb_ge; lia).
  reflexivity.
Qed.

(** The three examples of the specification, with reference 1000 and the
    default factors: 1500 goes to 1250, 500 goes to 750, 1000 stays. *)
Lemma clamp_size_examples `{cv : OpenCV} (d : list Byte.byte) :
  clamp_size (mkImage 1000 1500 3 d) 1000
    default_max_scale_factor default_min_scale_factor
  = cv_resize (mkImage 1000 1500 3 d) (1250, 833) INTER_AREA /\
  clamp_size (mkImage 400 500 3 d) 1000
    default_max_scale_factor default_min_scale_factor
  = cv_resize (mkImage 400 500 3 d) (750, 600) INTER_CUBIC /\
  clamp_size (mkImage 800 1000 3 d) 1000
    default_max_scale_factor default_min_scale_factor
  = Ok (mkImage 800 1000 3 d).
Proof. repeat split; vm_compute; reflexivity. Qed.

Lemma forallb_range (f : Z -> bool) (n : nat) :
  forallb f (map Z.of_nat (seq 1 n)) = true ->
  forall o, 1 <= o <= Z.of_nat n -> f o = true.
Proof.
  intros H o Ho. rewrite forallb_forall in H. apply H.
  apply in_map_iff. exists (Z.to_nat o). split; [lia|].
  apply in_seq. lia.
Qed.

(** Every image whose largest dimension is 1500 comes out with largest
    dimension exactly 1250, and every image whose largest dimension is 500
    with largest dimension exactly 750, whatever its other side. *)
Lemma clamp_size_examples_all `{cv : OpenCV} (o : Z) (d : list Byte.byte) :
  (1 <= o <= 1500 ->
   exists n, 0 <= n <= 1250 /\
     clamp_size (mkImage o 1500 3 d) 1000
       default_max_scale_factor default_min_scale_factor
     = cv_resize (mkImage o 1500 3 d) (1250, n) INTER_AREA /\
     clamp_size (mkImage 1500 o 3 d) 1000
       default_max_scale_factor default_min_scale_factor
     = cv_resize (mkImage 1500 o 3 d) (n, 1250) INTER_AREA) /\
  (1 <= o <= 500 ->
   exists n, 0 <= n <= 750 /\
     clamp_size (mkImage o 500 3 d) 1000
       default_max_scale_factor default_min_scale_factor
     = cv_resize (mkImage o 500 3 d) (750, n) INTER_CUBIC /\
     clamp_size (mkImage 500 o 3 d) 1000
       default_max_scale_factor default_min_scale_factor
     = cv_resize (mkImage 500 o 3 d) (n, 750) INTER_CUBIC).
Proof.
  assert (trunc (mul_int_float 1000 default_max_scale_factor) = Ok 1250)
    as Hmax by (vm_compute; reflexivity).
  assert (trunc (mul_int_float 1000 default_min_scale_factor) = Ok 750)
    as Hmin by (vm_compute; reflexivity).
  split; intros Ho.
  - assert (scaled_side_ok 1250 1500 o = true) as Hs.
    { apply (forallb_range (scaled_side_ok 1250 1500) 1500);
        [vm_compute; reflexivity|lia]. }
    unfold scaled_side_ok in Hs.
    assert (py_truediv 1250 1500 = Ok (F64.div (F64.of_Z 1250) (F64.of_Z 1500)))
      as Hq by reflexivity.
    rewrite Hq in Hs.
    assert (trunc (mul_int_float 1500 (F64.div (F64.of_Z 1250) (F64.of_Z 1500)))
            = Ok 1250) as Hbig by (vm_compute; reflexivity).
    destruct (trunc (mul_int_float o _)) as [n|e] eqn:Hn; [|discriminate].
    exists n. split; [lia|].
    unfold clamp_size. cbn [rows cols]. rewrite Hmax, Hmin. cbn [bind].
    rewrite Z.max_r, Z.max_l by lia.
    change (1250 <? 1500) with true. cbv iota. rewrite Hq. cbn [bind].
    rewrite Hbig, Hn. cbn [bind]. split; reflexivity.
  - assert (scaled_side_ok 750 500 o = true) as Hs.
    { apply (forallb_range (scaled_side_ok 750 500) 500);
        [vm_compute; reflexivity|lia]. }
    unfold scaled_side_ok in Hs.
    assert (py_truediv 750 500 = Ok (F64.div (F64.of_Z 750) (F64.of_Z 500)))
      as Hq by reflexivity.
    rewrite Hq in Hs.
    assert (trunc (mul_int_float 500 (F64.div (F64.of_Z 750) (F64.of_Z 500)))
            = Ok 750) as Hbig by (vm_compute; reflexivity).
    destruct (trunc (mul_int_float o _)) as [n|e] eqn:Hn; [|discriminate].
    exists n. split; [lia|].
    unfold clamp_size. cbn [rows cols]. rewrite Hmax, Hmin. cbn [bind].
    rewrite Z.max_r, Z.max_l by lia.
    change (1250 <? 500) with false. change (500 <? 750) with true.
    cbv iota. rewrite Hq. cbn [bind].
    rewrite Hbig, Hn. cbn [bind]. split; reflexivity.
Qed.

(** C4 on the code.  With reference 1000 and the default factors the bounds
    are 1250 and 750.  An image 2118 wide and 100 high exceeds the upper
    bound and is resized to 1249 x 59: its largest dimension misses the
    bound by one.  An image 91 wide and 50 high is below the lower bound and
    is resized to 749 x 412. *)
Theorem clamp_size_misses_bound `{cv : OpenCV} (d : list Byte.byte) :
  trunc (mul_int_float 1000 default_max_scale_factor) = Ok 1250 /\
  trunc (mul_int_float 1000 default_min_scale_factor) = Ok 750 /\
  clamp_size (mkImage 100 2118 3 d) 1000
    default_max_scale_factor default_min_scale_factor
  = cv_resize (mkImage 100 2118 3 d) (1249, 59) INTER_AREA /\
  clamp_size (mkImage 50 91 3 d) 1000
    default_max_scale_factor default_min_scale_factor
  = cv_resize (mkImage 50 91 3 d) (749, 412) INTER_CUBIC /\
  (resize_honours_size cv ->
   (forall out,
      clamp_size (mkImage 100 2118 3 d) 1000
        default_max_scale_factor default_min_scale_factor = Ok out ->
      Z.max (rows out) (cols out) = 1249) /\
   (forall out,
      clamp_size (mkImage 50 91 3 d) 1000
        default_max_scale_factor default_min_scale_factor = Ok out ->
      Z.max (rows out) (cols out) = 749)).
Proof.
  assert (clamp_size (mkImage 100 2118 3 d) 1000
            default_max_scale_factor default_min_scale_factor
          = cv_resize (mkImage 100 2118 3 d) (1249, 59) INTER_AREA) as Hdown
    by (vm_compute; reflexivity).
  assert (clamp_size (mkImage 50 91 3 d) 1000
            default_max_scale_factor default_min_scale_factor
          = cv_resize (mkImage 50 91 3 d) (749, 412) INTER_CUBIC) as Hup
    by (vm_compute; reflexivity).
  split; [vm_compute; reflexivity|]. split; [vm_compute; reflexivity|].
  split; [exact Hdown|]. split; [exact Hup|].
  intros Hcv. split; intros out H.
  - rewrite Hdown in H. apply Hcv in H. destruct H as [-> ->]. reflexivity.
  - rewrite Hup in H. apply Hcv in H. destruct H as [-> ->]. reflexivity.
Qed.
(** * Further properties of the code *)

(** ** auto_detect_corners: the accepted candidate *)

Lemma scan_contours_accept `{cv : OpenCV} (min_area_ratio : float)
    (small : Image) (scale : float) (h w : Z) (cnt : Contour)
    (rest : list Contour) :
  qualifies min_area_ratio small cnt = true ->
  scan_contours min_area_ratio small scale h w (cnt :: rest)
  = (pts <- order_points (approx_points scale (contour_approx cnt)) ;;
     Ok (pts, true)).
Proof.
  unfold qualifies, contour_approx. cbn [scan_contours].
  destruct (SFltb (cv_contourArea cnt) _); [discriminate|].
  intros ->. reflexivity.
Qed.

Lemma approx_points_length (scale : float) (approx : list (Z * Z)) :
  length (approx_points scale approx) = length approx.
Proof. unfold approx_points. apply length_map. Qed.

(** The loop either falls through, or stops at the first candidate that
    qualifies and returns its ordered vertices. *)
Lemma scan_contours_cases `{cv : OpenCV} (min_area_ratio : float)
    (small : Image) (scale : float) (h w : Z) (contours : list Contour) :
  ((forall c, In c contours -> qualifies min_area_ratio small c = false) /\
   scan_contours min_area_ratio small scale h w contours
   = Ok (full_frame h w, false)) \/
  (exists pre c post r,
     contours = pre ++ c :: post /\
     (forall x, In x pre -> qualifies min_area_ratio small x = false) /\
     qualifies min_area_ratio small c = true /\
     order_points (approx_points scale (contour_approx c)) = Ok r /\
     scan_contours min_area_ratio small scale h w contours = Ok (r, true)).
Proof.
  induction contours as [|cnt rest IH].
  - left. split; [intros c []|reflexivity].
  - destruct (qualifies min_area_ratio small cnt) eqn:Hq.
    + right. rewrite (scan_contours_accept _ _ _ _ _ _ _ Hq).
      assert (length (contour_approx cnt) = 4%nat) as Hlen.
      { unfold qualifies in Hq. unfold contour_approx.
        destruct (SFltb (cv_contourArea cnt) _); [discriminate|].
        now apply Nat.eqb_eq in Hq. }
      destruct (approx_points scale (contour_approx cnt)) as [|p l] eqn:Hp.
      { apply (f_equal (@length _)) in Hp.
        rewrite approx_points_length, Hlen in Hp. discriminate. }
      destruct (order_points_nonempty p l) as (r & Er & _).
      exists [], cnt, rest, r. rewrite Er. cbn [bind app].
      split; [reflexivity|]. split; [intros x []|].
      split; [exact Hq|]. split; [rewrite Hp; exact Er|reflexivity].
    + rewrite (scan_contours_qualifies _ _ _ _ _ _ _ Hq).
      destruct IH as [[Hall E]|(pre & c & post & r & E & Hpre & Hc & Er & Es)].
      * left. split; [|exact E]. intros c [<-|Hc]; auto.
      * right. exists (cnt :: pre), c, post, r. rewrite E.
        split; [reflexivity|]. split; [intros x [<-|Hx]; auto|].
        split; [exact Hc|]. split; [exact Er|]. rewrite <- E. exact Es.
Qed.

(** ** sorted(..., reverse=True) *)

Lemma SFltb_asym (a b : float) : SFltb a b = true -> SFltb b a = false.
Proof.
  intros H. destruct (SFltb b a) eqn:E; [|reflexivity].
  rewrite <- (SFltb_irrefl a). symmetry. exact (SFltb_trans _ _ _ H E).
Qed.

Lemma insert_desc_perm {A : Type} (key : A -> float) (x : A) (l : list A) :
  Permutation (insert_desc key x l) (x :: l).
Proof.
  induction l as [|y l IH]; cbn [insert_desc]; [reflexivity|].
  destruct (SFltb (key x) (key y)); [|reflexivity].
  rewrite IH. apply perm_swap.
Qed.

Lemma sorted_desc_perm {A : Type} (key : A -> float) (l : list A) :
  Permutation (sorted_desc key l) l.
Proof.
  induction l as [|x l IH]; [reflexivity|].
  unfold sorted_desc. cbn [fold_right].
  rewrite insert_desc_perm. now apply perm_skip.
Qed.

Lemma sorted_desc_In {A : Type} (key : A -> float) (l : list A) (x : A) :
  In x (sorted_desc key l) <-> In x l.
Proof.
  split; apply Permutation_in;
    [apply sorted_desc_perm | apply Permutation_sym, sorted_desc_perm].
Qed.

Lemma insert_desc_sorted {A : Type} (key : A -> float) (x : A) (l : list A) :
  is_nan (key x) = false ->
  (forall y, In y l -> is_nan (key y) = false) ->
  StronglySorted (ge_key key) l ->
  StronglySorted (ge_key key) (insert_desc key x l).
Proof.
  intros Nx. induction l as [|y l IH]; intros Nl Hs; cbn [insert_desc].
  - repeat constructor.
  - inversion Hs as [|y' l' Hs' Hy]; subst.
    destruct (SFltb (key x) (key y)) eqn:E.
    + constructor.
      * apply IH; [intros z Hz; apply Nl; right; exact Hz|exact Hs'].
      * apply (Permutation_Forall (Permutation_sym (insert_desc_perm key x l))).
        constructor; [|exact Hy].
        unfold ge_key. now apply SFltb_asym.
    + constructor; [exact Hs|]. constructor; [exact E|].
      rewrite Forall_forall in Hy |- *. intros z Hz. unfold ge_key in *.
      destruct (SFltb (key x) (key z)) eqn:Ez; [|reflexivity].
      assert (SFleb (key y) (key x) = true) as Hle.
      { rewrite SFleb_negb_ltb; [now rewrite E| |exact Nx].
        apply Nl. left. reflexivity. }
      specialize (Hy z Hz).
      rewrite (SFleb_ltb_trans _ _ _ Hle Ez) in Hy. discriminate.
Qed.

(** When no key is NaN the result is in decreasing order of the key. *)
Lemma sorted_desc_sorted {A : Type} (key : A -> float) (l : list A) :
  (forall y, In y l -> is_nan (key y) = false) ->
  StronglySorted (ge_key key) (sorted_desc key l).
Proof.
  induction l as [|x l IH]; intros Nl; [constructor|].
  unfold sorted_desc. cbn [fold_right]. apply insert_desc_sorted.
  - apply Nl. left. reflexivity.
  - intros y Hy. apply Nl. right. now apply sorted_desc_In in Hy.
  - apply IH. intros y Hy. apply Nl. right. exact Hy.
Qed.

Lemma sorted_after {A : Type} (R : A -> A -> Prop) (pre post : list A) (c : A) :
  StronglySorted R (pre ++ c :: post) -> Forall (R c) post.
Proof.
  induction pre as [|x pre IH]; cbn [app]; intros H;
    inversion H; subst; auto.
Qed.

Lemma detect_candidates_sorted `{cv : OpenCV} (img small : Image)
    (downscale : Z) (scale : float) (contours : list Contour) :
  detect_candidates img downscale = Ok (small, scale, contours) ->
  exists raw, contours = sorted_desc cv_contourArea raw.
Proof.
  unfold detect_candidates.
  destruct (py_truediv downscale _) as [q|]; [|discriminate]. cbn [bind].
  destruct (if SFltb (py_min q f64_one) f64_one then _ else _) as [s|];
    [|discriminate]. cbn [bind].
  destruct (cv_cvtColor s COLOR_BGR2GRAY) as [g|]; [|discriminate]. cbn [bind].
  destruct (cv_GaussianBlur g (5, 5) f64_zero) as [b|]; [|discriminate].
  cbn [bind].
  destruct (cv_Canny b 75 200) as [e|]; [|discriminate]. cbn [bind].
  destruct (cv_dilate e 2) as [e'|]; [|discriminate]. cbn [bind].
  destruct (cv_findContours e' RETR_EXTERNAL CHAIN_APPROX_SIMPLE) as [raw|];
    [|discriminate]. cbn [bind].
  intros [= _ _ <-]. now exists raw.
Qed.

(** X1.  Once the OpenCV calls have returned the candidates,
    [auto_detect_corners] never raises, and its flag is [True] exactly when
    some candidate passes both filters; the corners returned with [True]
    are vertices of the four-vertex polygon of a qualifying candidate,
    brought back to the scale of the original image. *)
Theorem auto_detect_corners_success_iff `{cv : OpenCV} (img small : Image)
    (min_area_ratio scale : float) (downscale : Z) (contours : list Contour) :
  detect_candidates img downscale = Ok (small, scale, contours) ->
  exists r ok,
    auto_detect_corners img min_area_ratio downscale = Ok (r, ok) /\
    (ok = true <->
     exists c, In c contours /\ qualifies min_area_ratio small c = true) /\
    (ok = true ->
     exists c, In c contours /\ qualifies min_area_ratio small c = true /\
       length (contour_approx c) = 4%nat /\
       incl (rect_rows r) (approx_points scale (contour_approx c))).
Proof.
  intros Hc. unfold auto_detect_corners. rewrite Hc. cbn [bind].
  destruct (scan_contours_cases min_area_ratio small scale (rows img)
              (cols img) contours)
    as [[Hall E]|(pre & c & post & r & E & Hpre & Hq & Er & Es)].
  - exists (full_frame (rows img) (cols img)), false.
    split; [exact E|]. split; [|discriminate].
    split; [discriminate|]. intros (c & Hin & Hq).
    rewrite (Hall c Hin) in Hq. discriminate.
  - exists r, true. split; [exact Es|].
    assert (In c contours) as Hin
      by (rewrite E; apply in_or_app; right; left; reflexivity).
    split; [split; [intros _; eauto|reflexivity]|].
    intros _. exists c. split; [exact Hin|]. split; [exact Hq|]. split.
    + unfold qualifies in Hq. unfold contour_approx.
      destruct (SFltb (cv_contourArea c) _); [discriminate|].
      now apply Nat.eqb_eq in Hq.
    + now apply order_points_rows_incl.
Qed.

Lemma auto_detect_corners_success_iff_witness :
  exists r ok,
    auto_detect_corners (cv := quad_cv) frame100 default_min_area_ratio
      default_downscale = Ok (r, ok) /\
    (ok = true <->
     exists c, In c [quad_contour; small_contour] /\
       qualifies (cv := quad_cv) default_min_area_ratio frame100 c = true) /\
    (ok = true ->
     exists c, In c [quad_contour; small_contour] /\
       qualifies (cv := quad_cv) default_min_area_ratio frame100 c = true /\
       length (contour_approx (cv := quad_cv) c) = 4%nat /\
       incl (rect_rows r)
            (approx_points f64_one (contour_approx (cv := quad_cv) c))).
Proof.
  apply (auto_detect_corners_success_iff (cv := quad_cv) frame100 frame100
           default_min_area_ratio f64_one default_downscale
           [quad_contour; small_contour]).
  vm_compute. reflexivity.
Defined.

(** X2.  When no contour area is NaN, the corners returned with [True] are
    those of a qualifying candidate of largest area: no qualifying
    candidate has a larger area than the one accepted. *)
Theorem auto_detect_corners_largest `{cv : OpenCV} (img small : Image)
    (min_area_ratio scale : float) (downscale : Z) (contours : list Contour)
    (r : rect) :
  detect_candidates img downscale = Ok (small, scale, contours) ->
  (forall c, In c contours -> is_nan (cv_contourArea c) = false) ->
  auto_detect_corners img min_area_ratio downscale = Ok (r, true) ->
  exists c, In c contours /\ qualifies min_area_ratio small c = true /\
    order_points (approx_points scale (contour_approx c)) = Ok r /\
    forall c', In c' contours -> qualifies min_area_ratio small c' = true ->
      SFltb (cv_contourArea c) (cv_contourArea c') = false.
Proof.
  intros Hc Hnan. unfold auto_detect_corners. rewrite Hc. cbn [bind].
  destruct (detect_candidates_sorted _ _ _ _ _ Hc) as [raw Hraw].
  assert (StronglySorted (ge_key cv_contourArea) contours) as Hs.
  { rewrite Hraw. apply sorted_desc_sorted. intros y Hy.
    apply Hnan. rewrite Hraw. now apply sorted_desc_In. }
  destruct (scan_contours_cases min_area_ratio small scale (rows img)
              (cols img) contours)
    as [[Hall E]|(pre & c & post & r' & E & Hpre & Hq & Er & Es)].
  - rewrite E. discriminate.
  - rewrite Es. intros [= <-]. exists c.
    split; [rewrite E; apply in_or_app; right; left; reflexivity|].
    split; [exact Hq|]. split; [exact Er|].
    intros c' Hin Hq'. rewrite E in Hin, Hs.
    apply in_app_or in Hin. destruct Hin as [Hin|[<-|Hin]].
    + rewrite (Hpre c' Hin) in Hq'. discriminate.
    + apply SFltb_irrefl.
    + apply sorted_after in Hs. rewrite Forall_forall in Hs.
      now apply Hs.
Qed.

Lemma auto_detect_corners_largest_witness :
  exists c, In c [quad_contour; small_contour] /\
    qualifies (cv := quad_cv) default_min_area_ratio frame100 c = true /\
    order_points (approx_points f64_one (contour_approx (cv := quad_cv) c))
    = Ok (mkRect (ipt 10 10) (ipt 90 12) (ipt 88 80) (ipt 12 78)) /\
    forall c', In c' [quad_contour; small_contour] ->
      qualifies (cv := quad_cv) default_min_area_ratio frame100 c' = true ->
      SFltb (cv_contourArea (OpenCV := quad_cv) c)
            (cv_contourArea (OpenCV := quad_cv) c') = false.
Proof.
  apply (auto_detect_corners_largest (cv := quad_cv) frame100 frame100
           default_min_area_ratio f64_one default_downscale
           [quad_contour; small_contour]).
  - vm_compute. reflexivity.
  - intros c [<-|[<-|[]]]; vm_compute; reflexivity.
  - vm_compute. reflexivity.
Defined.

(** ** auto_detect_corners on an empty image *)

(** X3.  An image without rows and columns makes [auto_detect_corners]
    raise [ZeroDivisionError] at [downscale / max(h, w)], before any OpenCV
    function is called. *)
Theorem auto_detect_corners_empty `{cv : OpenCV} (img : Image)
    (min_area_ratio : float) (downscale : Z) :
  Z.max (rows img) (cols img) = 0 ->
  auto_detect_corners img min_area_ratio downscale = Raise ZeroDivisionError.
Proof.
  intros H. unfold auto_detect_corners, detect_candidates, py_truediv.
  rewrite H. reflexivity.
Qed.

Lemma auto_detect_corners_empty_witness :
  auto_detect_corners (cv := toy_cv) empty_image default_min_area_ratio
    default_downscale = Raise ZeroDivisionError.
Proof.
  apply (auto_detect_corners_empty (cv := toy_cv) empty_image). reflexivity.
Defined.

(** ** Checks over a range of integers *)

Lemma all_from_spec (f : Z -> bool) (n : nat) :
  forall lo, all_from f lo n = true ->
  forall x, lo <= x < lo + Z.of_nat n -> f x = true.
Proof.
  induction n as [|n IH]; intros lo H x Hx; [lia|].
  cbn [all_from] in H. apply andb_true_iff in H. destruct H as [H0 H1].
  destruct (Z.eq_dec x lo) as [->|Hne]; [exact H0|].
  apply (IH (lo + 1) H1). lia.
Qed.

Lemma all_from_one (f : Z -> bool) (hi : Z) :
  all_from f 1 (Z.to_nat hi) = true ->
  forall x, 1 <= x <= hi -> f x = true.
Proof.
  intros H x Hx. apply (all_from_spec f (Z.to_nat hi) 1 H).
  rewrite Z2Nat.id; lia.
Qed.

(** ** apply_denoise: the window sizes *)

Lemma slider_float_exact (v : Z) :
  1 <= v <= 200 -> trunc (F64.of_Z v) = Ok v.
Proof.
  intros Hv.
  pose proof (forallb_range slider_float_ok 200 ltac:(vm_compute; reflexivity)
                v ltac:(lia)) as H.
  unfold slider_float_ok in H.
  destruct (trunc (F64.of_Z v)) as [n|]; [|discriminate].
  apply Z.eqb_eq in H. now subst.
Qed.

(** X4.  [apply_denoise] raises [ValueError] on a NaN strength and
    [OverflowError] on an infinite one, without calling OpenCV; on every
    other strength it calls the filter with a template window between 3
    and 7 and the odd search window [2 * template + 1] (between 7 and 15).
    For the slider values 5..25 the template window is [min(7, v)]. *)
Theorem apply_denoise_windows `{cv : OpenCV} (img : Image) (strength : float) :
  match strength with
  | S754_nan => apply_denoise img strength = Raise ValueError
  | S754_infinity _ => apply_denoise img strength = Raise OverflowError
  | _ =>
      exists t, 3 <= t <= 7 /\
        apply_denoise img strength
        = cv_fastNlMeansDenoisingColored img strength strength t (2 * t + 1)
  end /\
  (forall v, 5 <= v <= 25 ->
     apply_denoise img (F64.of_Z v)
     = cv_fastNlMeansDenoisingColored img (F64.of_Z v) (F64.of_Z v)
         (Z.min 7 v) (2 * Z.min 7 v + 1)).
Proof.
  split.
  - destruct strength as [s|s| |s m e]; try reflexivity.
    + exists 3. split; [lia|]. reflexivity.
    + unfold apply_denoise.
      destruct (trunc (S754_finite s m e)) as [t|] eqn:Ht; [|discriminate].
      cbn [bind]. exists (Z.max 3 (Z.min 7 t)). split; [lia|].
      f_equal. lia.
  - intros v Hv. unfold apply_denoise.
    rewrite slider_float_exact by lia. cbn [bind]. f_equal; lia.
Qed.

(** ** apply_sharpen for every amount *)

Lemma cv_addWeighted_shape `{cv : OpenCV} (src1 src2 : Image)
    (alpha beta gamma : float) :
  same_shape src1 src2 = true ->
  exists out, cv_addWeighted src1 alpha src2 beta gamma = Ok out /\
    same_shape src1 out = true.
Proof.
  intros Hs. unfold cv_addWeighted. rewrite Hs. eexists. split; [reflexivity|].
  unfold same_shape in *. cbn [rows cols chans data].
  rewrite !Z.eqb_refl. cbn [andb].
  apply andb_true_iff in Hs as [_ Hlen]. apply Nat.eqb_eq in Hlen.
  apply Nat.eqb_eq. now rewrite add_weighted_data_length.
Qed.

(** The kernels can differ by one unit where the exact weighted sum lies
    halfway between two integers.  At amount 1.3 the bytes 172 and 7 give
    221 under every kernel, although 172 * 1.3 - 7 * 0.3 = 221.5 rounds to
    the even 222; the bytes 178 and 33 give 222 with both products rounded
    and 221 with the first product fused into the addition. *)
Lemma add_weighted_px_kernels :
  let alpha := tenths 13 in
  let beta := F64.sub (F64.of_Z 1) alpha in
  (forall k, add_weighted_px k alpha beta f64_zero (byte_of_Z 172)
               (byte_of_Z 7) = byte_of_Z 221) /\
  add_weighted_px Unfused alpha beta f64_zero (byte_of_Z 178) (byte_of_Z 33)
  = byte_of_Z 222 /\
  add_weighted_px FusedFirst alpha beta f64_zero (byte_of_Z 178) (byte_of_Z 33)
  = byte_of_Z 221.
Proof.
  cbv zeta. split; [intros k; destruct k; vm_compute; reflexivity|].
  split; vm_compute; reflexivity.
Qed.

(** X5.  Whatever the amount, when the blur returns an image of the shape
    of its input, [apply_sharpen] returns the weighted sum of
    [cv2.addWeighted] as it is: the final [np.clip(...).astype(np.uint8)]
    changes no byte, the result has the shape of the input, and each of
    its bytes is the float32 weighted sum of the two bytes at its index,
    rounded and saturated, by the kernel that computes this index. *)
Theorem apply_sharpen_shape `{cv : OpenCV} (img blurred : Image)
    (amount sigma : float) :
  blur_keeps_shape cv ->
  cv_GaussianBlur img (0, 0) sigma = Ok blurred ->
  exists out,
    apply_sharpen img amount sigma = Ok out /\
    cv_addWeighted img amount blurred (F64.sub (F64.of_Z 1) amount) f64_zero
    = Ok out /\
    same_shape img out = true /\
    forall i a b,
      nth_error (data img) i = Some a -> nth_error (data blurred) i = Some b ->
      nth_error (data out) i
      = Some (add_weighted_px (cv_fusion_at i) amount
                (F64.sub (F64.of_Z 1) amount) f64_zero a b).
Proof.
  intros Hcv Hb. unfold apply_sharpen. rewrite Hb. cbn [bind].
  destruct (cv_addWeighted_shape img blurred amount
              (F64.sub (F64.of_Z 1) amount) f64_zero (Hcv _ _ _ _ Hb))
    as (out & E & Hs).
  exists out. rewrite E. cbn [bind]. rewrite np_clip_u8_id.
  split; [reflexivity|]. split; [reflexivity|]. split; [exact Hs|].
  intros i a b Ha Hb'. unfold cv_addWeighted in E.
  rewrite (Hcv _ _ _ _ Hb) in E. injection E as <-. cbn [data].
  now rewrite (add_weighted_data_nth _ _ _ _ _ _ _ _ _ Ha Hb').
Qed.

Lemma apply_sharpen_shape_witness :
  exists out,
    apply_sharpen (cv := toy_cv) two_pixels (tenths 18) (F64.of_Z 5) = Ok out /\
    cv_addWeighted (cv := toy_cv) two_pixels (tenths 18) two_pixels
      (F64.sub (F64.of_Z 1) (tenths 18)) f64_zero = Ok out /\
    same_shape two_pixels out = true /\
    forall i a b,
      nth_error (data two_pixels) i = Some a ->
      nth_error (data two_pixels) i = Some b ->
      nth_error (data out) i
      = Some (add_weighted_px (cv_fusion_at (OpenCV := toy_cv) i) (tenths 18)
                (F64.sub (F64.of_Z 1) (tenths 18)) f64_zero a b).
Proof.
  apply (apply_sharpen_shape (cv := toy_cv) two_pixels two_pixels).
  - exact toy_cv_blur_keeps_shape.
  - reflexivity.
Defined.

Lemma add_weighted_px_zero (k : fusion) (a b : Byte.byte) :
  add_weighted_px k f64_zero f64_one f64_zero a b = b.
Proof.
  unfold add_weighted_px. cbv zeta. rewrite of_float_zero.
  rewrite fma32_zero_weight.
  change (S754_zero false) with (F32.of_float f64_zero) at 1 2 3.
  rewrite !mul_zero_px.
  destruct k.
  - rewrite <- (keep_px FusedSecond b) at 2. reflexivity.
  - rewrite <- (keep_px FusedSecond b) at 2. reflexivity.
  - rewrite <- (keep_px FusedFirst b) at 2. reflexivity.
Qed.

Lemma add_weighted_data_second (f : nat -> fusion) (alpha beta gamma : float) :
  (forall k a b, add_weighted_px k alpha beta gamma a b = b) ->
  forall d1 d2 i, length d1 = length d2 ->
    add_weighted_data f i alpha beta gamma d1 d2 = d2.
Proof.
  intros Hf. induction d1 as [|a d1 IH]; intros [|b d2] i Hlen;
    try discriminate; [reflexivity|].
  cbn [add_weighted_data]. rewrite Hf, IH; [reflexivity|].
  simpl in Hlen. congruence.
Qed.

(** X6.  With [amount = 0.0] the weights are 0 on the original and 1 on
    the blurred copy: [apply_sharpen] returns the blurred image, byte for
    byte. *)
Theorem apply_sharpen_amount_zero `{cv : OpenCV} (img blurred : Image)
    (sigma : float) :
  blur_keeps_shape cv ->
  cv_GaussianBlur img (0, 0) sigma = Ok blurred ->
  apply_sharpen img f64_zero sigma = Ok blurred.
Proof.
  intros Hcv Hb. unfold apply_sharpen. rewrite Hb. cbn [bind].
  assert (F64.sub (F64.of_Z 1) f64_zero = f64_one) as ->
    by (vm_compute; reflexivity).
  pose proof (Hcv _ _ _ _ Hb) as Hs.
  unfold cv_addWeighted. rewrite Hs. cbn [bind]. rewrite np_clip_u8_id.
  unfold same_shape in Hs.
  apply andb_true_iff in Hs as [Hs Hlen].
  apply andb_true_iff in Hs as [Hs Hc].
  apply andb_true_iff in Hs as [Hr Hw].
  apply Z.eqb_eq in Hr, Hw, Hc. apply Nat.eqb_eq in Hlen.
  rewrite add_weighted_data_second;
    [|exact add_weighted_px_zero|exact Hlen].
  rewrite Hr, Hw, Hc. destruct blurred; reflexivity.
Qed.

Lemma apply_sharpen_amount_zero_witness :
  apply_sharpen (cv := toy_cv) two_pixels f64_zero (F64.of_Z 5)
  = Ok two_pixels.
Proof.
  apply (apply_sharpen_amount_zero (cv := toy_cv) two_pixels two_pixels).
  - exact toy_cv_blur_keeps_shape.
  - reflexivity.
Defined.

Lemma sharpen_flat_px (k : fusion) (a : Byte.byte) (v : Z) :
  0 <= v <= 30 ->
  add_weighted_px k (tenths v) (F64.sub (F64.of_Z 1) (tenths v)) f64_zero a a
  = a.
Proof.
  intros Hv.
  assert (sharpen_flat_ok v = true) as H.
  { apply (all_from_spec sharpen_flat_ok 31 0); [vm_compute; reflexivity|].
    change (Z.of_nat 31) with 31. lia. }
  unfold sharpen_flat_ok in H. cbv zeta in H.
  rewrite forallb_forall in H.
  assert (In k [Unfused; FusedFirst; FusedSecond]) as Hk
    by (destruct k; simpl; auto).
  specialize (H k Hk).
  pose proof (Byte.to_N_bounded a) as Hb.
  pose proof (all_from_spec _ 256 0 H (Z.of_N (Byte.to_N a))) as K.
  cbv beta in K. rewrite N2Z.id, Byte.of_to_N in K.
  apply Byte.byte_dec_bl, K. change (Z.of_nat 256) with 256. lia.
Qed.

Lemma Ok_inj {A : Type} (a b : A) : Ok a = Ok b -> a = b.
Proof. congruence. Qed.

(** X7.  For every slider amount [v / 10.0] with [v] from 0 to 30 (the
    default 1.8 included), sharpening leaves untouched every channel value
    that the blur left untouched: flat regions keep their bytes. *)
Theorem apply_sharpen_flat `{cv : OpenCV} (img blurred out : Image)
    (sigma : float) (v : Z) (i : nat) (a : Byte.byte) :
  0 <= v <= 30 ->
  cv_GaussianBlur img (0, 0) sigma = Ok blurred ->
  apply_sharpen img (tenths v) sigma = Ok out ->
  nth_error (data img) i = Some a ->
  nth_error (data blurred) i = Some a ->
  nth_error (data out) i = Some a.
Proof.
  intros Hv Hb. unfold apply_sharpen. rewrite Hb. cbn [bind].
  unfold cv_addWeighted. destruct (same_shape img blurred); [|discriminate].
  cbn [bind]. rewrite np_clip_u8_id. intros Hout Ha Hb'.
  apply Ok_inj in Hout. subst out. cbn [data].
  rewrite (add_weighted_data_nth _ _ _ _ _ _ _ _ _ Ha Hb').
  now rewrite sharpen_flat_px.
Qed.

Lemma apply_sharpen_flat_witness :
  nth_error
    (data (mkImage 1 2 3 [Byte.x10; Byte.x20; Byte.x30;
                          Byte.xff; Byte.x00; Byte.x7f])) 3
  = Some Byte.xff.
Proof.
  apply (apply_sharpen_flat (cv := toy_cv) two_pixels two_pixels
           (mkImage 1 2 3 [Byte.x10; Byte.x20; Byte.x30;
                           Byte.xff; Byte.x00; Byte.x7f])
           (F64.of_Z 5) 18 3 Byte.xff);
    try reflexivity; lia.
Defined.

(** ** screen_to_pts with a zero scale *)

Lemma div_by_zero_not_finite (y : float) (s : bool) :
  is_finite (F32.div y (S754_zero s)) = false.
Proof. destruct y as [sy|sy| |sy my ey]; reflexivity. Qed.

(** X8.  [screen_to_pts] has no guard on the scale: when the scale is zero
    as a float32 (0.0, -0.0, or a Python float too small for float32) it
    raises nothing and returns as many points as it was given, none of
    whose coordinates is finite.  In particular no point comes back from
    [pts_to_screen] followed by [screen_to_pts] at such a scale. *)
Theorem screen_to_pts_zero_scale (pts : list point)
    (scale offset_x offset_y : float) (s : bool) :
  F32.of_float scale = S754_zero s ->
  length (screen_to_pts pts scale offset_x offset_y) = length pts /\
  (forall p, In p (screen_to_pts pts scale offset_x offset_y) ->
     is_finite (px p) = false /\ is_finite (py p) = false) /\
  (forall p,
     In p (screen_to_pts (pts_to_screen pts scale offset_x offset_y)
             scale offset_x offset_y) ->
     is_finite (px p) = false /\ is_finite (py p) = false).
Proof.
  intros Hs.
  assert (forall l p, In p (screen_to_pts l scale offset_x offset_y) ->
            is_finite (px p) = false /\ is_finite (py p) = false) as H.
  { intros l p Hp. unfold screen_to_pts in Hp.
    apply in_map_iff in Hp. destruct Hp as (q & <- & _).
    rewrite Hs. cbn [px py fst snd].
    split; apply div_by_zero_not_finite. }
  split; [unfold screen_to_pts; apply length_map|].
  split; apply H.
Qed.

Lemma screen_to_pts_zero_scale_witness :
  length (screen_to_pts [ipt 3 4; ipt 0 0] f64_zero f64_one f64_one)
  = length [ipt 3 4; ipt 0 0] /\
  (forall p, In p (screen_to_pts [ipt 3 4; ipt 0 0] f64_zero f64_one f64_one) ->
     is_finite (px p) = false /\ is_finite (py p) = false) /\
  (forall p,
     In p (screen_to_pts
             (pts_to_screen [ipt 3 4; ipt 0 0] f64_zero f64_one f64_one)
             f64_zero f64_one f64_one) ->
     is_finite (px p) = false /\ is_finite (py p) = false).
Proof.
  apply (screen_to_pts_zero_scale [ipt 3 4; ipt 0 0] f64_zero f64_one f64_one
           false).
  reflexivity.
Defined.

(** ** get_display_image with the viewer's bound *)

Lemma display_side (side : Z) :
  1 <= side <= 10000 -> display_side_ok DISPLAY_MAX_DIM side = true.
Proof.
  intros H.
  apply (all_from_one (display_side_ok DISPLAY_MAX_DIM) 10000);
    [vm_compute; reflexivity|lia].
Qed.

(** X9.  [get_display_image] returns the image itself when its larger
    side is within the bound.  With the viewer's bound 1200 and a larger
    side from 1201 to 10000, the resize it asks for has, along the larger
    side, 1200 pixels or 1199, never more; 1199 does occur, for instance
    for a side of 2191. *)
Theorem get_display_image_bound `{cv : OpenCV} (img out : Image) :
  resize_honours_size cv ->
  get_display_image img DISPLAY_MAX_DIM = Ok out ->
  (Z.max (rows img) (cols img) <= DISPLAY_MAX_DIM -> out = img) /\
  (DISPLAY_MAX_DIM < Z.max (rows img) (cols img) <= 10000 ->
   (rows img <= cols img -> cols out = 1200 \/ cols out = 1199) /\
   (cols img <= rows img -> rows out = 1200 \/ rows out = 1199)) /\
  display_side_ok DISPLAY_MAX_DIM 2191 = true /\
  trunc (mul_int_float 2191 (F64.div (F64.of_Z 1200) (F64.of_Z 2191)))
  = Ok 1199.
Proof.
  intros Hcv Hout. split; [|split; [|split; vm_compute; reflexivity]].
  - intros Hle. unfold get_display_image in Hout.
    apply Z.leb_le in Hle. rewrite Hle in Hout. now apply Ok_inj in Hout.
  - intros [Hlt Hle]. unfold get_display_image in Hout.
    assert ((Z.max (rows img) (cols img) <=? DISPLAY_MAX_DIM) = false) as E
      by (apply Z.leb_gt; exact Hlt).
    rewrite E in Hout.
    pose proof (display_side (Z.max (rows img) (cols img))
                  ltac:(unfold DISPLAY_MAX_DIM in *; lia)) as Hs.
    unfold display_side_ok in Hs.
    destruct (py_truediv DISPLAY_MAX_DIM (Z.max (rows img) (cols img)))
      as [scale|]; [|discriminate].
    cbn [bind] in Hout.
    destruct (trunc (mul_int_float (cols img) scale)) as [nw|] eqn:Hw;
      [|discriminate].
    cbn [bind] in Hout.
    destruct (trunc (mul_int_float (rows img) scale)) as [nh|] eqn:Hh;
      [|discriminate].
    cbn [bind] in Hout. apply Hcv in Hout. destruct Hout as [-> ->].
    unfold DISPLAY_MAX_DIM in *. split; intros Hmax.
    + rewrite Z.max_r, Hw in Hs by lia.
      apply orb_true_iff in Hs. rewrite !Z.eqb_eq in Hs. lia.
    + rewrite Z.max_l, Hh in Hs by lia.
      apply orb_true_iff in Hs. rewrite !Z.eqb_eq in Hs. lia.
Qed.

Lemma get_display_image_bound_witness :
  (Z.max 2 2191 <= DISPLAY_MAX_DIM -> blank 1 1199 = mkImage 2 2191 3 []) /\
  (DISPLAY_MAX_DIM < Z.max 2 2191 <= 10000 ->
   (2 <= 2191 -> cols (blank 1 1199) = 1200 \/ cols (blank 1 1199) = 1199) /\
   (2191 <= 2 -> rows (blank 1 1199) = 1200 \/ rows (blank 1 1199) = 1199)) /\
  display_side_ok DISPLAY_MAX_DIM 2191 = true /\
  trunc (mul_int_float 2191 (F64.div (F64.of_Z 1200) (F64.of_Z 2191)))
  = Ok 1199.
Proof.
  apply (get_display_image_bound (cv := toy_cv) (mkImage 2 2191 3 [])
           (blank 1 1199)).
  - intros img w h i out. cbn.
    destruct ((0 <? w) && (0 <? h)); [|discriminate].
    intros [= <-]. split; reflexivity.
  - vm_compute. reflexivity.
Defined.

(** ** The zoom stays within its limits *)

Lemma SFltb_leb (a b : float) : SFltb a b = true -> SFleb a b = true.
Proof.
  unfold SFltb, SFleb. destruct (SFcompare a b) as [[| |]|]; easy.
Qed.

Lemma zoom_clamp (x : float) :
  SFleb zoom_min (py_max zoom_min (py_min zoom_max x)) = true /\
  SFleb (py_max zoom_min (py_min zoom_max x)) zoom_max = true.
Proof.
  unfold py_max, py_min.
  destruct (SFltb x zoom_max) eqn:Hx.
  - destruct (SFltb zoom_min x) eqn:Hm.
    + split; now apply SFltb_leb.
    + split; vm_compute; reflexivity.
  - destruct (SFltb zoom_min zoom_max) eqn:Hm; split; vm_compute; reflexivity.
Qed.

(** X10.  [_apply_zoom] either leaves the view as it is (a change of scale
    below 0.01) or sets a scale within [0.2, 5.0], whatever the factor and
    the anchor, NaN included; it raises only [ZeroDivisionError], and only
    when the current scale is zero. *)
Theorem apply_zoom_limits (v : View) (factor anchor_x anchor_y : float) :
  match apply_zoom v factor anchor_x anchor_y with
  | Ok v' =>
      v' = v \/
      (SFleb zoom_min (v_scale v') = true /\
       SFleb (v_scale v') zoom_max = true)
  | Raise e =>
      e = ZeroDivisionError /\ exists s, v_scale v = S754_zero s
  end.
Proof.
  unfold apply_zoom.
  destruct (SFltb _ zoom_step_min); [left; reflexivity|].
  unfold py_fdiv.
  destruct (v_scale v) as [s|s| |s m e] eqn:Hs; cbn [bind];
    try (right; cbn [v_scale]; apply zoom_clamp).
  split; [reflexivity|eauto].
Qed.

(** ** Output names keep the extension *)

Section FileNameProperties.
Import Ascii String.
Local Open Scope string_scope.

Lemma str_length_app (a b : string) :
  String.length (a ++ b) = (String.length a + String.length b)%nat.
Proof. induction a as [|c a IH]; cbn; [reflexivity|now rewrite IH]. Qed.

Lemma str_app_assoc (a b c : string) : (a ++ b) ++ c = a ++ b ++ c.
Proof. induction a as [|x a IH]; cbn; [reflexivity|now rewrite IH]. Qed.

Lemma str_app_empty_r (a : string) : a ++ "" = a.
Proof. induction a as [|x a IH]; cbn; [reflexivity|now rewrite IH]. Qed.

Lemma rfind_dot_app (a b : string) :
  rfind_dot (a ++ b)
  = match rfind_dot b with
    | Some j => Some (String.length a + j)%nat
    | None => rfind_dot a
    end.
Proof.
  induction a as [|c a IH]; cbn.
  - destruct (rfind_dot b); reflexivity.
  - rewrite IH. destruct (rfind_dot b); [reflexivity|].
    destruct (rfind_dot a); reflexivity.
Qed.

Lemma str_take_drop (n : nat) (s : string) : str_take n s ++ str_drop n s = s.
Proof.
  revert s. induction n as [|n IH]; intros [|c s]; cbn; try reflexivity.
  now rewrite IH.
Qed.

Lemma str_take_app (a b : string) : str_take (String.length a) (a ++ b) = a.
Proof. induction a as [|c a IH]; cbn; [now destruct b|now rewrite IH]. Qed.

Lemma str_drop_app (a b : string) : str_drop (String.length a) (a ++ b) = b.
Proof. induction a as [|c a IH]; cbn; [reflexivity|exact IH]. Qed.

Lemma rfind_dot_split (s : string) (i : nat) :
  rfind_dot s = Some i ->
  String.length (str_take i s) = i /\
  rfind_dot (str_drop i s) = Some 0%nat /\
  (i < String.length s)%nat.
Proof.
  revert i. induction s as [|c s IH]; intros i; cbn; [discriminate|].
  destruct (rfind_dot s) as [j|] eqn:Hj.
  - intros [= <-]. destruct (IH j eq_refl) as (H1 & H2 & H3).
    cbn. rewrite H1. repeat split; [exact H2|lia].
  - destruct (Ascii.eqb c ".") eqn:Hc; [|discriminate].
    intros [= <-]. cbn. rewrite Hj, Hc. repeat split. lia.
Qed.

(** What a non-empty suffix looks like. *)
Lemma path_suffix_inv (name : string) :
  path_suffix name <> "" ->
  exists i,
    rfind_dot name = Some i /\ has_suffix name i = true /\
    path_suffix name = str_drop i name /\ path_stem name = str_take i name.
Proof.
  unfold path_suffix, path_stem. intros H.
  destruct (rfind_dot name) as [i|]; [|congruence].
  destruct (has_suffix name i) eqn:Hi; [|congruence].
  exists i. repeat split; auto.
Qed.

Lemma split_slash_nonempty (s : string) : split_slash s <> [].
Proof.
  induction s as [|c s IH]; cbn; [discriminate|].
  destruct (Ascii.eqb c "/"); [discriminate|].
  destruct (split_slash s); discriminate.
Qed.

Lemma no_slash_app (a b : string) :
  no_slash (a ++ b) = no_slash a && no_slash b.
Proof.
  induction a as [|c a IH]; cbn; [reflexivity|].
  rewrite IH. now rewrite andb_assoc.
Qed.

Lemma split_slash_no_slash (s : string) :
  no_slash s = true -> split_slash s = [s].
Proof.
  induction s as [|c s IH]; cbn; [reflexivity|].
  intros H. apply andb_true_iff in H. destruct H as [Hc Hs].
  apply negb_true_iff in Hc. rewrite Hc, (IH Hs). reflexivity.
Qed.

(** A string without [/] in front of [t] goes to the first piece of
    [t]. *)
Lemma split_slash_app_l (a t : string) (h : string) (tl : list string) :
  no_slash a = true -> split_slash t = h :: tl ->
  split_slash (a ++ t) = (a ++ h) :: tl.
Proof.
  intros Ha Ht. induction a as [|c a IH]; cbn; [exact Ht|].
  cbn in Ha. apply andb_true_iff in Ha. destruct Ha as [Hc Ha].
  apply negb_true_iff in Hc. rewrite Hc, (IH Ha). reflexivity.
Qed.

(** A string without [/] after [t] goes to the last piece of [t]. *)
Lemma split_slash_app_r (t e : string) :
  no_slash e = true ->
  exists init L,
    split_slash t = (init ++ [L])%list /\
    split_slash (t ++ e) = (init ++ [(L ++ e)%string])%list.
Proof.
  intros He. induction t as [|c t (init & L & H1 & H2)]; cbn.
  - exists [], "". split; [reflexivity|]. now apply split_slash_no_slash.
  - destruct (Ascii.eqb c "/").
    + exists ("" :: init), L. rewrite H1, H2. split; reflexivity.
    + rewrite H1, H2. destruct init as [|u init]; cbn.
      * exists [], (String c L). split; reflexivity.
      * exists (String c u :: init), L. split; reflexivity.
Qed.

Lemma ends_with_slash_cons (c : ascii) (s : string) :
  s <> "" -> ends_with_slash (String c s) = ends_with_slash s.
Proof. destruct s; [congruence|reflexivity]. Qed.

Lemma no_slash_not_ends (s : string) :
  no_slash s = true -> ends_with_slash s = false.
Proof.
  induction s as [|c s IH]; [reflexivity|]. cbn [no_slash]. intros H.
  apply andb_true_iff in H. destruct H as [Hc Hs].
  apply negb_true_iff in Hc.
  destruct s as [|d s]; [exact Hc|].
  rewrite ends_with_slash_cons by discriminate. auto.
Qed.

Lemma cons_snoc_inv {A : Type} (x : A) (l init : list A) (L : A) :
  x :: l = (init ++ [L])%list ->
  (init = [] /\ l = [] /\ x = L) \/
  (exists init', init = x :: init' /\ l = (init' ++ [L])%list).
Proof.
  destruct init as [|a init]; cbn; intros [= -> H]; [left|right]; eauto.
Qed.

(** The pieces of a string cut at its slashes: a single piece is the
    string itself, and the last piece is empty only for the empty string
    and for a string that ends with a slash. *)
Lemma split_slash_pieces (t : string) :
  forall init L, split_slash t = (init ++ [L])%list ->
    (init = [] -> t = L) /\
    (L = "" <-> t = "" \/ ends_with_slash t = true).
Proof.
  induction t as [|c t IH]; intros init L; cbn [split_slash].
  - intros H. destruct (cons_snoc_inv _ _ _ _ H) as [(-> & _ & <-)|(i & _ & K)].
    + split; [reflexivity|]. split; auto.
    + destruct i; discriminate.
  - destruct (Ascii.eqb c "/") eqn:Hc.
    + intros H.
      destruct (cons_snoc_inv _ _ _ _ H) as [(_ & K & _)|(i & -> & K)];
        [now apply split_slash_nonempty in K|].
      split; [discriminate|].
      destruct (IH i L K) as [I1 I2].
      destruct t as [|d t].
      * cbn in K. destruct (cons_snoc_inv _ _ _ _ K) as [(_ & _ & <-)|(j & _ & K')];
          [|destruct j; discriminate].
        split; [intros _; right; exact Hc|reflexivity].
      * rewrite ends_with_slash_cons by discriminate. rewrite I2.
        split; [intros [E|E]; [discriminate|now right]|].
        intros [E|E]; [discriminate|now right].
    + destruct (split_slash t) as [|h tl] eqn:Ht;
        [now apply split_slash_nonempty in Ht|].
      intros H.
      destruct (cons_snoc_inv _ _ _ _ H) as [(-> & -> & <-)|(i & -> & ->)].
      * destruct (IH [] h eq_refl) as [I1 I2].
        pose proof (I1 eq_refl) as Et. subst h.
        split; [reflexivity|]. split; [discriminate|].
        intros [E|E]; [discriminate|]. exfalso.
        destruct t as [|d t]; [cbn in E; congruence|].
        rewrite ends_with_slash_cons in E by discriminate.
        assert (String d t = "") as K by (apply I2; now right).
        discriminate.
      * split; [discriminate|].
        destruct (IH (h :: i) L eq_refl) as [_ I2].
        assert (t <> "") as Hne
          by (intros ->; cbn in Ht; destruct i; discriminate).
        rewrite ends_with_slash_cons by exact Hne. rewrite I2.
        split; [intros [E|E]; [contradiction|now right]|].
        intros [E|E]; [discriminate|now right].
Qed.

Lemma str_app_inv_l (a b c : string) : a ++ b = a ++ c -> b = c.
Proof. induction a as [|x a IH]; cbn; [auto|]. intros [= H]. auto. Qed.

Lemma str_app_inv_r (a b c : string) : a ++ c = b ++ c -> a = b.
Proof.
  revert b. induction a as [|x a IH]; intros [|y b] H; cbn in H.
  - reflexivity.
  - exfalso. apply (f_equal String.length) in H. cbn in H.
    rewrite str_length_app in H. lia.
  - exfalso. apply (f_equal String.length) in H. cbn in H.
    rewrite str_length_app in H. lia.
  - injection H as -> H. f_equal. now apply IH.
Qed.

Lemma keep_part_long (x : string) :
  (2 <= String.length x)%nat -> keep_part x = true.
Proof. destruct x as [|c [|d x]]; cbn; try lia. intros _.
  unfold keep_part. cbn. destruct (Ascii.eqb c "."); reflexivity.
Qed.

(** The stem and the extension of a piece followed by an extension. *)
Lemma name_with_extension (L e : string) :
  L <> "" -> is_extension e ->
  path_suffix (L ++ e) = e /\ path_stem (L ++ e) = L.
Proof.
  intros HL [Hd Hlen].
  assert (0 < String.length L)%nat as HlL
    by (destruct L; [congruence|cbn; lia]).
  unfold path_suffix, path_stem. rewrite rfind_dot_app, Hd, Nat.add_0_r.
  assert (has_suffix (L ++ e) (String.length L) = true) as ->.
  { unfold has_suffix. rewrite str_length_app. apply andb_true_iff.
    split; apply Nat.ltb_lt; lia. }
  split; [apply str_drop_app|apply str_take_app].
Qed.

(** A name with an extension is a non-empty stem followed by an
    extension. *)
Lemma name_parts (name : string) :
  path_suffix name <> "" ->
  path_stem name <> "" /\ is_extension (path_suffix name) /\
  path_stem name ++ path_suffix name = name.
Proof.
  intros H. destruct (path_suffix_inv name H) as (i & Hi & Hs & -> & ->).
  destruct (rfind_dot_split name i Hi) as (Hl & Hd & Hlt).
  pose proof (str_take_drop i name) as Hname.
  assert (String.length name
          = (i + String.length (str_drop i name))%nat) as Hlen.
  { rewrite <- Hname at 1. rewrite str_length_app, Hl. reflexivity. }
  unfold has_suffix in Hs. apply andb_true_iff in Hs. destruct Hs as [Hs1 Hs2].
  apply Nat.ltb_lt in Hs1, Hs2.
  split; [|split; [split; [exact Hd|lia]|exact Hname]].
  intros E. rewrite E in Hl. cbn in Hl. lia.
Qed.

(** The components that [build_output_path] appends to the output
    directory: with the suffix cut at its slashes into [init] and a last
    piece [L], one component when there is no slash, and otherwise the
    stem with the first piece, the middle pieces, and the last piece with
    the extension, the empty and [.] ones dropped. *)
Lemma build_output_path_parts (p : PurePath) (name sfx : string)
    (dir : PurePath) :
  path_name p = name ->
  path_suffix name <> "" -> no_slash name = true ->
  exists init L,
    split_slash sfx = (init ++ [L])%list /\
    build_output_path p dir sfx
    = mkPath (p_root dir)
        (p_parts dir ++
         match init with
         | [] => [(path_stem name ++ L ++ path_suffix name)%string]
         | u :: mid =>
             filter keep_part ((path_stem name ++ u)%string :: mid)
             ++ [(L ++ path_suffix name)%string]
         end)%list.
Proof.
  intros Hp H Hn. destruct (name_parts name H) as (Hstem & [Hd Hlen] & Hname).
  rewrite <- Hname, no_slash_app in Hn. apply andb_true_iff in Hn.
  destruct Hn as [Hns Hne].
  destruct (split_slash_app_r sfx (path_suffix name) Hne)
    as (init & L & H1 & H2).
  exists init, L. split; [exact H1|].
  unfold build_output_path, joinpath. cbv zeta. rewrite Hp.
  assert (starts_with_slash (path_stem name ++ sfx ++ path_suffix name)
          = false) as ->.
  { destruct (path_stem name) as [|c s]; [congruence|]. cbn in Hns |- *.
    apply andb_true_iff in Hns. destruct Hns as [Hc _].
    now apply negb_true_iff in Hc. }
  f_equal. f_equal. unfold parse_rel.
  destruct init as [|u mid].
  - cbn [app] in H2.
    rewrite (split_slash_app_l _ _ _ _ Hns H2). cbn [filter].
    rewrite keep_part_long; [reflexivity|].
    rewrite !str_length_app. lia.
  - cbn [app] in H2.
    rewrite (split_slash_app_l _ _ _ _ Hns H2).
    rewrite app_comm_cons.
    rewrite filter_app. f_equal. cbn [filter].
    rewrite keep_part_long; [reflexivity|].
    rewrite str_length_app. lia.
Qed.

Lemma last_snoc {A : Type} (l : list A) (x d : A) :
  last (l ++ [x])%list d = x.
Proof. induction l as [|a [|b l] IH]; cbn in *; auto. Qed.

Lemma path_name_snoc (r : string) (l : list string) (x : string) :
  path_name (mkPath r (l ++ [x])%list) = x.
Proof. unfold path_name. cbn [p_parts]. apply last_snoc. Qed.

Lemma str_app_nonempty (a b : string) : a <> "" -> a ++ b <> "".
Proof. destruct a; [congruence|discriminate]. Qed.

(** Every piece of a string cut at its slashes is without slash, and so
    is the name of a parsed path. *)
Lemma split_slash_pieces_no_slash (s : string) :
  Forall (fun x => no_slash x = true) (split_slash s).
Proof.
  induction s as [|c s IH]; cbn [split_slash].
  - repeat constructor.
  - destruct (Ascii.eqb c "/") eqn:Hc; [constructor; [reflexivity|exact IH]|].
    destruct (split_slash s) as [|h tl]; [repeat constructor; cbn; now rewrite Hc|].
    inversion IH as [|x l Hh Htl]; subst.
    constructor; [cbn; now rewrite Hc, Hh|exact Htl].
Qed.

Lemma parse_path_name_no_slash (s : string) :
  no_slash (path_name (parse_path s)) = true.
Proof.
  unfold path_name, parse_path, parse_rel. cbn [p_parts].
  pose proof (split_slash_pieces_no_slash s) as H.
  induction (split_slash s) as [|x l IH]; [reflexivity|].
  inversion H as [|y l' Hx Hl]; subst. cbn [filter].
  destruct (keep_part x); [|exact (IH Hl)].
  destruct (filter keep_part l) as [|z l'] eqn:Hf; [exact Hx|].
  exact (IH Hl).
Qed.

(** The extension survives any suffix that does not end with a slash. *)
Lemma output_extension_kept (p : PurePath) (name sfx : string)
    (dir : PurePath) :
  path_name p = name ->
  path_suffix name <> "" -> no_slash name = true ->
  ends_with_slash sfx = false ->
  path_suffix (path_name (build_output_path p dir sfx)) = path_suffix name.
Proof.
  intros Hp H Hn He.
  destruct (name_parts name H) as (Hstem & Hext & Hname).
  destruct (build_output_path_parts p name sfx dir Hp H Hn)
    as (init & L & Hsplit & ->).
  destruct (split_slash_pieces sfx init L Hsplit) as [Hone Hlast].
  destruct init as [|u mid].
  - rewrite path_name_snoc, <- str_app_assoc.
    apply name_with_extension; [|exact Hext]. now apply str_app_nonempty.
  - rewrite app_assoc, path_name_snoc.
    apply name_with_extension; [|exact Hext].
    intros E. apply Hlast in E. destruct E as [E|E]; [|congruence].
    subst sfx. cbn in Hsplit. destruct mid; discriminate.
Qed.

(** X11.  For an input path whose name has an extension,
    [build_output_path] keeps the extension whenever the suffix does not
    end with a slash.  With a suffix without slash the output is the
    output directory with one more component, the input's stem followed
    by the suffix and the extension, whose stem is the input's stem
    followed by the suffix (dots included).  With a suffix that ends with
    a slash the name of the output is the bare extension, which pathlib
    reads as a name without extension.  A name is always the
    concatenation of its stem and its extension. *)
Theorem build_output_path_keeps_extension (s sfx : string) (dir : PurePath) :
  path_suffix (path_name (parse_path s)) <> "" ->
  let name := path_name (parse_path s) in
  let out := build_output_path (parse_path s) dir sfx in
  (ends_with_slash sfx = false ->
   path_suffix (path_name out) = path_suffix name) /\
  (no_slash sfx = true ->
   out = mkPath (p_root dir)
           (app (p_parts dir) [path_stem name ++ sfx ++ path_suffix name]) /\
   path_stem (path_name out) = path_stem name ++ sfx) /\
  (ends_with_slash sfx = true ->
   path_name out = path_suffix name /\ path_suffix (path_name out) = "") /\
  path_stem name ++ path_suffix name = name.
Proof.
  intros H. cbv zeta.
  pose proof (parse_path_name_no_slash s) as Hn.
  set (p := parse_path s) in *. set (name := path_name p) in *.
  destruct (name_parts name H) as (Hstem & Hext & Hname).
  destruct (build_output_path_parts p name sfx dir eq_refl H Hn)
    as (init & L & Hsplit & Hbuild).
  destruct (split_slash_pieces sfx init L Hsplit) as [Hone Hlast].
  split; [|split; [|split; [|exact Hname]]].
  - intros He. now apply output_extension_kept.
  - intros Hs. rewrite (split_slash_no_slash sfx Hs) in Hsplit.
    destruct (cons_snoc_inv _ _ _ _ Hsplit) as [(-> & _ & <-)|(i & _ & K)];
      [|destruct i; discriminate].
    rewrite Hbuild. split; [reflexivity|].
    rewrite path_name_snoc, <- str_app_assoc.
    apply name_with_extension; [|exact Hext]. now apply str_app_nonempty.
  - intros He. assert (L = "") as -> by (apply Hlast; now right).
    destruct init as [|u mid]; [rewrite (Hone eq_refl) in He; discriminate|].
    rewrite Hbuild, app_assoc, path_name_snoc. cbn [append].
    split; [reflexivity|].
    destruct Hext as [Hd _]. revert Hd. generalize (path_suffix name) as e.
    intros e Hd. unfold path_suffix. rewrite Hd. reflexivity.
Qed.

Lemma build_output_path_keeps_extension_witness :
  (ends_with_slash "_rect.ified" = false ->
   path_suffix
     (path_name
        (build_output_path (parse_path "in/scan.v2.JPG") out_dir "_rect.ified"))
   = ".JPG") /\
  (no_slash "_rect.ified" = true ->
   build_output_path (parse_path "in/scan.v2.JPG") out_dir "_rect.ified"
   = mkPath "" ["out"; "scan.v2_rect.ified.JPG"] /\
   path_stem
     (path_name
        (build_output_path (parse_path "in/scan.v2.JPG") out_dir "_rect.ified"))
   = "scan.v2_rect.ified") /\
  (ends_with_slash "_rect.ified" = true ->
   path_name
     (build_output_path (parse_path "in/scan.v2.JPG") out_dir "_rect.ified")
   = ".JPG" /\
   path_suffix
     (path_name
        (build_output_path (parse_path "in/scan.v2.JPG") out_dir "_rect.ified"))
   = "") /\
  "scan.v2" ++ ".JPG" = "scan.v2.JPG".
Proof.
  apply (build_output_path_keeps_extension "in/scan.v2.JPG" "_rect.ified"
           out_dir).
  vm_compute. discriminate.
Defined.

(** With the suffix [/] the stem becomes a directory and the output file
    is named by the bare extension: [out/scan/.jpg], a name without
    extension. *)
Lemma build_output_path_slash_suffix :
  build_output_path (parse_path "in/scan.jpg") out_dir "/"
  = mkPath "" ["out"; "scan"; ".jpg"] /\
  path_suffix
    (path_name (build_output_path (parse_path "in/scan.jpg") out_dir "/"))
  = "".
Proof. split; reflexivity. Qed.

Lemma str_app_dot (a b : string) : a <> "" -> a ++ b = "." -> a = ".".
Proof.
  destruct a as [|c [|d a]]; cbn; [congruence| |discriminate].
  intros _ [= -> _]. reflexivity.
Qed.

Lemma keep_part_false (x : string) : keep_part x = false -> x = "" \/ x = ".".
Proof.
  unfold keep_part. intros H. apply andb_false_iff in H.
  destruct H as [H|H]; apply negb_false_iff, String.eqb_eq in H; auto.
Qed.

(** X12.  Two input paths whose names have an extension and that get the
    same output path under the same suffix have the same name: within one
    output directory, files are overwritten only by inputs of the same
    name. *)
Theorem build_output_path_injective (s1 s2 sfx : string) (dir : PurePath) :
  path_suffix (path_name (parse_path s1)) <> "" ->
  path_suffix (path_name (parse_path s2)) <> "" ->
  build_output_path (parse_path s1) dir sfx
  = build_output_path (parse_path s2) dir sfx ->
  path_name (parse_path s1) = path_name (parse_path s2).
Proof.
  intros H1 H2 E.
  pose proof (parse_path_name_no_slash s1) as N1.
  pose proof (parse_path_name_no_slash s2) as N2.
  set (p1 := parse_path s1) in *. set (p2 := parse_path s2) in *.
  set (n1 := path_name p1) in *. set (n2 := path_name p2) in *.
  destruct (name_parts n1 H1) as (S1 & X1 & Hn1).
  destruct (name_parts n2 H2) as (S2 & X2 & Hn2).
  revert E.
  destruct (build_output_path_parts p1 n1 sfx dir eq_refl H1 N1)
    as (i1 & L1 & P1 & ->).
  destruct (build_output_path_parts p2 n2 sfx dir eq_refl H2 N2)
    as (i2 & L2 & P2 & ->).
  rewrite P1 in P2. apply app_inj_tail in P2. destruct P2 as [<- <-].
  intros [= E]. apply app_inv_head in E.
  rewrite <- Hn1, <- Hn2.
  revert S1 X1 S2 X2 E.
  generalize (path_stem n1) as t1, (path_suffix n1) as e1,
    (path_stem n2) as t2, (path_suffix n2) as e2.
  intros t1 e1 t2 e2 S1 X1 S2 X2 E.
  destruct i1 as [|u mid].
  - injection E as E.
    assert (L1 <> "" \/ L1 = "") as [HL | ->]
      by (destruct L1; [right; reflexivity|left; discriminate]).
    + rewrite <- !str_app_assoc in E.
      destruct (name_with_extension (t1 ++ L1) e1
                  (str_app_nonempty _ _ S1) X1) as [A1 B1].
      destruct (name_with_extension (t2 ++ L1) e2
                  (str_app_nonempty _ _ S2) X2) as [A2 B2].
      rewrite E in A1, B1. rewrite A2 in A1. rewrite B2 in B1.
      apply str_app_inv_r in B1. now subst.
    + cbn [append] in E.
      destruct (name_with_extension t1 e1 S1 X1) as [A1 B1].
      destruct (name_with_extension t2 e2 S2 X2) as [A2 B2].
      rewrite E in A1, B1. rewrite A2 in A1. rewrite B2 in B1. now subst.
  - apply app_inj_tail in E. destruct E as [E EL].
    apply str_app_inv_l in EL. subst e2. f_equal.
    cbn [filter] in E.
    destruct (keep_part (t1 ++ u)) eqn:K1, (keep_part (t2 ++ u)) eqn:K2.
    + injection E as E. now apply str_app_inv_r in E.
    + exfalso. apply (f_equal (@List.length string)) in E. cbn in E. lia.
    + exfalso. apply (f_equal (@List.length string)) in E. cbn in E. lia.
    + assert (forall s : string, s <> "" -> keep_part (s ++ u) = false ->
                s = ".") as Hdot.
      { intros s Hs K. apply keep_part_false in K. destruct K as [K|K].
        - destruct s; [congruence|discriminate].
        - now apply str_app_dot in K. }
      now rewrite (Hdot t1 S1 K1), (Hdot t2 S2 K2).
Qed.

Lemma build_output_path_injective_witness :
  build_output_path (parse_path "in/a.png") out_dir "_r"
  = mkPath "" ["out"; "a_r.png"] /\
  build_output_path (parse_path "other//a.png") out_dir "_r"
  = mkPath "" ["out"; "a_r.png"] /\
  path_name (parse_path "in/a.png") = path_name (parse_path "other//a.png").
Proof.
  split; [reflexivity|]. split; [reflexivity|].
  apply (build_output_path_injective "in/a.png" "other//a.png" "_r" out_dir);
    [vm_compute; discriminate|vm_compute; discriminate|reflexivity].
Defined.

(** ** What is saved with the image *)

Lemma str_in_app (x : string) (l1 l2 : list string) :
  str_in x (l1 ++ l2)%list = str_in x l1 || str_in x l2.
Proof. apply existsb_app. Qed.

(** X13.  What [save_image_with_meta] hands to the image writer depends
    on the name only through its lower-cased extension.  For the
    extensions of [SUPPORTED_EXTENSIONS] a non-empty ICC profile is passed
    on unchanged and an empty or missing one is not passed; quality and
    subsampling 0 are set for .jpg and .jpeg only; LZW compression for
    .tif and .tiff only; an EXIF block is passed only for .jpg and .jpeg,
    only with piexif, and is then the rewritten block, a failure of the
    rewriting being swallowed; for any other extension nothing is
    passed. *)
Theorem save_kwargs_by_extension (piexif : PiExif) (name : string)
    (meta : ImageMeta) (quality : Z) :
  let k := save_kwargs piexif name meta quality in
  let ext := extension name in
  (str_in ext SUPPORTED_EXTENSIONS = true ->
   kw_icc_profile k
   = if truthy (icc_profile meta) then icc_profile meta else None) /\
  (str_in ext [".jpg"; ".jpeg"] = true ->
   kw_quality k = Some quality /\ kw_subsampling k = Some 0 /\
   kw_compression k = None) /\
  (str_in ext [".jpg"; ".jpeg"] = false ->
   kw_quality k = None /\ kw_subsampling k = None /\ kw_exif k = None) /\
  (kw_compression k = Some "tiff_lzw" <->
   str_in ext [".tiff"; ".tif"] = true) /\
  (forall b, kw_exif k = Some b ->
     str_in ext [".jpg"; ".jpeg"] = true /\ HAS_PIEXIF piexif = true /\
     exists e, exif_bytes meta = Some e /\ e <> [] /\
               exif_orientation_one piexif e = Ok b) /\
  (str_in ext SUPPORTED_EXTENSIONS = false -> k = no_kwargs).
Proof.
  cbv zeta. unfold save_kwargs, extension.
  set (ext := lower (path_suffix name)).
  change SUPPORTED_EXTENSIONS
    with ([".jpg"; ".jpeg"] ++ [".png"; ".tiff"; ".tif"])%list.
  rewrite str_in_app.
  assert (str_in ext [".tiff"; ".tif"] = true ->
          str_in ext [".jpg"; ".jpeg"] = false /\
          str_in ext [".png"; ".tiff"; ".tif"] = true) as Htif.
  { unfold str_in. cbn [existsb]. rewrite !orb_false_r.
    intros H. apply orb_true_iff in H.
    destruct H as [H|H]; apply String.eqb_eq in H; rewrite H; split;
      reflexivity. }
  destruct (str_in ext [".jpg"; ".jpeg"]) eqn:Hj; cbn [orb].
  - cbn [kw_icc_profile kw_quality kw_subsampling kw_compression kw_exif].
    repeat split; try discriminate; try reflexivity.
    + intros H. destruct (Htif H). discriminate.
    + destruct (HAS_PIEXIF piexif); [reflexivity|]. cbn in H. discriminate.
    + destruct (HAS_PIEXIF piexif); [|cbn in H; discriminate]. cbn [andb] in H.
      destruct (exif_bytes meta) as [[|x e]|]; cbn in H; try discriminate.
      exists (x :: e). repeat split; [discriminate|].
      destruct (exif_orientation_one piexif (x :: e)); congruence.
  - destruct (str_in ext [".png"; ".tiff"; ".tif"]) eqn:Hp.
    + cbn [kw_icc_profile kw_quality kw_subsampling kw_compression kw_exif].
      repeat split; try discriminate; try reflexivity.
      * destruct (str_in ext [".tiff"; ".tif"]); [reflexivity|discriminate].
      * intros ->. reflexivity.
    + repeat split; try discriminate; try reflexivity.
      intros H. destruct (Htif H). discriminate.
Qed.

(** X14.  Saving under the path that [build_output_path] makes from an
    input whose extension is supported, in whatever case, passes a
    non-empty ICC profile on to the writer, for any suffix that does not
    end with a slash. *)
Theorem saved_output_keeps_icc (piexif : PiExif) (s sfx : string)
    (dir : PurePath) (meta : ImageMeta) (quality : Z) :
  str_in (extension (path_name (parse_path s))) SUPPORTED_EXTENSIONS = true ->
  ends_with_slash sfx = false ->
  truthy (icc_profile meta) = true ->
  kw_icc_profile
    (save_kwargs piexif
       (path_name (build_output_path (parse_path s) dir sfx)) meta quality)
  = icc_profile meta.
Proof.
  intros Hext He Hicc.
  pose proof (parse_path_name_no_slash s) as Hn.
  set (p := parse_path s) in *. set (name := path_name p) in *.
  assert (path_suffix name <> "") as Hne.
  { intros E. unfold extension in Hext. rewrite E in Hext. discriminate. }
  unfold save_kwargs.
  rewrite (output_extension_kept p name sfx dir eq_refl Hne Hn He).
  unfold extension in Hext. revert Hext.
  change SUPPORTED_EXTENSIONS
    with ([".jpg"; ".jpeg"] ++ [".png"; ".tiff"; ".tif"])%list.
  rewrite str_in_app.
  destruct (str_in _ [".jpg"; ".jpeg"]); cbn [orb kw_icc_profile].
  - now rewrite Hicc.
  - intros ->. cbn [kw_icc_profile]. now rewrite Hicc.
Qed.

Lemma saved_output_keeps_icc_witness :
  kw_icc_profile
    (save_kwargs plain_piexif
       (path_name
          (build_output_path (parse_path "in/Scan.TIF") out_dir "_rectified"))
       some_meta 95)
  = icc_profile some_meta.
Proof.
  apply (saved_output_keeps_icc plain_piexif "in/Scan.TIF" "_rectified"
           out_dir some_meta 95); reflexivity.
Defined.

(** With the suffix [/] the output [out/Scan/.TIF] has no extension and
    nothing is passed to the writer. *)
Lemma saved_output_slash_suffix :
  save_kwargs plain_piexif
    (path_name (build_output_path (parse_path "in/Scan.TIF") out_dir "/"))
    some_meta 95
  = no_kwargs.
Proof. reflexivity. Qed.

End FileNameProperties.

(** ** EXIF orientation *)

(** X15.  What [_apply_orientation] does to the pixels.  Values 2, 3 and 4
    mirror the columns, both, or the rows; 6 and 8 turn the image a
    quarter turn clockwise and counter-clockwise; 5 is the mirror image
    about the anti-diagonal (pixel (x, y) comes from (w-1-y, h-1-x)) and 7
    the mirror image about the main diagonal (pixel (x, y) comes from
    (y, x)); values 5 to 8 swap width and height; any other value leaves
    the image as it is.  Applying 8 after 6, 6 after 8, or any other value
    twice gives back every pixel and the size. *)
Theorem apply_orientation_pixels {A : Type} (pil : PilImage A)
    (orientation x y : Z) :
  let w := im_width pil in
  let h := im_height pil in
  let out := apply_orientation pil orientation in
  let back := apply_orientation out (opposite_orientation orientation) in
  (im_width out, im_height out)
  = (if (5 <=? orientation) && (orientation <=? 8) then (h, w) else (w, h)) /\
  im_pixel out x y
  = (if orientation =? 2 then im_pixel pil (w - 1 - x) y
     else if orientation =? 3 then im_pixel pil (w - 1 - x) (h - 1 - y)
     else if orientation =? 4 then im_pixel pil x (h - 1 - y)
     else if orientation =? 5 then im_pixel pil (w - 1 - y) (h - 1 - x)
     else if orientation =? 6 then im_pixel pil y (h - 1 - x)
     else if orientation =? 7 then im_pixel pil y x
     else if orientation =? 8 then im_pixel pil (w - 1 - y) x
     else im_pixel pil x y) /\
  (im_width back, im_height back) = (w, h) /\
  im_pixel back x y = im_pixel pil x y.
Proof.
  cbv zeta. unfold apply_orientation, opposite_orientation.
  destruct (Z.eq_dec orientation 1) as [->|H1]; [cbn; auto|].
  destruct (Z.eq_dec orientation 2) as [->|H2];
    [cbn; repeat split; f_equal; lia|].
  destruct (Z.eq_dec orientation 3) as [->|H3];
    [cbn; repeat split; f_equal; lia|].
  destruct (Z.eq_dec orientation 4) as [->|H4];
    [cbn; repeat split; f_equal; lia|].
  destruct (Z.eq_dec orientation 5) as [->|H5];
    [cbn; repeat split; f_equal; lia|].
  destruct (Z.eq_dec orientation 6) as [->|H6];
    [cbn; repeat split; f_equal; lia|].
  destruct (Z.eq_dec orientation 7) as [->|H7];
    [cbn; repeat split; f_equal; lia|].
  destruct (Z.eq_dec orientation 8) as [->|H8];
    [cbn; repeat split; f_equal; lia|].
  apply Z.eqb_neq in H1, H2, H3, H4, H5, H6, H7, H8.
  rewrite H1, H2, H3, H4, H5, H6, H7, H8.
  rewrite H1, H2, H3, H4, H5, H6, H7, H8.
  assert ((5 <=? orientation) && (orientation <=? 8) = false) as ->.
  { apply Z.eqb_neq in H5, H6, H7, H8.
    destruct (5 <=? orientation) eqn:E1; [|reflexivity].
    destruct (orientation <=? 8) eqn:E2; [|reflexivity].
    apply Z.leb_le in E1, E2. lia. }
  auto.
Qed.

(** ** The queue holds a path once *)

Section Queue.
Context {Path : Type} (path_eq : Path -> Path -> bool).

Lemma distinct_paths_snoc (queue : list (QueueItem Path)) (p : Path) :
  distinct_paths path_eq queue ->
  existsb (fun q => path_eq (path q) p) queue = false ->
  distinct_paths path_eq (queue ++ [mkQueueItem p PENDING None]).
Proof.
  unfold distinct_paths. intros Hd Hp.
  induction Hd as [|a l Ha Hl IH]; cbn.
  - constructor; constructor.
  - cbn in Hp. apply orb_false_iff in Hp. destruct Hp as [Hap Hlp].
    constructor; [|exact (IH Hlp)].
    apply Forall_app. split; [exact Ha|]. constructor; [exact Hap|constructor].
Qed.

(** The loop from any queue and any count: the queue stays without
    repetition; the paths appended are taken from [paths] in order; a
    path that is met for the first time and is not in the queue is
    appended, after those appended from the paths before it and before
    those appended from the paths after it; and every path ends up
    queued. *)
Lemma add_paths_to_queue_step (queue : list (QueueItem Path)) (added : Z)
    (paths : list Path) :
  distinct_paths path_eq queue ->
  let '(queue', added') :=
    fold_left
      (fun '(queue, added) p =>
         if negb (existsb (fun q => path_eq (path q) p) queue)
         then (queue ++ [mkQueueItem p PENDING None], added + 1)
         else (queue, added))
      paths (queue, added) in
  distinct_paths path_eq queue' /\
  (exists new,
     queue' = queue ++ map (fun p => mkQueueItem p PENDING None) new /\
     subseq new paths /\ added' = added + Z.of_nat (length new) /\
     (forall pre p post,
        paths = pre ++ p :: post ->
        existsb (fun q => path_eq (path q) p) queue = false ->
        (forall x, In x pre -> path_eq x p = false) ->
        exists new1 new2,
          new = new1 ++ p :: new2 /\ subseq new1 pre /\ subseq new2 post)) /\
  (forall p, In p paths ->
     exists q, In q queue' /\ (path q = p \/ path_eq (path q) p = true)).
Proof.
  revert queue added.
  induction paths as [|p paths IH]; intros queue added Hd; cbn [fold_left].
  - split; [exact Hd|]. split; [|intros p []].
    exists []. cbn. rewrite app_nil_r.
    repeat split; [constructor|lia|].
    intros [|x pre] p post E; discriminate.
  - destruct (existsb (fun q => path_eq (path q) p) queue) eqn:Hp; cbn [negb].
    + specialize (IH queue added Hd).
      destruct (fold_left _ paths (queue, added)) as [queue' added'].
      destruct IH as (Hd' & (new & -> & Hsub & Hadd & Hfirst) & Hall).
      split; [exact Hd'|]. split.
      * exists new. split; [reflexivity|].
        split; [now constructor|]. split; [exact Hadd|].
        intros [|x pre] p' post E Hq Hpre.
        -- injection E as <- _. congruence.
        -- injection E as <- E.
           destruct (Hfirst pre p' post E Hq) as (n1 & n2 & -> & S1 & S2);
             [intros y Hy; apply Hpre; now right|].
           exists n1, n2. split; [reflexivity|]. split; [now constructor|exact S2].
      * intros x [<-|Hx]; [|now apply Hall].
        apply existsb_exists in Hp. destruct Hp as (q & Hq & Hqp).
        exists q. split; [apply in_or_app; now left|now right].
    + pose proof (distinct_paths_snoc queue p Hd Hp) as Hd1.
      specialize (IH (queue ++ [mkQueueItem p PENDING None]) (added + 1) Hd1).
      destruct (fold_left _ paths _) as [queue' added'].
      destruct IH as (Hd' & (new & -> & Hsub & Hadd & Hfirst) & Hall).
      split; [exact Hd'|]. split.
      * exists (p :: new). cbn [map]. rewrite <- app_assoc. cbn [app].
        split; [reflexivity|]. split; [now constructor|].
        split; [cbn [length]; lia|].
        intros [|x pre] p' post E Hq Hpre.
        -- injection E as <- <-. exists [], new.
           split; [reflexivity|]. split; [constructor|exact Hsub].
        -- injection E as <- E.
           destruct (Hfirst pre p' post E) as (n1 & n2 & -> & S1 & S2).
           ++ rewrite existsb_app, Hq. cbn.
              rewrite (Hpre p (or_introl eq_refl)). reflexivity.
           ++ intros y Hy. apply Hpre. now right.
           ++ exists (p :: n1), n2.
              split; [reflexivity|]. split; [now constructor|exact S2].
      * intros x [<-|Hx]; [|now apply Hall].
        exists (mkQueueItem p PENDING None). split; [|now left].
        apply in_or_app. left. apply in_or_app. right. now left.
Qed.

(** X16.  [_add_paths_to_queue] never queues a path twice: if no item of
    the queue has the path of an earlier item, the same holds afterwards.
    The items already queued stay as they are and in place; the items
    appended are pending, without error message, one for each path that
    was added, and these paths are taken from [paths] in the order of
    [paths]; the count [added] is their number.  A path that is in
    [paths] for the first time and not yet in the queue is added, after
    the paths added from those before it and before the paths added from
    those after it.  Every path of [paths] ends up in the queue, as
    itself or as an equal path. *)
Theorem add_paths_to_queue_distinct (queue : list (QueueItem Path))
    (paths : list Path) :
  distinct_paths path_eq queue ->
  distinct_paths path_eq (fst (add_paths_to_queue path_eq queue paths)) /\
  (exists new,
     fst (add_paths_to_queue path_eq queue paths)
     = queue ++ map (fun p => mkQueueItem p PENDING None) new /\
     subseq new paths /\
     snd (add_paths_to_queue path_eq queue paths) = Z.of_nat (length new) /\
     (forall pre p post,
        paths = pre ++ p :: post ->
        existsb (fun q => path_eq (path q) p) queue = false ->
        (forall x, In x pre -> path_eq x p = false) ->
        exists new1 new2,
          new = new1 ++ p :: new2 /\ subseq new1 pre /\ subseq new2 post)) /\
  (forall p, In p paths ->
     exists q, In q (fst (add_paths_to_queue path_eq queue paths)) /\
               (path q = p \/ path_eq (path q) p = true)).
Proof.
  intros Hd. pose proof (add_paths_to_queue_step queue 0 paths Hd) as H.
  unfold add_paths_to_queue.
  destruct (fold_left _ paths (queue, 0)) as [queue' added'].
  exact H.
Qed.

End Queue.

Lemma add_paths_to_queue_distinct_witness :
  distinct_paths Z.eqb [mkQueueItem 7 DONE None] /\
  add_paths_to_queue Z.eqb [mkQueueItem 7 DONE None] [3; 7; 3; 5]
  = ([mkQueueItem 7 DONE None; mkQueueItem 3 PENDING None;
      mkQueueItem 5 PENDING None], 2) /\
  subseq [3; 5] [3; 7; 3; 5] /\
  distinct_paths Z.eqb
    (fst (add_paths_to_queue Z.eqb [mkQueueItem 7 DONE None] [3; 7; 3; 5])).
Proof.
  assert (distinct_paths Z.eqb [mkQueueItem 7 DONE None]) as H
    by (constructor; constructor).
  split; [exact H|]. split; [reflexivity|].
  split;
    [apply subseq_take, subseq_skip, subseq_skip, subseq_take, subseq_nil|].
  exact (proj1 (add_paths_to_queue_distinct Z.eqb [mkQueueItem 7 DONE None]
                  [3; 7; 3; 5] H)).
Defined.

(** ** Integers as float32 values *)

Lemma digits2_pos_spec (p : positive) :
  2 ^ (Zpos (digits2_pos p) - 1) <= Zpos p < 2 ^ Zpos (digits2_pos p).
Proof.
  induction p as [p IH|p IH|]; cbn [digits2_pos].
  - rewrite Pos2Z.inj_succ, Pos2Z.inj_xI.
    replace (Z.succ (Zpos (digits2_pos p)) - 1)
      with (Z.succ (Zpos (digits2_pos p) - 1)) by lia.
    rewrite !Z.pow_succ_r by lia.
    generalize dependent (2 ^ (Zpos (digits2_pos p) - 1)).
    generalize (2 ^ Zpos (digits2_pos p)). lia.
  - rewrite Pos2Z.inj_succ. change (Zpos p~0) with (2 * Zpos p).
    replace (Z.succ (Zpos (digits2_pos p)) - 1)
      with (Z.succ (Zpos (digits2_pos p) - 1)) by lia.
    rewrite !Z.pow_succ_r by lia.
    generalize dependent (2 ^ (Zpos (digits2_pos p) - 1)).
    generalize (2 ^ Zpos (digits2_pos p)). lia.
  - cbn. lia.
Qed.

Lemma digits2_pos_unique (p : positive) (n : Z) :
  2 ^ (n - 1) <= Zpos p < 2 ^ n -> Zpos (digits2_pos p) = n.
Proof.
  intros [Hlo Hhi]. destruct (digits2_pos_spec p) as [Dlo Dhi].
  assert (0 < n).
  { destruct (Z.lt_ge_cases 0 n) as [|Hn]; [assumption|].
    assert (2 ^ n <= 2 ^ 0) by (apply Z.pow_le_mono_r; lia).
    change (2 ^ 0) with 1 in *. lia. }
  assert (Zpos (digits2_pos p) - 1 < n).
  { apply (Z.pow_lt_mono_r_iff 2); lia. }
  assert (n - 1 < Zpos (digits2_pos p)).
  { apply (Z.pow_lt_mono_r_iff 2); lia. }
  lia.
Qed.

Lemma digits2_pos_shift (p m : positive) (k : Z) :
  0 <= k -> Zpos m = Zpos p * 2 ^ k ->
  Zpos (digits2_pos m) = Zpos (digits2_pos p) + k.
Proof.
  intros Hk Hm. apply digits2_pos_unique. rewrite Hm.
  destruct (digits2_pos_spec p) as [Dlo Dhi].
  replace (Zpos (digits2_pos p) + k - 1)
    with ((Zpos (digits2_pos p) - 1) + k) by lia.
  rewrite !Z.pow_add_r by lia.
  assert (0 < 2 ^ k) by (apply Z.pow_pos_nonneg; lia).
  split.
  - apply Z.mul_le_mono_nonneg_r; lia.
  - apply Z.mul_lt_mono_pos_r; lia.
Qed.

Lemma digits2_pos_le (p q : positive) :
  Zpos p <= Zpos q -> Zpos (digits2_pos p) <= Zpos (digits2_pos q).
Proof.
  intros H. destruct (digits2_pos_spec p) as [Plo _].
  destruct (digits2_pos_spec q) as [_ Qhi].
  assert (Zpos (digits2_pos p) - 1 < Zpos (digits2_pos q)).
  { apply (Z.pow_lt_mono_r_iff 2); lia. }
  lia.
Qed.

Lemma mant24_value (p : positive) :
  Zpos p < 2 ^ 24 ->
  Zpos (mant24 p) = Zpos p * 2 ^ (24 - Zpos (digits2_pos p)) /\
  Zpos (digits2_pos (mant24 p)) = 24.
Proof.
  intros Hp. pose proof (digits2_pos_bound p 24 ltac:(lia) Hp) as Hd.
  assert (0 < 2 ^ (24 - Zpos (digits2_pos p)))
    by (apply Z.pow_pos_nonneg; lia).
  assert (Zpos (mant24 p) = Zpos p * 2 ^ (24 - Zpos (digits2_pos p))) as E.
  { unfold mant24. rewrite Z2Pos.id; [reflexivity|]. apply Z.mul_pos_pos; lia. }
  split; [exact E|].
  rewrite (digits2_pos_shift p (mant24 p) (24 - Zpos (digits2_pos p))
             ltac:(lia) E). lia.
Qed.

Lemma iter_pos_nat {A : Type} (f : A -> A) (n : positive) (x : A) :
  iter_pos f n x = Nat.iter (Pos.to_nat n) f x.
Proof.
  revert x. induction n as [n IH|n IH|]; intros x; cbn [iter_pos].
  - rewrite !IH, Pos2Nat.inj_xI. cbn [Nat.iter Nat.mul].
    rewrite Nat.add_0_r, <- Nat.iter_add, <- Nat.iter_succ_r. reflexivity.
  - rewrite !IH, Pos2Nat.inj_xO. cbn [Nat.mul].
    rewrite Nat.add_0_r, <- Nat.iter_add. reflexivity.
  - reflexivity.
Qed.

Lemma shr_exact_nat (n : nat) (q : positive) :
  Nat.iter n shr_1 (Build_shr_record (Zpos (Nat.iter n xO q)) false false)
  = Build_shr_record (Zpos q) false false.
Proof.
  induction n as [|n IH]; [reflexivity|].
  rewrite Nat.iter_succ_r. cbn [Nat.iter shr_1 orb]. exact IH.
Qed.

Lemma iter_xO_nat (q k : positive) :
  Pos.iter xO q k = Nat.iter (Pos.to_nat k) xO q.
Proof. apply Pos2Nat.inj_iter. Qed.

(** Shifting out zero bits is exact. *)
Lemma shr_exact (m q j : positive) (e : Z) :
  Zpos m = Zpos q * 2 ^ Zpos j ->
  shr (Build_shr_record (Zpos m) false false) e (Zpos j)
  = (Build_shr_record (Zpos q) false false, e + Zpos j).
Proof.
  intros Hm. unfold shr. f_equal.
  assert (m = Pos.iter xO q j) as ->.
  { apply Pos2Z.inj. rewrite iter_xO_value. exact Hm. }
  rewrite iter_pos_nat, iter_xO_nat. apply shr_exact_nat.
Qed.

Lemma binary_round_aux_exact (s : bool) (m : positive) (e : Z) :
  Zpos (digits2_pos m) = 24 -> -149 <= e <= 104 ->
  binary_round_aux 24 128 s (Zpos m) e loc_Exact = S754_finite s m e.
Proof.
  intros Hd He.
  unfold binary_round_aux, shr_fexp.
  cbn [Zdigits2 shr_record_of_loc]. rewrite Hd.
  assert (fexp 24 128 (24 + e) - e = 0) as ->
    by (unfold fexp, emin; lia).
  cbn [shr shr_m loc_of_shr_record round_nearest_even Zdigits2 shr_record_of_loc].
  rewrite Hd.
  assert (fexp 24 128 (24 + e) - e = 0) as ->
    by (unfold fexp, emin; lia).
  cbn [shr shr_m].
  assert ((e <=? 128 - 24) = true) as -> by (apply Z.leb_le; lia).
  reflexivity.
Qed.

(** A mantissa with trailing zero bits is rounded to the 24-bit mantissa of
    the same value. *)
Lemma binary_round_aux_shift (s : bool) (m q : positive) (e j : Z) :
  0 <= j -> Zpos m = Zpos q * 2 ^ j -> Zpos (digits2_pos q) = 24 ->
  -149 <= e + j <= 104 ->
  binary_round_aux 24 128 s (Zpos m) e loc_Exact = S754_finite s q (e + j).
Proof.
  intros Hj Hm Hq He.
  destruct j as [|j|j]; [| |lia].
  - rewrite Z.add_0_r. rewrite Z.pow_0_r, Z.mul_1_r in Hm.
    injection Hm as ->. apply binary_round_aux_exact; [exact Hq|lia].
  - pose proof (digits2_pos_shift q m (Zpos j) ltac:(lia) Hm) as Hd.
    unfold binary_round_aux, shr_fexp.
    cbn [Zdigits2 shr_record_of_loc]. rewrite Hd, Hq.
    assert (fexp 24 128 (24 + Zpos j + e) - e = Zpos j) as ->
      by (unfold fexp, emin; lia).
    rewrite (shr_exact m q j e Hm).
    cbn [shr_m loc_of_shr_record round_nearest_even Zdigits2 shr_record_of_loc].
    rewrite Hq.
    assert (fexp 24 128 (24 + (e + Zpos j)) - (e + Zpos j) = 0) as ->
      by (unfold fexp, emin; lia).
    cbn [shr shr_m].
    assert ((e + Zpos j <=? 128 - 24) = true) as -> by (apply Z.leb_le; lia).
    reflexivity.
Qed.

(** An integer below 2^24 given as [m * 2^-k] is rounded to itself. *)
Lemma binary_round_exact (s : bool) (m p : positive) (k : Z) :
  0 <= k -> Zpos p < 2 ^ 24 -> Zpos m = Zpos p * 2 ^ k ->
  binary_round 24 128 s m (- k) = norm24 s p.
Proof.
  intros Hk Hp Hm. unfold binary_round, norm24.
  pose proof (digits2_pos_shift p m k Hk Hm) as Hdm.
  pose proof (digits2_pos_bound p 24 ltac:(lia) Hp) as Hd.
  destruct (mant24_value p Hp) as [Hv Hdv].
  set (d := Zpos (digits2_pos p)) in *.
  assert (fexp 24 128 (Zpos (digits2_pos m) + - k) = d - 24) as ->
    by (rewrite Hdm; unfold fexp, emin; lia).
  unfold shl_align.
  destruct (d - 24 - - k) as [|j|j] eqn:Hj.
  - rewrite (binary_round_aux_shift s m (mant24 p) (- k) 0); try lia.
    + f_equal. lia.
    + rewrite Hv, Hm. replace (24 - d) with k by lia. lia.
  - rewrite (binary_round_aux_shift s m (mant24 p) (- k) (Zpos j)); try lia.
    + f_equal. lia.
    + rewrite Hv, Hm. replace k with ((24 - d) + Zpos j) at 1 by lia.
      rewrite Z.pow_add_r by lia. lia.
  - rewrite (binary_round_aux_shift s _ (mant24 p) (d - 24) 0); try lia.
    + f_equal. lia.
    + rewrite iter_xO_value, Hv, Hm, Z.pow_0_r, Z.mul_1_r.
      replace (24 - d) with (k + Zpos j) by lia.
      rewrite Z.pow_add_r by lia. lia.
Qed.

Lemma of_Z_pos (p : positive) :
  Zpos p < 2 ^ 24 -> F32.of_Z (Zpos p) = norm24 false p.
Proof.
  intros Hp. unfold F32.of_Z, binary_normalize.
  apply (binary_round_exact false p p 0); [lia|exact Hp|].
  rewrite Z.pow_0_r. lia.
Qed.

Lemma of_Z_neg (p : positive) :
  Zpos p < 2 ^ 24 -> F32.of_Z (Zneg p) = norm24 true p.
Proof.
  intros Hp. unfold F32.of_Z, binary_normalize.
  apply (binary_round_exact true p p 0); [lia|exact Hp|].
  rewrite Z.pow_0_r. lia.
Qed.

(** [binary_normalize] of an integer below 2^24 written as [n * 2^k * 2^-k]. *)
Lemma binary_normalize_exact (n k : Z) :
  0 <= k -> Z.abs n < 2 ^ 24 ->
  binary_normalize 24 128 (n * 2 ^ k) (- k) false = F32.of_Z n.
Proof.
  intros Hk Hn.
  assert (0 < 2 ^ k) as Hpow by (apply Z.pow_pos_nonneg; lia).
  destruct n as [|p|p].
  - reflexivity.
  - rewrite of_Z_pos by lia.
    destruct (Zpos p * 2 ^ k) as [|m|m] eqn:Hm; try lia.
    cbn [binary_normalize]. apply binary_round_exact; [exact Hk|lia|lia].
  - rewrite of_Z_neg by lia.
    destruct (Zneg p * 2 ^ k) as [|m|m] eqn:Hm; try lia.
    cbn [binary_normalize]. apply binary_round_exact; [exact Hk|lia|lia].
Qed.

Lemma shl_align_value (m : positive) (e e' : Z) :
  e' <= e ->
  Zpos (fst (shl_align m e e')) = Zpos m * 2 ^ (e - e').
Proof.
  intros H. unfold shl_align.
  destruct (e' - e) as [|j|j] eqn:Hj; cbn [fst].
  - replace (e - e') with 0 by lia. rewrite Z.pow_0_r. lia.
  - lia.
  - rewrite iter_xO_value. f_equal. f_equal. lia.
Qed.

(** The signed integer a float32 integer value stands for, scaled. *)
Lemma norm24_scaled (s : bool) (p : positive) (ez : Z) :
  Zpos p < 2 ^ 24 -> ez <= Zpos (digits2_pos p) - 24 ->
  cond_Zopp s
    (Zpos (fst (shl_align (mant24 p) (Zpos (digits2_pos p) - 24) ez)))
  = cond_Zopp s (Zpos p) * 2 ^ (- ez).
Proof.
  intros Hp He. pose proof (digits2_pos_bound p 24 ltac:(lia) Hp) as Hd.
  rewrite shl_align_value by exact He.
  destruct (mant24_value p Hp) as [-> _].
  rewrite <- Z.mul_assoc, <- Z.pow_add_r by lia.
  replace (24 - Zpos (digits2_pos p) + (Zpos (digits2_pos p) - 24 - ez))
    with (- ez) by lia.
  destruct s; cbn [cond_Zopp]; lia.
Qed.

Lemma of_Z_cases (n : Z) :
  Z.abs n < 2 ^ 24 ->
  match n with
  | Z0 => F32.of_Z n = S754_zero false
  | Zpos p => F32.of_Z n = norm24 false p
  | Zneg p => F32.of_Z n = norm24 true p
  end.
Proof.
  intros H. destruct n as [|p|p];
    [reflexivity|apply of_Z_pos; lia|apply of_Z_neg; lia].
Qed.

Lemma add_norm24 (s1 s2 : bool) (p1 p2 : positive) :
  Zpos p1 < 2 ^ 24 -> Zpos p2 < 2 ^ 24 ->
  Z.abs (cond_Zopp s1 (Zpos p1) + cond_Zopp s2 (Zpos p2)) < 2 ^ 24 ->
  F32.add (norm24 s1 p1) (norm24 s2 p2)
  = F32.of_Z (cond_Zopp s1 (Zpos p1) + cond_Zopp s2 (Zpos p2)).
Proof.
  intros H1 H2 H. unfold F32.add, norm24, SFadd.
  set (ez := Z.min _ _).
  pose proof (digits2_pos_bound p1 24 ltac:(lia) H1).
  pose proof (digits2_pos_bound p2 24 ltac:(lia) H2).
  rewrite !norm24_scaled by (try assumption; subst ez; lia).
  rewrite <- Z.mul_add_distr_r.
  replace ez with (- (- ez)) at 2 by lia.
  apply binary_normalize_exact; [subst ez; lia|exact H].
Qed.

Lemma sub_norm24 (s1 s2 : bool) (p1 p2 : positive) :
  Zpos p1 < 2 ^ 24 -> Zpos p2 < 2 ^ 24 ->
  Z.abs (cond_Zopp s1 (Zpos p1) - cond_Zopp s2 (Zpos p2)) < 2 ^ 24 ->
  F32.sub (norm24 s1 p1) (norm24 s2 p2)
  = F32.of_Z (cond_Zopp s1 (Zpos p1) - cond_Zopp s2 (Zpos p2)).
Proof.
  intros H1 H2 H. unfold F32.sub, norm24, SFsub.
  set (ez := Z.min _ _).
  pose proof (digits2_pos_bound p1 24 ltac:(lia) H1).
  pose proof (digits2_pos_bound p2 24 ltac:(lia) H2).
  rewrite !norm24_scaled by (try assumption; subst ez; lia).
  rewrite <- Z.mul_sub_distr_r.
  replace ez with (- (- ez)) at 2 by lia.
  apply binary_normalize_exact; [subst ez; lia|exact H].
Qed.

(** Sums and differences of integers are exact in float32 as long as the
    operands and the result stay below 2^24 in magnitude. *)
Lemma F32_add_of_Z (x y : Z) :
  Z.abs x < 2 ^ 24 -> Z.abs y < 2 ^ 24 -> Z.abs (x + y) < 2 ^ 24 ->
  F32.add (F32.of_Z x) (F32.of_Z y) = F32.of_Z (x + y).
Proof.
  intros Hx Hy Hxy.
  pose proof (of_Z_cases x Hx) as Ex. pose proof (of_Z_cases y Hy) as Ey.
  destruct x as [|p|p].
  - change (0 + y) with y.
    destruct y as [|q|q]; rewrite Ey; reflexivity.
  - destruct y as [|q|q].
    + rewrite Z.add_0_r, Ex. reflexivity.
    + rewrite Ex, Ey.
      apply (add_norm24 false false p q); cbn [cond_Zopp]; lia.
    + rewrite Ex, Ey.
      apply (add_norm24 false true p q); cbn [cond_Zopp]; lia.
  - destruct y as [|q|q].
    + rewrite Z.add_0_r, Ex. reflexivity.
    + rewrite Ex, Ey.
      apply (add_norm24 true false p q); cbn [cond_Zopp]; lia.
    + rewrite Ex, Ey.
      apply (add_norm24 true true p q); cbn [cond_Zopp]; lia.
Qed.

Lemma F32_sub_of_Z (x y : Z) :
  Z.abs x < 2 ^ 24 -> Z.abs y < 2 ^ 24 -> Z.abs (x - y) < 2 ^ 24 ->
  F32.sub (F32.of_Z x) (F32.of_Z y) = F32.of_Z (x - y).
Proof.
  intros Hx Hy Hxy.
  pose proof (of_Z_cases x Hx) as Ex. pose proof (of_Z_cases y Hy) as Ey.
  destruct x as [|p|p].
  - destruct y as [|q|q].
    + reflexivity.
    + change (0 - Zpos q) with (Zneg q).
      rewrite Ey, (of_Z_neg q) by lia. reflexivity.
    + change (0 - Zneg q) with (Zpos q).
      rewrite Ey, (of_Z_pos q) by lia. reflexivity.
  - destruct y as [|q|q].
    + rewrite Z.sub_0_r, Ex. reflexivity.
    + rewrite Ex, Ey.
      apply (sub_norm24 false false p q); cbn [cond_Zopp]; lia.
    + rewrite Ex, Ey.
      apply (sub_norm24 false true p q); cbn [cond_Zopp]; lia.
  - destruct y as [|q|q].
    + rewrite Z.sub_0_r, Ex. reflexivity.
    + rewrite Ex, Ey.
      apply (sub_norm24 true false p q); cbn [cond_Zopp]; lia.
    + rewrite Ex, Ey.
      apply (sub_norm24 true true p q); cbn [cond_Zopp]; lia.
Qed.

(** Integers below 2^24 in magnitude compare as float32 values the way
    they compare as integers. *)
Lemma norm24_compare_pos (p q : positive) :
  Zpos p < 2 ^ 24 -> Zpos q < 2 ^ 24 ->
  match Z.compare (Zpos (digits2_pos p) - 24) (Zpos (digits2_pos q) - 24) with
  | Lt => Lt
  | Gt => Gt
  | Eq => Pos.compare_cont Eq (mant24 p) (mant24 q)
  end = Pos.compare p q.
Proof.
  intros Hp Hq.
  destruct (mant24_value p Hp) as [Vp _].
  destruct (mant24_value q Hq) as [Vq _].
  destruct (digits2_pos_spec p) as [Plo Phi].
  destruct (digits2_pos_spec q) as [Qlo Qhi].
  destruct (Z.compare_spec (Zpos (digits2_pos p) - 24)
                           (Zpos (digits2_pos q) - 24)) as [E|E|E].
  - assert (Zpos (digits2_pos p) = Zpos (digits2_pos q)) as Ed by lia.
    change (Pos.compare_cont Eq (mant24 p) (mant24 q))
      with (Pos.compare (mant24 p) (mant24 q)).
    rewrite !Pos2Z.inj_compare, Vp, Vq, Ed.
    pose proof (digits2_pos_bound q 24 ltac:(lia) Hq).
    assert (0 < 2 ^ (24 - Zpos (digits2_pos q)))
      by (apply Z.pow_pos_nonneg; lia).
    symmetry. apply Zmult_compare_compat_r. lia.
  - symmetry. apply Pos.compare_lt_iff.
    assert (2 ^ Zpos (digits2_pos p) <= 2 ^ (Zpos (digits2_pos q) - 1))
      by (apply Z.pow_le_mono_r; lia).
    lia.
  - symmetry. apply Pos.compare_gt_iff.
    assert (2 ^ Zpos (digits2_pos q) <= 2 ^ (Zpos (digits2_pos p) - 1))
      by (apply Z.pow_le_mono_r; lia).
    lia.
Qed.

Lemma SFcompare_of_Z (x y : Z) :
  Z.abs x < 2 ^ 24 -> Z.abs y < 2 ^ 24 ->
  SFcompare (F32.of_Z x) (F32.of_Z y) = Some (Z.compare x y).
Proof.
  intros Hx Hy.
  pose proof (of_Z_cases x Hx) as Ex. pose proof (of_Z_cases y Hy) as Ey.
  destruct x as [|p|p], y as [|q|q]; rewrite ?Ex, ?Ey; try reflexivity.
  - unfold norm24. cbn [SFcompare]. f_equal.
    rewrite norm24_compare_pos by lia. reflexivity.
  - unfold norm24. cbn [SFcompare Z.compare]. f_equal.
    rewrite <- (norm24_compare_pos p q) by lia.
    destruct (Z.compare (Zpos (digits2_pos p) - 24) (Zpos (digits2_pos q) - 24));
      reflexivity.
Qed.

Lemma SFltb_of_Z (x y : Z) :
  Z.abs x < 2 ^ 24 -> Z.abs y < 2 ^ 24 ->
  SFltb (F32.of_Z x) (F32.of_Z y) = (x <? y).
Proof.
  intros Hx Hy. unfold SFltb, Z.ltb. rewrite SFcompare_of_Z by assumption.
  destruct (x ?= y); reflexivity.
Qed.

Lemma of_Z_finite (x : Z) : Z.abs x < 2 ^ 24 -> is_finite (F32.of_Z x) = true.
Proof.
  intros Hx. pose proof (of_Z_cases x Hx) as Ex.
  destruct x; rewrite Ex; reflexivity.
Qed.

(** ** Axis-aligned rectangles with integer corners *)

Lemma row_sum_ipt (x y : Z) :
  Z.abs x <= 2 ^ 22 -> Z.abs y <= 2 ^ 22 ->
  row_sum (ipt x y) = F32.of_Z (x + y).
Proof.
  intros Hx Hy. unfold row_sum, ipt. cbn [px py fst snd].
  apply F32_add_of_Z; change (2 ^ 24) with 16777216;
    change (2 ^ 22) with 4194304 in *; lia.
Qed.

Lemma row_diff_ipt (x y : Z) :
  Z.abs x <= 2 ^ 22 -> Z.abs y <= 2 ^ 22 ->
  row_diff (ipt x y) = F32.of_Z (y - x).
Proof.
  intros Hx Hy. unfold row_diff, ipt. cbn [px py fst snd].
  apply F32_sub_of_Z; change (2 ^ 24) with 16777216;
    change (2 ^ 22) with 4194304 in *; lia.
Qed.

Lemma SFltb_of_Z_true (x y : Z) :
  Z.abs x <= 2 ^ 23 -> Z.abs y <= 2 ^ 23 -> x < y ->
  SFltb (F32.of_Z x) (F32.of_Z y) = true.
Proof.
  intros Hx Hy H. rewrite SFltb_of_Z.
  - now apply Z.ltb_lt.
  - change (2 ^ 24) with 16777216; change (2 ^ 23) with 8388608 in *; lia.
  - change (2 ^ 24) with 16777216; change (2 ^ 23) with 8388608 in *; lia.
Qed.

(** The four corners in any order are put back in clockwise order from the
    top-left one. *)
Lemma order_points_axis_rect (x0 y0 x1 y1 : Z) (pts : list point) :
  - 2 ^ 22 <= x0 -> x0 < x1 -> x1 <= 2 ^ 22 ->
  - 2 ^ 22 <= y0 -> y0 < y1 -> y1 <= 2 ^ 22 ->
  Permutation (rect_rows (axis_rect x0 y0 x1 y1)) pts ->
  order_points pts = Ok (axis_rect x0 y0 x1 y1).
Proof.
  intros Hx0 Hx Hx1 Hy0 Hy Hy1 P.
  change (2 ^ 22) with 4194304 in *.
  assert (forall x y, - 4194304 <= x <= 4194304 -> - 4194304 <= y <= 4194304 ->
            row_sum (ipt x y) = F32.of_Z (x + y)) as Sum
    by (intros; apply row_sum_ipt; change (2 ^ 22) with 4194304; lia).
  assert (forall x y, - 4194304 <= x <= 4194304 -> - 4194304 <= y <= 4194304 ->
            row_diff (ipt x y) = F32.of_Z (y - x)) as Diff
    by (intros; apply row_diff_ipt; change (2 ^ 22) with 4194304; lia).
  assert (forall a b, - 8388608 <= a <= 8388608 -> - 8388608 <= b <= 8388608 ->
            a < b -> SFltb (F32.of_Z a) (F32.of_Z b) = true) as Lt
    by (intros; apply SFltb_of_Z_true; change (2 ^ 23) with 8388608; lia).
  assert (forall q, In q pts <->
            q = ipt x0 y0 \/ q = ipt x1 y0 \/ q = ipt x1 y1 \/ q = ipt x0 y1)
    as Hin.
  { intros q. split.
    - intros Hq. apply (Permutation_in _ (Permutation_sym P)) in Hq.
      cbn in Hq. intuition auto.
    - intros Hq. apply (Permutation_in _ P). cbn. intuition auto. }
  destruct pts as [|p0 pts0].
  { apply Permutation_sym, Permutation_nil in P. discriminate. }
  destruct (order_points_nonempty p0 pts0) as (r & E & M0 & M1 & M2 & M3).
  rewrite E. f_equal.
  destruct M0 as [I0 L0], M1 as [I1 L1], M2 as [I2 L2], M3 as [I3 L3].
  assert (tl r = ipt x0 y0) as T0.
  { pose proof (L0 (ipt x0 y0) (proj2 (Hin _) (or_introl eq_refl))) as K.
    apply Hin in I0. destruct I0 as [H|[H|[H|H]]]; rewrite H in K |- *;
      [reflexivity| | |];
      rewrite !Sum, Lt in K by lia; discriminate. }
  assert (tr r = ipt x1 y0) as T1.
  { pose proof (L1 (ipt x1 y0)
                  (proj2 (Hin _) (or_intror (or_introl eq_refl)))) as K.
    apply Hin in I1. destruct I1 as [H|[H|[H|H]]]; rewrite H in K |- *;
      [|reflexivity| |];
      rewrite !Diff, Lt in K by lia; discriminate. }
  assert (br r = ipt x1 y1) as T2.
  { pose proof (L2 (ipt x1 y1)
                  (proj2 (Hin _) (or_intror (or_intror (or_introl eq_refl)))))
      as K.
    apply Hin in I2. destruct I2 as [H|[H|[H|H]]]; rewrite H in K |- *;
      [| |reflexivity|];
      rewrite !Sum, Lt in K by lia; discriminate. }
  assert (bl r = ipt x0 y1) as T3.
  { pose proof (L3 (ipt x0 y1)
                  (proj2 (Hin _) (or_intror (or_intror (or_intror eq_refl)))))
      as K.
    apply Hin in I3. destruct I3 as [H|[H|[H|H]]]; rewrite H in K |- *;
      [| | |reflexivity];
      rewrite !Diff, Lt in K by lia; discriminate. }
  destruct r. cbn in *. unfold axis_rect. congruence.
Qed.

Lemma axis_len (n : Z) :
  1 <= n <= MAX_SIDE -> axis_len_ok n = true.
Proof.
  intros H.
  apply (all_from_one axis_len_ok MAX_SIDE);
    [vm_compute; reflexivity|exact H].
Qed.

Lemma F32_add_zero_comm (c : float) :
  F32.add (S754_zero false) c = F32.add c (S754_zero false).
Proof. destruct c as [[|]|[|]| |s m e]; reflexivity. Qed.

(** The candidates for a square do not depend on the sign. *)
Lemma square_candidates_opp (n : Z) :
  1 <= n <= MAX_SIDE ->
  square_candidates (F32.of_Z (- n)) = square_candidates (F32.of_Z n).
Proof.
  intros H. unfold MAX_SIDE in H. destruct n as [|p|p]; try lia.
  cbn [Z.opp].
  rewrite of_Z_pos, of_Z_neg by (change (2 ^ 24) with 16777216; lia).
  reflexivity.
Qed.

(** Whatever square of [n] or [- n] a faithful [powf] returns, the length
    along an axis has integer part [n]. *)
Lemma axis_len_square `{lm : Libm} (n : Z) (x : float) :
  faithful_square lm -> 1 <= n <= MAX_SIDE ->
  x = F32.of_Z n \/ x = F32.of_Z (- n) ->
  trunc (F32.sqrt (F32.add (sq x) (S754_zero false))) = Ok n /\
  trunc (F32.sqrt (F32.add (S754_zero false) (sq x))) = Ok n.
Proof.
  intros Hlm Hn Hx. pose proof (axis_len _ Hn) as H.
  unfold axis_len_ok in H. rewrite forallb_forall in H.
  assert (In (sq x) (square_candidates (F32.of_Z n))) as Hin.
  { destruct Hx as [->| ->]; [|rewrite <- (square_candidates_opp n Hn)];
      apply sq_candidate, Hlm. }
  specialize (H _ Hin). rewrite F32_add_zero_comm.
  destruct (trunc (F32.sqrt (F32.add (sq x) _))) as [a|]; [|discriminate].
  apply Z.eqb_eq in H. now subst.
Qed.

Lemma edge_len_horizontal `{lm : Libm} (x x' y : Z) :
  faithful_square lm ->
  Z.abs x <= 2 ^ 22 -> Z.abs x' <= 2 ^ 22 -> Z.abs y <= 2 ^ 22 ->
  1 <= x - x' <= MAX_SIDE ->
  trunc (edge_len (ipt x y) (ipt x' y)) = Ok (x - x').
Proof.
  intros Hlm Hx Hx' Hy Hn. change (2 ^ 22) with 4194304 in *.
  unfold edge_len, ipt. cbn [px py fst snd].
  rewrite !F32_sub_of_Z by (change (2 ^ 24) with 16777216; lia).
  rewrite Z.sub_diag. change (F32.of_Z 0) with (S754_zero false).
  rewrite (sq_zero false Hlm).
  apply (axis_len_square (x - x') _ Hlm Hn). now left.
Qed.

Lemma edge_len_vertical `{lm : Libm} (x y y' : Z) :
  faithful_square lm ->
  Z.abs x <= 2 ^ 22 -> Z.abs y <= 2 ^ 22 -> Z.abs y' <= 2 ^ 22 ->
  1 <= y' - y <= MAX_SIDE ->
  trunc (edge_len (ipt x y) (ipt x y')) = Ok (y' - y).
Proof.
  intros Hlm Hx Hy Hy' Hn. change (2 ^ 22) with 4194304 in *.
  unfold edge_len, ipt. cbn [px py fst snd].
  rewrite !F32_sub_of_Z by (change (2 ^ 24) with 16777216; lia).
  rewrite Z.sub_diag. replace (y - y') with (- (y' - y)) by lia.
  change (F32.of_Z 0) with (S754_zero false).
  rewrite (sq_zero false Hlm).
  apply (axis_len_square (y' - y) _ Hlm Hn). now right.
Qed.

(** Once the corners are in order, the four edge lengths are the two
    sides. *)
Lemma warp_geometry_axis_sizes `{lm : Libm} (x0 y0 x1 y1 : Z)
    (pts : list point) :
  faithful_square lm ->
  - 2 ^ 22 <= x0 -> x0 < x1 -> x1 <= 2 ^ 22 ->
  - 2 ^ 22 <= y0 -> y0 < y1 -> y1 <= 2 ^ 22 ->
  x1 - x0 <= MAX_SIDE -> y1 - y0 <= MAX_SIDE ->
  order_points pts = Ok (axis_rect x0 y0 x1 y1) ->
  warp_geometry pts
  = Ok (dst_rect (x1 - x0) (y1 - y0), axis_rect x0 y0 x1 y1,
        (x1 - x0, y1 - y0)).
Proof.
  intros Hlm Hx0 Hx Hx1 Hy0 Hy Hy1 Hw Hh E.
  change (2 ^ 22) with 4194304 in *.
  rewrite (warp_geometry_sizes pts _ (x1 - x0) (x1 - x0) (y1 - y0) (y1 - y0) E).
  - rewrite !Z.max_id. reflexivity.
  - apply edge_len_horizontal; [exact Hlm|..];
      change (2 ^ 22) with 4194304; lia.
  - apply edge_len_horizontal; [exact Hlm|..];
      change (2 ^ 22) with 4194304; lia.
  - apply edge_len_vertical; [exact Hlm|..];
      change (2 ^ 22) with 4194304; lia.
  - apply edge_len_vertical; [exact Hlm|..];
      change (2 ^ 22) with 4194304; lia.
  - rewrite Z.max_id. unfold MAX_SIDE in *. change (2 ^ 24) with 16777216. lia.
  - rewrite Z.max_id. unfold MAX_SIDE in *. change (2 ^ 24) with 16777216. lia.
Qed.

(** X17.  For the four corners of an axis-aligned rectangle with integer
    coordinates, given in any order, [warp_perspective] works on the
    corners in clockwise order from the top-left one and asks for an
    output of [x1 - x0] by [y1 - y0] pixels: one column and one row fewer
    than the pixels from [x0] to [x1] and from [y0] to [y1] inclusive.
    Coordinates up to 2^22 in magnitude, sides up to 16384, and any
    [powf] that returns one of the two float32 neighbours of the exact
    square. *)
Theorem warp_axis_aligned_rectangle `{lm : Libm} (x0 y0 x1 y1 : Z)
    (pts : list point) :
  faithful_square lm ->
  - 2 ^ 22 <= x0 -> x0 < x1 -> x1 <= 2 ^ 22 ->
  - 2 ^ 22 <= y0 -> y0 < y1 -> y1 <= 2 ^ 22 ->
  x1 - x0 <= MAX_SIDE -> y1 - y0 <= MAX_SIDE ->
  Permutation (rect_rows (axis_rect x0 y0 x1 y1)) pts ->
  warp_geometry pts
  = Ok (dst_rect (x1 - x0) (y1 - y0), axis_rect x0 y0 x1 y1,
        (x1 - x0, y1 - y0)).
Proof.
  intros Hlm Hx0 Hx Hx1 Hy0 Hy Hy1 Hw Hh P.
  apply warp_geometry_axis_sizes; try assumption.
  now apply order_points_axis_rect.
Qed.

Lemma warp_axis_aligned_rectangle_witness :
  warp_geometry (lm := rn_libm) [ipt 40 90; ipt 10 20; ipt 40 20; ipt 10 90]
  = Ok (dst_rect (40 - 10) (90 - 20), axis_rect 10 20 40 90,
        (40 - 10, 90 - 20)).
Proof.
  apply (warp_axis_aligned_rectangle (lm := rn_libm) 10 20 40 90
           [ipt 40 90; ipt 10 20; ipt 40 20; ipt 10 90]);
    try (unfold MAX_SIDE; change (2 ^ 22) with 4194304; lia);
    [exact rn_libm_faithful|].
  unfold axis_rect, rect_rows. cbn [tl tr br bl].
  apply Permutation_sym.
  apply (perm_trans (l' := [ipt 10 20; ipt 40 90; ipt 40 20; ipt 10 90]));
    [apply perm_swap|].
  apply perm_skip. apply (perm_trans (l' := [ipt 40 20; ipt 40 90; ipt 10 90]));
    [apply perm_swap|]. apply Permutation_refl.
Defined.

(** X18.  When [auto_detect_corners] reports failure, the corners it
    returns are those of the full frame, and warping the image with them
    gives an output one column and one row smaller than the image
    (sides from 2 to 16385 pixels, any [powf] that returns one of the two
    float32 neighbours of the exact square). *)
Theorem warp_after_failed_detection `{cv : OpenCV} `{lm : Libm}
    (img out : Image) (min_area_ratio : float) (downscale : Z) (r : rect) :
  honours_size cv -> faithful_square lm ->
  2 <= rows img <= MAX_SIDE + 1 -> 2 <= cols img <= MAX_SIDE + 1 ->
  auto_detect_corners img min_area_ratio downscale = Ok (r, false) ->
  warp_perspective img (rect_rows r) = Ok out ->
  r = full_frame (rows img) (cols img) /\
  cols out = cols img - 1 /\ rows out = rows img - 1.
Proof.
  intros Hcv Hlm Hr Hc Hd Hw. unfold MAX_SIDE in *.
  assert (r = full_frame (rows img) (cols img)) as ->.
  { unfold auto_detect_corners in Hd.
    destruct (detect_candidates img downscale) as [[[small scale] cs]|];
      [|discriminate].
    cbn [bind] in Hd.
    destruct (scan_contours_cases min_area_ratio small scale (rows img)
                (cols img) cs) as [[_ E]|(pre & c & post & r' & _ & _ & _ & _ & E)];
      rewrite E in Hd; congruence. }
  split; [reflexivity|].
  change (full_frame (rows img) (cols img))
    with (axis_rect 0 0 (cols img - 1) (rows img - 1)) in Hw.
  assert (warp_geometry (rect_rows (axis_rect 0 0 (cols img - 1) (rows img - 1)))
          = Ok (dst_rect (cols img - 1 - 0) (rows img - 1 - 0),
                axis_rect 0 0 (cols img - 1) (rows img - 1),
                (cols img - 1 - 0, rows img - 1 - 0))) as G.
  { apply warp_geometry_axis_sizes; [exact Hlm|..];
      try (unfold MAX_SIDE; change (2 ^ 22) with 4194304; lia).
    apply order_points_axis_rect;
      try (change (2 ^ 22) with 4194304; lia).
    apply Permutation_refl. }
  rewrite (warp_perspective_of_geometry img _ _ _ _ G) in Hw.
  destruct (cv_getPerspectiveTransform _ _) as [M|]; [|discriminate].
  cbn [bind] in Hw. apply Hcv in Hw; [|lia|lia].
  destruct Hw as [-> ->]. split; lia.
Qed.

Lemma warp_after_failed_detection_witness :
  full_frame 5 7 = full_frame (rows (blank 5 7)) (cols (blank 5 7)) /\
  cols (blank 4 6) = cols (blank 5 7) - 1 /\
  rows (blank 4 6) = rows (blank 5 7) - 1.
Proof.
  apply (warp_after_failed_detection (cv := toy_cv) (lm := rn_libm)
           (blank 5 7) (blank 4 6)
           default_min_area_ratio default_downscale (full_frame 5 7)).
  - exact toy_cv_honours_size.
  - exact rn_libm_faithful.
  - cbn. unfold MAX_SIDE. lia.
  - cbn. unfold MAX_SIDE. lia.
  - vm_compute. reflexivity.
  - vm_compute. reflexivity.
Defined.

(** ** Corners that are not numbers *)

Lemma shr_1_nonneg (r : shr_record) : 0 <= shr_m r -> 0 <= shr_m (shr_1 r).
Proof.
  destruct r as [m rb sb]. cbn [shr_m]. intros H.
  destruct m as [|[p|p|]|p]; cbn; lia.
Qed.

Lemma shr_nonneg (r : shr_record) (e n : Z) :
  0 <= shr_m r -> 0 <= shr_m (fst (shr r e n)).
Proof.
  intros H. unfold shr. destruct n as [|p|p]; cbn [fst]; try exact H.
  rewrite iter_pos_nat. induction (Pos.to_nat p) as [|k IH]; [exact H|].
  cbn [Nat.iter]. now apply shr_1_nonneg.
Qed.

Lemma shr_record_of_loc_m (m : Z) (l : location) :
  shr_m (shr_record_of_loc m l) = m.
Proof. destruct l as [|[| |]]; reflexivity. Qed.

Lemma round_nearest_even_nonneg (m : Z) (l : location) :
  0 <= m -> 0 <= round_nearest_even m l.
Proof.
  intros H. destruct l as [|[| |]]; cbn [round_nearest_even]; try lia.
  destruct (Z.even m); lia.
Qed.

(** Rounding a non-negative mantissa never gives NaN. *)
Lemma binary_round_aux_not_nan (prec emax : Z) (s : bool) (m e : Z)
    (l : location) :
  0 <= m -> is_nan (binary_round_aux prec emax s m e l) = false.
Proof.
  intros Hm. unfold binary_round_aux, shr_fexp.
  pose proof (shr_nonneg (shr_record_of_loc m l) e
                (fexp prec emax (Zdigits2 m + e) - e)) as H1.
  rewrite shr_record_of_loc_m in H1. specialize (H1 Hm).
  destruct (shr (shr_record_of_loc m l) e _) as [mrs' e']. cbn [fst] in H1.
  pose proof (round_nearest_even_nonneg (shr_m mrs') (loc_of_shr_record mrs') H1)
    as H2.
  set (m2 := round_nearest_even (shr_m mrs') (loc_of_shr_record mrs')) in *.
  pose proof (shr_nonneg (shr_record_of_loc m2 loc_Exact) e'
                (fexp prec emax (Zdigits2 m2 + e') - e')) as H3.
  rewrite shr_record_of_loc_m in H3. specialize (H3 H2).
  destruct (shr (shr_record_of_loc m2 loc_Exact) e' _) as [mrs'' e''].
  cbn [fst] in H3.
  destruct (shr_m mrs'') as [|p|p]; [reflexivity| |lia].
  destruct (e'' <=? emax - prec); reflexivity.
Qed.

Lemma binary_normalize_not_nan (prec emax m e : Z) (sz : bool) :
  is_nan (binary_normalize prec emax m e sz) = false.
Proof.
  unfold binary_normalize, binary_round.
  destruct m as [|p|p]; [reflexivity| |].
  - destruct (shl_align p e _) as [mz ez].
    apply binary_round_aux_not_nan. lia.
  - destruct (shl_align p e _) as [mz ez].
    apply binary_round_aux_not_nan. lia.
Qed.

(** The sum of two finite values is a number. *)
Lemma F32_add_finite_not_nan (x y : float) :
  is_finite x = true -> is_finite y = true -> is_nan (F32.add x y) = false.
Proof.
  destruct x as [sx|sx| |sx mx ex], y as [sy|sy| |sy my ey];
    try discriminate; intros _ _; unfold F32.add, SFadd.
  - destruct sx, sy; reflexivity.
  - reflexivity.
  - reflexivity.
  - apply binary_normalize_not_nan.
Qed.

Lemma F32_sub_not_finite (x y : float) :
  is_finite x = false -> is_finite (F32.sub x y) = false.
Proof.
  destruct x as [sx|sx| |sx mx ex]; try discriminate; intros _.
  - destruct y as [sy|sy| |sy my ey]; try reflexivity.
    destruct sx, sy; reflexivity.
  - reflexivity.
Qed.

Lemma sq_not_finite `{lm : Libm} (x : float) :
  faithful_square lm -> is_finite x = false -> inf_or_nan (sq x) = true.
Proof.
  intros Hlm. pose proof (sq_candidate x Hlm) as H.
  destruct x as [sx|sx| |sx mx ex]; try discriminate; intros _;
    cbn [square_candidates In] in H; destruct H as [<-|[]]; reflexivity.
Qed.

Lemma sq_not_neg_inf `{lm : Libm} (x : float) :
  faithful_square lm -> not_neg_inf (sq x) = true.
Proof.
  intros Hlm. pose proof (sq_candidate x Hlm) as H.
  destruct x as [sx|sx| |sx mx ex]; cbn [square_candidates In] in H.
  - destruct H as [<-|[]]. reflexivity.
  - destruct H as [<-|[]]. reflexivity.
  - destruct H as [<-|[]]. reflexivity.
  - destruct H as [<-|[<-|[]]].
    + pose proof (binary_round_dir_sign false F32.prec F32.emax false
                    (Zpos (mx * mx)) (ex + ex) loc_Exact) as H.
      destruct (binary_round_dir _ _ _ _ _ _ _) as [s|s| |s m e];
        try reflexivity.
      subst s. reflexivity.
    + pose proof (binary_round_dir_sign true F32.prec F32.emax false
                    (Zpos (mx * mx)) (ex + ex) loc_Exact) as H.
      destruct (binary_round_dir _ _ _ _ _ _ _) as [s|s| |s m e];
        try reflexivity.
      subst s. reflexivity.
Qed.

Lemma add_inf_or_nan_l (a b : float) :
  inf_or_nan a = true -> not_neg_inf b = true ->
  inf_or_nan (F32.add a b) = true.
Proof.
  destruct a as [sa|[|]| |sa ma ea]; try discriminate; intros _;
    destruct b as [sb|[|]| |sb mb eb]; try discriminate; reflexivity.
Qed.

Lemma add_inf_or_nan_r (a b : float) :
  not_neg_inf a = true -> inf_or_nan b = true ->
  inf_or_nan (F32.add a b) = true.
Proof.
  destruct b as [sb|[|]| |sb mb eb]; try discriminate; intros Ha _;
    destruct a as [sa|[|]| |sa ma ea]; try discriminate; reflexivity.
Qed.

Lemma trunc_sqrt_inf_or_nan (a : float) :
  inf_or_nan a = true ->
  exists e, trunc (F32.sqrt a) = Raise e /\
            (e = ValueError \/ e = OverflowError).
Proof.
  destruct a as [sa|[|]| |sa ma ea]; try discriminate; intros _; cbn; eauto.
Qed.

(** An edge from a corner with a coordinate that is not finite has no
    integer length. *)
Lemma edge_len_not_finite `{lm : Libm} (p q : point) :
  faithful_square lm ->
  is_finite (px p) = false \/ is_finite (py p) = false ->
  exists e, trunc (edge_len p q) = Raise e /\
            (e = ValueError \/ e = OverflowError).
Proof.
  intros Hlm H. unfold edge_len. apply trunc_sqrt_inf_or_nan.
  destruct H as [H|H].
  - apply add_inf_or_nan_l; [|apply sq_not_neg_inf, Hlm].
    apply sq_not_finite; [exact Hlm|]. apply F32_sub_not_finite, H.
  - apply add_inf_or_nan_r; [apply sq_not_neg_inf, Hlm|].
    apply sq_not_finite; [exact Hlm|]. apply F32_sub_not_finite, H.
Qed.

(** [np.argmax] lands on a NaN when there is one. *)
Lemma argmax_loop_nan (l : list float) :
  forall mp best i,
  (exists x, In x l /\ is_nan x = true) ->
  (i <= argmax_loop mp best i l)%nat /\
  nth_error l (argmax_loop mp best i l - i) = Some S754_nan.
Proof.
  induction l as [|x l IH]; intros mp best i (y & Hy & Hn); [destruct Hy|].
  cbn [argmax_loop].
  destruct (is_nan x) eqn:Hx.
  - apply is_nan_true in Hx. subst x.
    assert (SFleb S754_nan mp = false) as -> by reflexivity.
    cbn [negb is_nan]. rewrite Nat.sub_diag. split; [lia|reflexivity].
  - assert (exists z, In z l /\ is_nan z = true) as Hl.
    { destruct Hy as [<-|Hy]; [congruence|eauto]. }
    destruct (negb (SFleb x mp)).
    + destruct (IH x i (S i) Hl) as [Hle Hnth]. split; [lia|].
      replace (argmax_loop x i (S i) l - i)%nat
        with (S (argmax_loop x i (S i) l - S i)) by lia.
      exact Hnth.
    + destruct (IH mp best (S i) Hl) as [Hle Hnth]. split; [lia|].
      replace (argmax_loop mp best (S i) l - i)%nat
        with (S (argmax_loop mp best (S i) l - S i)) by lia.
      exact Hnth.
Qed.

Lemma argmax_nan (l : list float) :
  (exists x, In x l /\ is_nan x = true) ->
  exists k, argmax l = Ok k /\ nth_error l k = Some S754_nan.
Proof.
  intros (y & Hy & Hn). destruct l as [|x l]; [destruct Hy|].
  cbn [argmax]. destruct (is_nan x) eqn:Hx.
  - exists 0%nat. apply is_nan_true in Hx. subst x. split; reflexivity.
  - assert (exists z, In z l /\ is_nan z = true) as Hl.
    { destruct Hy as [<-|Hy]; [congruence|eauto]. }
    destruct (argmax_loop_nan l x 0%nat 1%nat Hl) as [Hle Hnth].
    exists (argmax_loop x 0 1 l). split; [reflexivity|].
    replace (argmax_loop x 0 1 l) with (S (argmax_loop x 0 1 l - 1)) at 1 by lia.
    exact Hnth.
Qed.

Lemma row_sum_nan (p : point) :
  is_nan (px p) = true \/ is_nan (py p) = true -> row_sum p = S754_nan.
Proof.
  unfold row_sum. intros [H|H]; apply is_nan_true in H; rewrite H.
  - reflexivity.
  - destruct (px p) as [s|s| |s m e]; reflexivity.
Qed.

Lemma warp_geometry_nan `{lm : Libm} (pts : list point) (p : point) :
  faithful_square lm -> In p pts -> is_nan (px p) = true \/ is_nan (py p) = true ->
  exists e, warp_geometry pts = Raise e /\
            (e = ValueError \/ e = OverflowError).
Proof.
  intros Hlm Hp Hn.
  assert (exists x, In x (map row_sum pts) /\ is_nan x = true) as Hx.
  { exists (row_sum p). split; [now apply in_map|].
    now rewrite (row_sum_nan p Hn). }
  destruct (argmax_nan _ Hx) as (k & Hk & Hnth).
  destruct pts as [|p0 pts0]; [destruct Hp|].
  destruct (argmin_nonempty (row_sum p0) (map row_sum pts0)) as [i0 H0].
  destruct (argmin_nonempty (row_diff p0) (map row_diff pts0)) as [i1 H1].
  destruct (argmax_nonempty (row_diff p0) (map row_diff pts0)) as [i3 H3].
  change (row_sum p0 :: map row_sum pts0) with (map row_sum (p0 :: pts0)) in *.
  change (row_diff p0 :: map row_diff pts0)
    with (map row_diff (p0 :: pts0)) in *.
  destruct (order_points_at_indices (p0 :: pts0) i0 i1 k i3)
    as (r & E & _ & _ & Hbr & _).
  { unfold extreme_indices. rewrite H0, Hk, H1, H3. reflexivity. }
  rewrite nth_error_map, Hbr in Hnth. cbn [option_map] in Hnth.
  injection Hnth as Hsum.
  assert (is_finite (px (br r)) = false \/ is_finite (py (br r)) = false)
    as Hbad.
  { destruct (is_finite (px (br r))) eqn:Fx; [|now left].
    destruct (is_finite (py (br r))) eqn:Fy; [|now right].
    pose proof (F32_add_finite_not_nan _ _ Fx Fy) as H.
    unfold row_sum in Hsum. rewrite Hsum in H. discriminate. }
  destruct (edge_len_not_finite (br r) (bl r) Hlm Hbad) as (e & He & Hor).
  exists e. split; [|exact Hor].
  unfold warp_geometry, four_point_transform. rewrite E. cbn [bind].
  rewrite He. reflexivity.
Qed.

(** X19.  A corner with a NaN coordinate never gives an output: whatever
    the other corners and the options, [warp_perspective] and
    [full_pipeline] raise [ValueError] or [OverflowError], before any
    call into OpenCV (for any [powf] that returns one of the two float32
    neighbours of the exact square, NaN for NaN and infinity for an
    infinity). *)
Theorem nan_corner_raises `{cv : OpenCV} `{lm : Libm} (img : Image)
    (pts : list point) (p : point) :
  faithful_square lm -> In p pts -> is_nan (px p) = true \/ is_nan (py p) = true ->
  exists e,
    (e = ValueError \/ e = OverflowError) /\
    warp_geometry pts = Raise e /\
    warp_perspective img pts = Raise e /\
    forall denoise denoise_strength clahe clahe_clip sharpen sharpen_amount
           clamp_enabled ref_max_dim max_scale_factor min_scale_factor,
      full_pipeline img pts denoise denoise_strength clahe clahe_clip
        sharpen sharpen_amount clamp_enabled ref_max_dim
        max_scale_factor min_scale_factor
      = Raise e.
Proof.
  intros Hlm Hp Hn.
  destruct (warp_geometry_nan pts p Hlm Hp Hn) as (e & He & Hor).
  exists e. split; [exact Hor|]. split; [exact He|].
  pose proof (warp_perspective_raise img pts e He) as Hw.
  split; [exact Hw|]. intros. unfold full_pipeline. rewrite Hw. reflexivity.
Qed.

Lemma nan_corner_raises_witness :
  exists e,
    (e = ValueError \/ e = OverflowError) /\
    warp_geometry (lm := rn_libm) nan_corner = Raise e /\
    warp_perspective (cv := toy_cv) (lm := rn_libm) (blank 4 4) nan_corner
    = Raise e /\
    forall denoise denoise_strength clahe clahe_clip sharpen sharpen_amount
           clamp_enabled ref_max_dim max_scale_factor min_scale_factor,
      full_pipeline (cv := toy_cv) (lm := rn_libm) (blank 4 4) nan_corner
        denoise
        denoise_strength clahe clahe_clip sharpen sharpen_amount
        clamp_enabled ref_max_dim max_scale_factor min_scale_factor
      = Raise e.
Proof.
  apply (nan_corner_raises (cv := toy_cv) (lm := rn_libm) (blank 4 4)
           nan_corner (S754_nan, F32.of_Z 10)).
  - exact rn_libm_faithful.
  - unfold nan_corner. cbn. auto.
  - left. reflexivity.
Defined.

(** ** Detection on images that need no downscaling *)

Lemma no_downscale (side : Z) :
  1 <= side <= default_downscale -> no_downscale_ok side = true.
Proof.
  intros H.
  apply (all_from_one no_downscale_ok default_downscale);
    [vm_compute; reflexivity|exact H].
Qed.

Lemma approx_points_unscaled (scale : float) (approx : list (Z * Z)) :
  SFltb scale f64_one = false ->
  approx_points scale approx = map (fun q => ipt (fst q) (snd q)) approx.
Proof.
  intros H. unfold approx_points. apply map_ext. intros q. now rewrite H.
Qed.

(** X20.  On an image whose larger side is at most the default 800, the
    detection scale is not below 1: the area filter is applied with the
    size of the image itself, and the corners returned with [True] are
    vertices of the approximated polygon of a qualifying candidate, with
    their integer pixel coordinates as they are. *)
Theorem auto_detect_corners_small_image `{cv : OpenCV} (img : Image)
    (min_area_ratio : float) (r : rect) :
  1 <= Z.max (rows img) (cols img) <= default_downscale ->
  auto_detect_corners img min_area_ratio default_downscale = Ok (r, true) ->
  exists c,
    qualifies min_area_ratio img c = true /\
    length (contour_approx c) = 4%nat /\
    incl (rect_rows r) (map (fun q => ipt (fst q) (snd q)) (contour_approx c)).
Proof.
  intros Hside H.
  pose proof (no_downscale _ Hside) as Hs. unfold no_downscale_ok in Hs.
  unfold auto_detect_corners, detect_candidates in H.
  destruct (py_truediv default_downscale (Z.max (rows img) (cols img)))
    as [q|]; [|discriminate].
  apply negb_true_iff in Hs. cbn [bind] in H. rewrite Hs in H. cbn [bind] in H.
  destruct (cv_cvtColor img COLOR_BGR2GRAY) as [g|]; [|discriminate].
  cbn [bind] in H.
  destruct (cv_GaussianBlur g (5, 5) f64_zero) as [b|]; [|discriminate].
  cbn [bind] in H.
  destruct (cv_Canny b 75 200) as [e|]; [|discriminate]. cbn [bind] in H.
  destruct (cv_dilate e 2) as [e'|]; [|discriminate]. cbn [bind] in H.
  destruct (cv_findContours e' RETR_EXTERNAL CHAIN_APPROX_SIMPLE) as [raw|];
    [|discriminate].
  cbn [bind] in H.
  destruct (scan_contours_cases min_area_ratio img (py_min q f64_one)
              (rows img) (cols img) (sorted_desc cv_contourArea raw))
    as [[_ E]|(pre & c & post & r' & _ & _ & Hq & Er & Es)];
    rewrite H in *; [discriminate|].
  injection Es as <-.
  exists c. split; [exact Hq|]. split.
  - unfold qualifies in Hq. unfold contour_approx.
    destruct (SFltb (cv_contourArea c) _); [discriminate|].
    now apply Nat.eqb_eq in Hq.
  - rewrite <- (approx_points_unscaled (py_min q f64_one)) by exact Hs.
    now apply order_points_rows_incl.
Qed.

Lemma auto_detect_corners_small_image_witness :
  exists c,
    qualifies (cv := quad_cv) default_min_area_ratio frame100 c = true /\
    length (contour_approx (cv := quad_cv) c) = 4%nat /\
    incl (rect_rows (mkRect (ipt 10 10) (ipt 90 12) (ipt 88 80) (ipt 12 78)))
      (map (fun q => ipt (fst q) (snd q)) (contour_approx (cv := quad_cv) c)).
Proof.
  apply (auto_detect_corners_small_image (cv := quad_cv) frame100
           default_min_area_ratio).
  - cbn. unfold default_downscale. lia.
  - vm_compute. reflexivity.
Defined.

(** ** Corners through the viewer *)

Lemma F32_mul_one_of_Z (n : Z) :
  Z.abs n < 2 ^ 24 -> F32.mul (F32.of_Z n) f32_one = F32.of_Z n.
Proof.
  intros Hn. pose proof (of_Z_cases n Hn) as E.
  destruct n as [|p|p]; rewrite E; [reflexivity| |];
    destruct (mant24_value p ltac:(lia)) as [Hv Hd];
    pose proof (digits2_pos_bound p 24 ltac:(lia) ltac:(lia)) as Hb;
    unfold norm24, f32_one, F32.mul, SFmul; cbn [xorb];
    rewrite (binary_round_aux_shift _ _ (mant24 p) _ 23); try lia;
    try (f_equal; lia); rewrite Pos2Z.inj_mul; reflexivity.
Qed.

Lemma div_eucl_exact (a b : Z) :
  0 < b -> Z.div_eucl (a * b) b = (a, 0).
Proof.
  intros Hb. pose proof (Z.div_mul a b ltac:(lia)) as Hq.
  pose proof (Z.mod_mul a b ltac:(lia)) as Hr.
  unfold Z.div, Z.modulo in Hq, Hr.
  destruct (Z.div_eucl (a * b) b) as [q r]. cbn in Hq, Hr. now subst.
Qed.

Lemma F32_div_one_of_Z (n : Z) :
  Z.abs n < 2 ^ 24 -> F32.div (F32.of_Z n) f32_one = F32.of_Z n.
Proof.
  intros Hn. pose proof (of_Z_cases n Hn) as E.
  destruct n as [|p|p]; rewrite E; [reflexivity| |];
    destruct (mant24_value p ltac:(lia)) as [Hv Hd];
    pose proof (digits2_pos_bound p 24 ltac:(lia) ltac:(lia)) as Hb;
    unfold norm24, f32_one, F32.div, SFdiv, SFdiv_core_binary;
    cbn [Zdigits2 xorb]; rewrite Hd;
    change (Zpos (digits2_pos 8388608)) with 24;
    set (e := Zpos (digits2_pos p) - 24) in *;
    assert (Z.min (fexp F32.prec F32.emax (24 + e - (24 + -23))) (e - -23)
            = e - 1) as -> by (unfold fexp, emin, F32.prec, F32.emax; lia);
    replace (e - -23 - (e - 1)) with 24 by lia;
    rewrite Z.shiftl_mul_pow2 by lia;
    replace (Zpos (mant24 p) * 2 ^ 24)
      with (Zpos (mant24 p) * 2 * 8388608) by lia;
    rewrite div_eucl_exact by lia;
    change (new_location 8388608 0) with loc_Exact;
    destruct (Zpos (mant24 p) * 2) as [|m2|m2] eqn:Hm; try lia;
    rewrite (binary_round_aux_shift _ m2 (mant24 p) (e - 1) 1); try lia;
    f_equal; lia.
Qed.

Lemma unit_scale (side : Z) :
  1 <= side <= DISPLAY_MAX_DIM -> py_truediv side side = Ok f64_one.
Proof.
  intros H.
  pose proof (all_from_one unit_scale_ok DISPLAY_MAX_DIM
                ltac:(vm_compute; reflexivity) side H) as K.
  unfold unit_scale_ok in K.
  destruct (py_truediv side side) as [q|]; [|discriminate].
  now apply float_eqb_eq in K; subst.
Qed.

Lemma display_scale_small `{cv : OpenCV} (img : Image) :
  1 <= Z.max (rows img) (cols img) <= DISPLAY_MAX_DIM ->
  display_scale img = Ok f64_one.
Proof.
  intros H. unfold display_scale, get_display_image.
  assert ((Z.max (rows img) (cols img) <=? DISPLAY_MAX_DIM) = true) as ->
    by (apply Z.leb_le; lia).
  cbn [bind]. now apply unit_scale.
Qed.

Lemma map_id_on {A : Type} (f : A -> A) (l : list A) :
  (forall a, In a l -> f a = a) -> map f l = l.
Proof.
  intros H. induction l as [|a l IH]; [reflexivity|].
  cbn [map]. rewrite H by now left. f_equal. apply IH.
  intros b Hb. apply H. now right.
Qed.

(** X21.  For an image within the display bound of 1200, corners with
    integer coordinates go through the viewer unchanged: [set_image]
    stores them as they are and [get_corners_in_original_scale] gives them
    back as they are, so auto-detected corners that the user does not move
    reach the warp exactly. *)
Theorem viewer_corners_round_trip `{cv : OpenCV} (img : Image)
    (corners : list point) :
  1 <= Z.max (rows img) (cols img) <= DISPLAY_MAX_DIM ->
  (forall p, In p corners -> integer_point p) ->
  set_image_corners img corners = Ok corners /\
  get_corners_in_original_scale img corners = Ok corners /\
  (stored <- set_image_corners img corners ;;
   get_corners_in_original_scale img stored) = Ok corners.
Proof.
  intros Hside Hint.
  assert (set_image_corners img corners = Ok corners) as Hset.
  { unfold set_image_corners. rewrite (display_scale_small img Hside).
    cbn [bind]. apply f_equal. apply map_id_on. intros p Hp.
    destruct (Hint p Hp) as (x & y & -> & Hx & Hy).
    change (F32.of_float f64_one) with f32_one.
    unfold ipt. cbn [px py fst snd].
    now rewrite !F32_mul_one_of_Z. }
  assert (get_corners_in_original_scale img corners = Ok corners) as Hget.
  { unfold get_corners_in_original_scale.
    rewrite (display_scale_small img Hside).
    cbn [bind]. apply f_equal. apply map_id_on. intros p Hp.
    destruct (Hint p Hp) as (x & y & -> & Hx & Hy).
    change (F32.of_float f64_one) with f32_one.
    unfold ipt. cbn [px py fst snd].
    now rewrite !F32_div_one_of_Z. }
  split; [exact Hset|]. split; [exact Hget|].
  rewrite Hset. cbn [bind]. exact Hget.
Qed.

Lemma viewer_corners_round_trip_witness :
  set_image_corners (cv := toy_cv) frame100 square10 = Ok square10 /\
  get_corners_in_original_scale (cv := toy_cv) frame100 square10
  = Ok square10 /\
  (stored <- set_image_corners (cv := toy_cv) frame100 square10 ;;
   get_corners_in_original_scale (cv := toy_cv) frame100 stored)
  = Ok square10.
Proof.
  apply (viewer_corners_round_trip (cv := toy_cv) frame100 square10).
  - cbn. unfold DISPLAY_MAX_DIM. lia.
  - intros p Hp. unfold square10 in Hp. cbn [In] in Hp.
    destruct Hp as [<-|[<-|[<-|[<-|[]]]]];
      [exists 0, 0|exists 10, 0|exists 10, 10|exists 0, 10];
      (split; [reflexivity|split; cbn; lia]).
Defined.
